(** * Audio steganography core of app.py: LSB hiding and echo hiding

    A shallow embedding of [encode_lsb], [decode_lsb], [encode_echo_simple]
    and [decode_echo_simple] (src/app.py) together with the small part of
    Python and numpy they rely on, followed by the properties of the
    natural-language specification that were checked against them, and by
    further properties of [read_wav_bytes], [write_wav_bytes] and the four
    functions that the code itself shows. *)

From Stdlib Require Import String Ascii ZArith NArith List Bool Lia.
From Stdlib Require Import Floats.SpecFloat.
Import ListNotations.
Open Scope Z_scope.

(* ===================================================================== *)
(** * Python: exceptions, strings, slices, loops *)
(* ===================================================================== *)

Module Py.

(** The two exceptions the modelled code could raise. *)
Inductive exn : Type := IndexError | ValueError.

Inductive result (A : Type) : Type :=
| Raise (e : exn)
| Ret (a : A).
Arguments Raise {A} e.
Arguments Ret {A} a.

Definition bind {A B : Type} (m : result A) (k : A -> result B) : result B :=
  match m with
  | Raise e => Raise e
  | Ret a => k a
  end.

(** A [str] is its sequence of code points, [ord c] for each character. *)
Definition str : Type := list N.

Fixpoint lit (s : string) : str :=
  match s with
  | EmptyString => []
  | String a s' => N_of_ascii a :: lit s'
  end.

Definition len {A : Type} (l : list A) : Z := Z.of_nat (length l).

(** [l[a:b]]: a negative bound counts from the end, and both bounds are
    clamped to the sequence. *)
Definition clamp (n i : Z) : Z :=
  if i <? 0 then Z.max (i + n) 0 else Z.min i n.

Definition slice {A : Type} (l : list A) (a b : Z) : list A :=
  let a' := clamp (len l) a in
  let b' := clamp (len l) b in
  firstn (Z.to_nat (b' - a')) (skipn (Z.to_nat a') l).

(** [l[i]] and [l[i] = v], with [IndexError] out of range. *)
Definition index (n i : Z) : option nat :=
  let j := if i <? 0 then i + n else i in
  if (0 <=? j) && (j <? n) then Some (Z.to_nat j) else None.

Definition getitem {A : Type} (l : list A) (i : Z) : result A :=
  match index (len l) i with
  | Some j =>
      match nth_error l j with
      | Some x => Ret x
      | None => Raise IndexError
      end
  | None => Raise IndexError
  end.

Definition setitem {A : Type} (l : list A) (i : Z) (v : A) : result (list A) :=
  match index (len l) i with
  | Some j => Ret (firstn j l ++ v :: skipn (S j) l)
  | None => Raise IndexError
  end.

(** [range(start, stop, step)] for a positive step, [range(stop)] and
    [enumerate]. *)
Fixpoint range_from (n : nat) (start step : Z) : list Z :=
  match n with
  | O => []
  | S n' => start :: range_from n' (start + step) step
  end.

Definition range3 (start stop step : Z) : list Z :=
  range_from (Z.to_nat ((stop - start + step - 1) / step)) start step.

Definition range (stop : Z) : list Z := range3 0 stop 1.

Definition enumerate {A : Type} (l : list A) : list (Z * A) :=
  combine (range (len l)) l.

(** [s.endswith(suffix)] *)
Fixpoint str_eqb (s t : str) : bool :=
  match s, t with
  | [], [] => true
  | a :: s', b :: t' => N.eqb a b && str_eqb s' t'
  | _, _ => false
  end.

Definition endswith (s suffix : str) : bool :=
  (length suffix <=? length s)%nat
  && str_eqb (skipn (length s - length suffix) s) suffix.

(** [sub in s] *)
Fixpoint startswith (s pre : str) : bool :=
  match pre, s with
  | [], _ => true
  | b :: pre', a :: s' => N.eqb a b && startswith s' pre'
  | _ :: _, [] => false
  end.

Fixpoint contains (s sub : str) : bool :=
  startswith s sub
  || match s with
     | [] => false
     | _ :: s' => contains s' sub
     end.

(** A string of binary digits is a list of booleans, [true] for ['1'].
    [format(n, "08b")] pads the binary numeral of [n] with zeros to a
    width of at least eight: wider numerals are not shortened. *)
Fixpoint bin_pos (p : positive) : list bool :=
  match p with
  | xH => [true]
  | xO p' => bin_pos p' ++ [false]
  | xI p' => bin_pos p' ++ [true]
  end.

Definition bin (n : N) : list bool :=
  match n with
  | N0 => [false]
  | Npos p => bin_pos p
  end.

Definition format_08b (n : N) : list bool :=
  repeat false (8 - length (bin n))%nat ++ bin n.

(** [int(digits, 2)] *)
Definition int2 (digits : list bool) : N :=
  fold_left (fun acc b => (2 * acc + N.b2n b)%N) digits 0%N.

(** A [for] loop whose body may [break] or [return]. *)
Inductive ctl (S R : Type) : Type :=
| Continue (s : S)
| Break (s : S)
| Return (r : R).
Arguments Continue {S R} s.
Arguments Break {S R} s.
Arguments Return {S R} r.

Fixpoint for_each {I S R : Type} (body : I -> S -> ctl S R)
         (iter : list I) (s : S) : S + R :=
  match iter with
  | [] => inl s
  | i :: iter' =>
      match body i s with
      | Continue s' => for_each body iter' s'
      | Break s' => inl s'
      | Return r => inr r
      end
  end.

(** A loop without [return] ends in its state. *)
Definition loop_state {S : Type} (r : S + Empty_set) : S :=
  match r with
  | inl s => s
  | inr e => match e with end
  end.

(** The same loop when the body may also raise. *)
Fixpoint for_eachM {I S R : Type} (body : I -> S -> result (ctl S R))
         (iter : list I) (s : S) : result (S + R) :=
  match iter with
  | [] => Ret (inl s)
  | i :: iter' =>
      match body i s with
      | Raise e => Raise e
      | Ret (Continue s') => for_eachM body iter' s'
      | Ret (Break s') => Ret (inl s')
      | Ret (Return r) => Ret (inr r)
      end
  end.

End Py.

Import Py.

Notation "x <- m ;; k" := (Py.bind m (fun x => k))
  (at level 61, m at next level, right associativity).
Notation "' p <- m ;; k" := (Py.bind m (fun x => match x with p => k end))
  (at level 61, p pattern, m at next level, right associativity).

(* ===================================================================== *)
(** * numpy: int16 / uint16 / float32 arrays *)
(* ===================================================================== *)

Module Np.

(** ** Integer element types *)

Definition is_int16 (z : Z) : Prop := -32768 <= z <= 32767.

(** [a.view(np.uint16)] on an int16 element: the same 16 bits read as
    unsigned. *)
Definition view_uint16 (z : Z) : Z := z mod 65536.

(** [a.view(np.int16)] on a uint16 element (also the wrap-around of a C
    cast to a 16-bit signed integer). *)
Definition view_int16 (u : Z) : Z :=
  let r := u mod 65536 in
  if r <? 32768 then r else r - 65536.

(** ** float32: IEEE binary32 through the Standard Library's [SpecFloat] *)

Definition f32 : Type := spec_float.

Definition prec : Z := 24.
Definition emax : Z := 128.

Definition f32_of_Z (z : Z) : f32 := binary_normalize prec emax z 0 false.

Definition f32_add : f32 -> f32 -> f32 := SFadd prec emax.
Definition f32_sub : f32 -> f32 -> f32 := SFsub prec emax.
Definition f32_mul : f32 -> f32 -> f32 := SFmul prec emax.
Definition f32_abs : f32 -> f32 := SFabs.
Definition f32_gtb (x y : f32) : bool := SFltb y x.

(** A Python [float] (binary64) operand of a float32 array is rounded to
    float32 first. *)
Definition f32_of_f64 (x : spec_float) : f32 :=
  match x with
  | S754_finite s m e => binary_round prec emax s m e
  | _ => x
  end.

(** Rounding toward zero. *)
Definition f32_trunc (x : f32) : Z :=
  match x with
  | S754_finite s m e =>
      let a := match e with
               | Zneg p => Z.shiftr (Zpos m) (Zpos p)
               | _ => Z.shiftl (Zpos m) e
               end in
      if s then - a else a
  | _ => 0
  end.

(** [x.astype(np.int16)] and [np.int16(x)] on a float32 element: truncate,
    then keep 16 bits.  (Outside the int16 range and on NaN the C cast
    behind it is platform-defined; the values that reach it here come
    from int16 samples or from [np.clip].) *)
Definition f32_to_int16 (x : f32) : Z := view_int16 (f32_trunc x).

(** [np.clip(x, lo, hi)]; NaN stays NaN. *)
Definition f32_clip (lo hi x : f32) : f32 :=
  if SFltb x lo then lo else if SFltb hi x then hi else x.

Definition int_clip (lo hi z : Z) : Z := Z.min (Z.max z lo) hi.

(** ** One-dimensional arrays *)

Fixpoint map2 {A B C : Type} (f : A -> B -> C) (x : list A) (y : list B)
  : list C :=
  match x, y with
  | a :: x', b :: y' => f a b :: map2 f x' y'
  | _, _ => []
  end.

(** ** [np.sum] of a contiguous float32 array: pairwise summation

    numpy does not add the elements one after the other.  Fewer than
    eight elements are added in index order; up to 128 elements go to
    eight accumulators, [r[j]] taking the elements [j], [8+j], [16+j], ...
    of the full groups of eight, which are combined as
    [((r0+r1)+(r2+r3))+((r4+r5)+(r6+r7))] before the remaining elements
    are added in index order; a longer array is cut at [n/2] rounded down
    to a multiple of eight, and the sums of the two parts are added. *)

(** [for (; i < n; i++) res += a[i]] *)
Definition sum_from (res : f32) (a : list f32) : f32 := fold_left f32_add a res.

(** [k] times [r[j] += a[i + j]] for [j] in 0..7, [i] advancing by 8:
    the accumulators and the elements not yet read. *)
Fixpoint add_groups (k : nat) (r a : list f32) : list f32 * list f32 :=
  match k with
  | O => (r, a)
  | S k' => add_groups k' (map2 f32_add r (firstn 8 a)) (skipn 8 a)
  end.

(** The unrolled loop on a block of at least 8 elements. *)
Definition block_sum (a : list f32) : f32 :=
  let '(r, rest) := add_groups (length a / 8 - 1) (firstn 8 a) (skipn 8 a) in
  match r with
  | [r0; r1; r2; r3; r4; r5; r6; r7] =>
      sum_from (f32_add (f32_add (f32_add r0 r1) (f32_add r2 r3))
                        (f32_add (f32_add r4 r5) (f32_add r6 r7)))
               rest
  | _ => sum_from (S754_zero false) a
  end.

(** The recursion halves the array, so [fuel = len(a)] is never used up
    ([pairwise_sum_fuel] below). *)
Fixpoint pairwise_sum (fuel : nat) (a : list f32) : f32 :=
  let n := length a in
  if (n <? 8)%nat then sum_from (S754_zero false) a
  else if (n <=? 128)%nat then block_sum a
  else
    match fuel with
    | O => block_sum a
    | S fuel' =>
        let n2 := (n / 2 - (n / 2) mod 8)%nat in
        f32_add (pairwise_sum fuel' (firstn n2 a))
                (pairwise_sum fuel' (skipn n2 a))
    end.

(** [np.sum(a)]: the reduction starts from the identity [0.0] of the
    addition and adds the pairwise sum of the array to it. *)
Definition np_sum (a : list f32) : f32 :=
  f32_add (S754_zero false) (pairwise_sum (length a) a).

(** [x op y] on arrays: equal shapes, or one operand of length one is
    broadcast; anything else is a [ValueError]. *)
Definition binop {A : Type} (f : A -> A -> A) (x y : list A)
  : result (list A) :=
  if (length x =? length y)%nat then Ret (map2 f x y)
  else match x, y with
       | [a], _ => Ret (map (f a) y)
       | _, [b] => Ret (map (fun a => f a b) x)
       | _, _ => Raise ValueError
       end.

(** [out[a:b] += v]: [v] must have the shape of the slice or length one. *)
Definition slice_iadd {A : Type} (f : A -> A -> A) (out : list A) (a b : Z)
           (v : list A) : result (list A) :=
  let a' := Z.to_nat (clamp (len out) a) in
  let view := slice out a b in
  let put (w : list A) := firstn a' out ++ w ++ skipn (a' + length view) out in
  if (length v =? length view)%nat then Ret (put (map2 f view v))
  else match v with
       | [c] => Ret (put (map (fun x => f x c) view))
       | _ => Raise ValueError
       end.

(** The arrays that reach [write_wav_bytes]. *)
Inductive ndarray : Type :=
| Int16 (a : list Z)
| Float32 (a : list f32).

End Np.

Import Np.

(* ===================================================================== *)
(** * src/app.py *)
(* ===================================================================== *)

Module App.

(** What [wave]'s [getparams()] returns; the code only hands it back to
    [setparams]. *)
Record wave_params : Type := {
  nchannels : Z;
  sampwidth : Z;
  framerate : Z;
  nframes : Z;
  comptype : str;
  compname : str
}.

(** A 16-bit PCM WAV stream: its parameters and its frames as
    [np.frombuffer(frames, dtype=np.int16)] reads them. *)
Record wav : Type := {
  wav_params : wave_params;
  wav_frames : list Z
}.

Definition wf_wav (w : wav) : Prop := Forall is_int16 (wav_frames w).

Definition read_wav_bytes (audio_bytes : wav) : list f32 * wave_params :=
  (map f32_of_Z (wav_frames audio_bytes), wav_params audio_bytes).

Definition write_wav_bytes (samples : ndarray) (params : wave_params) : wav :=
  match samples with
  | Int16 a =>
      {| wav_params := params;
         wav_frames := map (fun z => view_int16 (int_clip (-32768) 32767 z)) a |}
  | Float32 a =>
      {| wav_params := params;
         wav_frames :=
           map (fun x => f32_to_int16
                           (f32_clip (f32_of_Z (-32768)) (f32_of_Z 32767) x)) a |}
  end.

Definition terminator : str := lit "###".

Definition not_found : str := lit "No hidden message found".

(** [message += "###"; bits = "".join(format(ord(c), "08b") for c in message)] *)
Definition message_bits (message : str) : list bool :=
  let message := message ++ terminator in
  flat_map format_08b message.

Definition encode_lsb (audio_bytes : wav) (message : str)
  : result (option wav) :=
  let '(samples, params) := read_wav_bytes audio_bytes in
  let samples := map f32_to_int16 samples in
  let bits := message_bits message in
  let flat := map view_uint16 samples in
  if len bits >? len flat then Ret None
  else
    r <- for_eachM
           (fun '(i, b) flat =>
              x <- getitem flat i ;;
              flat' <- setitem flat i (Z.lor (Z.land x 65534) (Z.b2z b)) ;;
              Ret (Continue flat'))
           (enumerate bits) flat ;;
    let flat := loop_state r in
    Ret (Some (write_wav_bytes (Int16 (map view_int16 flat)) params)).

(** The character loop shared by both decoders; [reject] is the stop test
    on a byte value ([char_val == 0], or that and [char_val > 127]). *)
Definition decode_chars (reject : N -> bool) (bits : list bool) : str :=
  match
    for_each
      (fun i chars =>
         let byte := slice bits i (i + 8) in
         if len byte <? 8 then Break chars
         else
           let char_val := int2 byte in
           if reject char_val then Break chars
           else
             let chars := chars ++ [char_val] in
             if endswith chars terminator
             then Return (slice chars 0 (-3))
             else Continue chars)
      (range3 0 (len bits) 8) []
  with
  | inr r => r
  | inl _ => not_found
  end.

Definition decode_lsb (stego_bytes : wav) : str :=
  let '(samples, _) := read_wav_bytes stego_bytes in
  let samples := map view_uint16 (map f32_to_int16 samples) in
  let bits := map (fun s => Z.land s 1 =? 1) samples in
  decode_chars (fun char_val => (char_val =? 0)%N) bits.

Definition chunk_size : Z := 8192.

Definition encode_echo_simple (audio_bytes : wav) (message : str)
           (d0 d1 : Z) (alpha : spec_float) : result (option wav) :=
  let '(samples, params) := read_wav_bytes audio_bytes in
  let bits := message_bits message in
  let max_delay := Z.max d0 d1 in
  if len bits * chunk_size + max_delay >? len samples then Ret None
  else
    let out := samples in
    r <- for_eachM
           (fun '(i, bit) out =>
              let start := i * chunk_size in
              let end_ := Z.min (start + chunk_size) (len samples - max_delay) in
              if end_ <=? start then Ret (Break out)
              else
                let delay := if bit : bool then d1 else d0 in
                let chunk := slice samples start end_ in
                let echo_start := start + delay in
                let echo_end := echo_start + len chunk in
                if echo_end <=? len out then
                  out' <- slice_iadd f32_add out echo_start echo_end
                            (map (f32_mul (f32_of_f64 alpha)) chunk) ;;
                  Ret (Continue out')
                else Ret (Continue out))
           (enumerate bits) out ;;
    Ret (Some (write_wav_bytes (Float32 (loop_state r)) params)).

(** One line of [debug_info]: chunk index, the two correlation
    magnitudes and the decided bit. *)
Record chunk_info : Type := {
  ci_chunk : Z;
  ci_corr_d0 : f32;
  ci_corr_d1 : f32;
  ci_bit : bool
}.

(** First loop of [decode_echo_simple]: one decided bit per chunk. *)
Definition correlate_chunks (original stego : list f32) (d0 d1 : Z)
  : result (list bool * list chunk_info) :=
  let max_delay := Z.max d0 d1 in
  let num_chunks :=
    (Z.min (len original) (len stego) - max_delay) / chunk_size in
  r <- for_eachM
         (fun i '(bits, debug_info) =>
            let start := i * chunk_size in
            let end_ := start + chunk_size in
            if end_ + max_delay >? Z.min (len original) (len stego)
            then Ret (Break (bits, debug_info))
            else
              echo <- binop f32_sub (slice stego start (end_ + max_delay))
                                    (slice original start (end_ + max_delay)) ;;
              let orig_chunk := slice original start end_ in
              let echo_d0 := slice echo d0 (d0 + len orig_chunk) in
              let echo_d1 := slice echo d1 (d1 + len orig_chunk) in
              p0 <- binop f32_mul orig_chunk echo_d0 ;;
              let corr_d0 := f32_abs (np_sum p0) in
              p1 <- binop f32_mul orig_chunk echo_d1 ;;
              let corr_d1 := f32_abs (np_sum p1) in
              let bit := f32_gtb corr_d1 corr_d0 in
              Ret (Continue
                     (bits ++ [bit],
                      debug_info ++ [{| ci_chunk := i; ci_corr_d0 := corr_d0;
                                        ci_corr_d1 := corr_d1; ci_bit := bit |}])))
         (range num_chunks) ([], []) ;;
  Ret (loop_state r).

(** [chr(char_val)] cannot fail once [0 < char_val <= 127], so the
    [try ... except: continue] around it never takes its handler. *)
Definition decode_echo_simple (original_bytes stego_bytes : wav) (d0 d1 : Z)
  : result (str * list chunk_info * list bool) :=
  let '(original, _) := read_wav_bytes original_bytes in
  let '(stego, _) := read_wav_bytes stego_bytes in
  '(bits, debug_info) <- correlate_chunks original stego d0 d1 ;;
  Ret (decode_chars (fun char_val => (char_val =? 0)%N || (127 <? char_val)%N) bits,
       debug_info, bits).

End App.

Import App.

(* ===================================================================== *)
(** * Definitions used to state the properties *)
(* ===================================================================== *)

(** ** Messages and the character loop *)

(** Messages: byte-valued, ASCII, free of NUL. *)
Definition is_byte_str (s : str) : Prop := Forall (fun c => (c < 256)%N) s.
Definition is_ascii_str (s : str) : Prop := Forall (fun c => (c < 128)%N) s.
Definition no_nul (s : str) : Prop := Forall (fun c => c <> 0%N) s.

(** Body of the character loop of [decode_chars], at index [i] with the
    characters accumulated so far. *)
Definition char_step (reject : N -> bool) (bits : list bool) (i : Z)
           (chars : str) : ctl str str :=
  let byte := slice bits i (i + 8) in
  if len byte <? 8 then Break chars
  else
    let char_val := int2 byte in
    if reject char_val then Break chars
    else
      let chars := chars ++ [char_val] in
      if endswith chars terminator
      then Return (slice chars 0 (-3))
      else Continue chars.

(** The two stop tests. *)
Definition reject_lsb (char_val : N) : bool := (char_val =? 0)%N.
Definition reject_echo (char_val : N) : bool :=
  (char_val =? 0)%N || (127 <? char_val)%N.

(** ** LSB hiding *)

(** A 16-bit pattern read as unsigned. *)
Definition is_uint16 (u : Z) : Prop := 0 <= u < 65536.

(** The samples of a WAV stream as unsigned 16-bit patterns. *)
Definition uint16_view (w : wav) : list Z := map view_uint16 (wav_frames w).

(** Least-significant bit of a sample, as [decode_lsb] reads it. *)
Definition lsb (u : Z) : bool := Z.land u 1 =? 1.

(** Low bits of the samples of a WAV stream. *)
Definition lsb_bits (w : wav) : list bool := map lsb (uint16_view w).

(** What the embedding loop of [encode_lsb] leaves in [flat]: the first
    [len(bits)] elements carry the bits, the others are as they were. *)
Fixpoint embed_bits (bits : list bool) (flat : list Z) : list Z :=
  match bits, flat with
  | b :: bits', x :: flat' =>
      Z.lor (Z.land x 65534) (Z.b2z b) :: embed_bits bits' flat'
  | _, _ => flat
  end.

(** ** Echo hiding: encoder *)

(** [+0.0] *)
Definition fzero : f32 := S754_zero false.

(** [l[j]] for an index inside the array. *)
Definition sample_at (l : list f32) (j : Z) : f32 := nth (Z.to_nat j) l fzero.

(** [out[start+delay : start+delay+chunk_size] += alpha * samples[start :
    start+chunk_size]], when both ranges lie inside the arrays. *)
Definition add_echo (alpha : f32) (samples out : list f32) (start delay : Z)
  : list f32 :=
  let a := Z.to_nat (start + delay) in
  let n := Z.to_nat chunk_size in
  firstn a out
  ++ map2 f32_add (firstn n (skipn a out))
          (map (f32_mul alpha) (firstn n (skipn (Z.to_nat start) samples)))
  ++ skipn (a + n) out.

(** The state of [out] after the loop of [encode_echo_simple]. *)
Definition echo_loop (alpha : f32) (samples : list f32) (d0 d1 : Z)
           (ibits : list (Z * bool)) (out : list f32) : list f32 :=
  fold_left
    (fun out '(i, bit) =>
       add_echo alpha samples out (i * chunk_size) (if bit : bool then d1 else d0))
    ibits out.

(** The value of [out[j]] as the specification describes it: starting
    from [samples[j]], every bit index [i] whose shifted window
    [[i*chunk_size + delay, i*chunk_size + delay + chunk_size)] contains
    [j] adds [alpha * samples[j - delay]], in the order of the bits. *)
Definition echo_spec (alpha : f32) (samples : list f32) (d0 d1 : Z)
           (ibits : list (Z * bool)) (j : Z) (x : f32) : f32 :=
  fold_left
    (fun acc '(i, bit) =>
       let delay := if bit : bool then d1 else d0 in
       let dst := i * chunk_size + delay in
       if (dst <=? j) && (j <? dst + chunk_size)
       then f32_add acc (f32_mul alpha (sample_at samples (j - delay)))
       else acc)
    ibits x.

(** [np.clip(x, -32768, 32767)] then [np.int16], as [write_wav_bytes]
    applies them to a float32 sample. *)
Definition quantize (x : f32) : Z :=
  f32_to_int16 (f32_clip (f32_of_Z (-32768)) (f32_of_Z 32767) x).

(** The stream [encode_echo_simple] returns when the message fits. *)
Definition echo_stego (audio : wav) (m : str) (d0 d1 : Z) (alpha : spec_float)
  : wav :=
  let samples := map f32_of_Z (wav_frames audio) in
  {| wav_params := wav_params audio;
     wav_frames :=
       map quantize
           (echo_loop (f32_of_f64 alpha) samples d0 d1
                      (enumerate (message_bits m)) samples) |}.

(** ** Echo hiding: decoder *)

(** The correlation magnitude of chunk [i] at offset [d], as
    [decode_echo_simple] computes it: the original chunk against the
    stego-minus-original difference over the window extended by
    [max_delay], read from offset [d]. *)
Definition chunk_corr (original stego : list f32) (max_delay i d : Z) : f32 :=
  let start := i * chunk_size in
  let end_ := start + chunk_size in
  let echo := map2 f32_sub (slice stego start (end_ + max_delay))
                           (slice original start (end_ + max_delay)) in
  let orig_chunk := slice original start end_ in
  let echo_d := slice echo d (d + len orig_chunk) in
  f32_abs (np_sum (map2 f32_mul orig_chunk echo_d)).

(** The diagnostic entry of chunk [i]. *)
Definition chunk_vote (original stego : list f32) (d0 d1 i : Z) : chunk_info :=
  let corr_d0 := chunk_corr original stego (Z.max d0 d1) i d0 in
  let corr_d1 := chunk_corr original stego (Z.max d0 d1) i d1 in
  {| ci_chunk := i; ci_corr_d0 := corr_d0; ci_corr_d1 := corr_d1;
     ci_bit := f32_gtb corr_d1 corr_d0 |}.

(** The correlation magnitude of chunk [i] at offset [d], sample by
    sample: [|sum_k original[i*8192 + k] * (stego[i*8192 + d + k] -
    original[i*8192 + d + k])|] for [k] in [0, 8192). *)
Definition corr_spec (original stego : list f32) (i d : Z) : f32 :=
  let start := i * chunk_size in
  f32_abs
    (np_sum
       (map (fun k =>
               f32_mul (sample_at original (start + k))
                       (f32_sub (sample_at stego (start + d + k))
                                (sample_at original (start + d + k))))
            (range chunk_size))).

(** ** float32 values

    Used to say which samples the further properties are about. *)

(** Neither an infinity nor NaN. *)
Definition f32_is_finite (x : f32) : bool :=
  match x with
  | S754_zero _ | S754_finite _ _ _ => true
  | _ => false
  end.

(** [+0.0] or [-0.0]. *)
Definition f32_is_zero (x : f32) : bool :=
  match x with
  | S754_zero _ => true
  | _ => false
  end.

(** The entry of chunk [i] when its two correlations are both [+0.0]. *)
Definition null_entry (i : Z) : chunk_info :=
  {| ci_chunk := i; ci_corr_d0 := fzero; ci_corr_d1 := fzero;
     ci_bit := false |}.

(** ** Inputs used in the examples *)

(** Parameters of a mono 16 kHz stream. *)
Definition example_params : wave_params :=
  {| nchannels := 1; sampwidth := 2; framerate := 16000; nframes := 0;
     comptype := lit "NONE"; compname := lit "not compressed" |}.

(** [n] zero samples. *)
Definition silence (n : Z) : wav :=
  {| wav_params := example_params; wav_frames := repeat 0 (Z.to_nat n) |}.

(** The stream [encode_lsb] returns for the empty message on 24 zero
    samples: the bits of "###" in the low bits. *)
Definition lsb_example_stego : wav :=
  {| wav_params := example_params;
     wav_frames := [0; 0; 1; 0; 0; 0; 1; 1;
                    0; 0; 1; 0; 0; 0; 1; 1;
                    0; 0; 1; 0; 0; 0; 1; 1] |}.

(** The binary64 value 0.5, the default [alpha]. *)
Definition alpha_half : spec_float := S754_finite false 4503599627370496 (-53).

(** The binary64 value nearest to 0.3, the least [alpha] of the
    configuration surface. *)
Definition alpha_min : spec_float := S754_finite false 5404319552844595 (-54).

(** 205200 samples, all zero except one of value 2 that closes chunk 23
    (index 24*8192 - 1). *)
Definition click_audio : wav :=
  {| wav_params := example_params;
     wav_frames := repeat 0 (Z.to_nat 196607) ++ 2 :: repeat 0 (Z.to_nat 8592) |}.

(** 262600 samples: a pulse of amplitude 512 every 200 samples. *)
Definition pulse_train : wav :=
  {| wav_params := example_params;
     wav_frames := concat (repeat (512 :: repeat 0 199) 1313) |}.

(** The entry of a chunk whose two correlations are both 5373952. *)
Definition tied_entry : chunk_info :=
  {| ci_chunk := 2; ci_corr_d0 := f32_of_Z 5373952;
     ci_corr_d1 := f32_of_Z 5373952; ci_bit := false |}.

(** ** Echo hiding: click trains

    Buffers on which the echo round trip can be followed sample by
    sample. *)

(** [n] samples: [A] at every multiple of 8192 (the first sample of each
    chunk), zero elsewhere. *)
Definition click_train (A n : Z) : wav :=
  {| wav_params := example_params;
     wav_frames :=
       map (fun j => if j mod chunk_size =? 0 then A else 0) (range n) |}.

(** The echo of a click, [alpha * A] in float32. *)
Definition click_echo (alpha : spec_float) (A : Z) : f32 :=
  f32_mul (f32_of_f64 alpha) (f32_of_Z A).

(** What the decoder adds up for that echo: the click times the
    difference between the stego sample, the quantized echo, and the
    original sample, zero. *)
Definition click_response (alpha : spec_float) (A : Z) : f32 :=
  f32_mul (f32_of_Z A)
          (f32_sub (f32_of_Z (quantize (click_echo alpha A))) (f32_of_Z 0)).

(** Finite and not a zero. *)
Definition f32_is_nonzero (x : f32) : bool :=
  match x with
  | S754_finite _ _ _ => true
  | _ => false
  end.

(** The echo of a click survives: [alpha * A] is a finite number other
    than zero, and so is the click times its quantized echo. *)
Definition click_heard (alpha : spec_float) (A : Z) : bool :=
  f32_is_nonzero (click_echo alpha A)
  && f32_is_nonzero (click_response alpha A).

(** Sample [j] is where the click of an encoded chunk lands: [delay]
    samples after the start of chunk [j / 8192], for the delay of that
    chunk's bit. *)
Definition echo_position (bits : list bool) (d0 d1 j : Z) : bool :=
  (j / chunk_size <? len bits)
  && (j mod chunk_size
      =? (if nth (Z.to_nat (j / chunk_size)) bits false then d1 else d0)).

(* ===================================================================== *)
(** * Facts about the Python layer *)
(* ===================================================================== *)

Section SliceFacts.
Context {A : Type}.
Implicit Types l pre g post : list A.

Lemma len_nonneg l : 0 <= len l.
Proof. unfold len. lia. Qed.

Lemma len_app l1 l2 : len (l1 ++ l2) = len l1 + len l2.
Proof. unfold len. rewrite length_app. lia. Qed.

Lemma len_cons (x : A) l : len (x :: l) = len l + 1.
Proof. unfold len. simpl length. lia. Qed.

Lemma clamp_inside n i : 0 <= i <= n -> clamp n i = i.
Proof.
  intros H. unfold clamp.
  destruct (Z.ltb_spec i 0); lia.
Qed.

Lemma slice_inside l a b :
  0 <= a <= b -> b <= len l ->
  slice l a b = firstn (Z.to_nat (b - a)) (skipn (Z.to_nat a) l).
Proof.
  intros Ha Hb. unfold slice.
  rewrite !clamp_inside by lia. reflexivity.
Qed.

Lemma length_slice l a b :
  0 <= a <= b -> b <= len l -> length (slice l a b) = Z.to_nat (b - a).
Proof.
  intros Ha Hb. rewrite slice_inside by assumption.
  rewrite length_firstn, length_skipn. unfold len in Hb. lia.
Qed.

Lemma len_slice l a b :
  0 <= a <= b -> b <= len l -> len (slice l a b) = b - a.
Proof.
  intros Ha Hb. unfold len at 1. rewrite length_slice by assumption. lia.
Qed.

(** The slice that covers exactly the middle part of a concatenation. *)
Lemma slice_app_mid pre g post :
  slice (pre ++ g ++ post) (len pre) (len pre + len g) = g.
Proof.
  rewrite slice_inside.
  - replace (Z.to_nat (len pre)) with (length pre) by (unfold len; lia).
    replace (Z.to_nat (len pre + len g - len pre)) with (length g)
      by (unfold len; lia).
    rewrite skipn_app, skipn_all, Nat.sub_diag. simpl.
    rewrite firstn_app, firstn_all, Nat.sub_diag. simpl.
    apply app_nil_r.
  - pose proof (len_nonneg pre). pose proof (len_nonneg g). lia.
  - rewrite !len_app. pose proof (len_nonneg post). lia.
Qed.

(** A slice that starts past the last full group is shorter than asked. *)
Lemma len_slice_short l a b :
  0 <= a < b -> len l < b -> len (slice l a b) < b - a.
Proof.
  intros Ha Hb. unfold slice, len in *.
  rewrite length_firstn, length_skipn.
  unfold clamp.
  destruct (Z.ltb_spec a 0); [lia|].
  destruct (Z.ltb_spec b 0); lia.
Qed.

(** [l[:-k]] drops the last [k] elements. *)
Lemma slice_drop_last l t :
  t <> [] -> slice (l ++ t) 0 (- len t) = l.
Proof.
  intros Ht. unfold slice.
  assert (0 < len t) by (destruct t; [congruence | rewrite len_cons; pose proof (len_nonneg t); lia]).
  pose proof (len_nonneg l).
  unfold clamp. rewrite len_app.
  destruct (Z.ltb_spec 0 0); [lia|].
  destruct (Z.ltb_spec (- len t) 0); [|lia].
  replace (Z.to_nat (Z.max (- len t + (len l + len t)) 0 - Z.min 0 (len l + len t)))
    with (length l) by (unfold len in *; lia).
  replace (Z.to_nat (Z.min 0 (len l + len t))) with 0%nat by lia.
  simpl. rewrite firstn_app, firstn_all, Nat.sub_diag. simpl.
  apply app_nil_r.
Qed.

End SliceFacts.

Section RangeFacts.

Lemma range_from_length n s st : length (range_from n s st) = n.
Proof.
  revert s. induction n as [|n IH]; intros s; simpl; [reflexivity|].
  now rewrite IH.
Qed.

Lemma In_range_from n s st i :
  In i (range_from n s st) <-> exists k, (k < n)%nat /\ i = s + Z.of_nat k * st.
Proof.
  revert s. induction n as [|n IH]; intros s; simpl.
  - split; [tauto | intros [k [Hk _]]; lia].
  - rewrite IH. split.
    + intros [<- | [k [Hk ->]]].
      * exists 0%nat. split; lia.
      * exists (S k). split; lia.
    + intros [[|k] [Hk ->]].
      * left. lia.
      * right. exists k. split; lia.
Qed.

Lemma range_eq stop : range stop = range_from (Z.to_nat stop) 0 1.
Proof.
  unfold range, range3. f_equal.
  replace (stop - 0 + 1 - 1) with stop by lia.
  now rewrite Z.div_1_r.
Qed.

Lemma In_range stop i : In i (range stop) <-> 0 <= i < stop.
Proof.
  rewrite range_eq, In_range_from. split.
  - intros [k [Hk ->]]. lia.
  - intros H. exists (Z.to_nat i). split; lia.
Qed.

Lemma length_range stop : length (range stop) = Z.to_nat stop.
Proof. rewrite range_eq. apply range_from_length. Qed.

(** Number of 8-bit groups visited by [range(0, n, 8)]. *)
Lemma range3_groups (k : nat) (r : Z) :
  0 <= r ->
  range3 0 (8 * Z.of_nat k + r) 8
  = range_from (k + Z.to_nat ((r + 7) / 8)) 0 8.
Proof.
  intros Hr. unfold range3. f_equal.
  replace (8 * Z.of_nat k + r - 0 + 8 - 1) with ((r + 7) + Z.of_nat k * 8) by lia.
  rewrite Z.div_add by lia.
  assert (0 <= (r + 7) / 8) by (apply Z.div_pos; lia).
  lia.
Qed.

Lemma nth_map_range {A : Type} (f : Z -> A) n i d :
  0 <= i < n -> nth (Z.to_nat i) (map f (range n)) d = f i.
Proof.
  intros Hi. rewrite range_eq.
  assert (H : forall k s j, (j < k)%nat ->
            nth j (map f (range_from k s 1)) d = f (s + Z.of_nat j)).
  { induction k as [|k IH]; intros s j Hj; [lia|].
    destruct j as [|j]; cbn [range_from map nth].
    - f_equal. lia.
    - rewrite IH by lia. f_equal. lia. }
  rewrite H by lia. f_equal. lia.
Qed.

Lemma nth_error_map_range {A : Type} (f : Z -> A) n (k : nat) :
  (k < Z.to_nat n)%nat ->
  nth_error (map f (range n)) k = Some (f (Z.of_nat k)).
Proof.
  intros Hk. rewrite range_eq.
  assert (H : forall m s j, (j < m)%nat ->
            nth_error (map f (range_from m s 1)) j = Some (f (s + Z.of_nat j))).
  { induction m as [|m IH]; intros s j Hj; [lia|].
    destruct j as [|j]; cbn [range_from map nth_error].
    - do 2 f_equal. lia.
    - rewrite IH by lia. do 2 f_equal. lia. }
  rewrite H by lia. reflexivity.
Qed.

Lemma nth_error_map_range_2 {A : Type} (f : Z -> A) n :
  2 < n -> nth_error (map f (range n)) 2 = Some (f 2).
Proof. intros Hn. apply (nth_error_map_range f n 2). lia. Qed.

End RangeFacts.

Section BitStringFacts.

Lemma length_format_08b_ge n : (8 <= length (format_08b n))%nat.
Proof. unfold format_08b. rewrite length_app, repeat_length. lia. Qed.

(** On a byte value the numeral has exactly eight digits, and [int]
    reads it back. *)
Lemma format_08b_byte n :
  (n < 256)%N ->
  length (format_08b n) = 8%nat /\ int2 (format_08b n) = n.
Proof.
  intros H. destruct n as [|p]; [split; reflexivity|].
  do 8 (destruct p as [p|p|]; try (split; reflexivity)); lia.
Qed.

Lemma length_bin_pos p : length (bin_pos p) = Pos.size_nat p.
Proof.
  induction p as [p IH|p IH|]; simpl; [| |reflexivity];
    rewrite length_app, IH; simpl; lia.
Qed.

(** A code point above 255 takes more than eight digits. *)
Lemma format_08b_wide n :
  (256 <= n)%N -> (8 < length (format_08b n))%nat.
Proof.
  intros H. unfold format_08b. rewrite length_app, repeat_length.
  destruct n as [|p]; [lia|]. simpl bin. rewrite length_bin_pos.
  assert (8 < Pos.size_nat p)%nat; [|lia].
  destruct (Pos.eq_dec p 256) as [-> | Hne]; [simpl; lia|].
  assert (Hlt : (256 < p)%positive) by lia.
  apply Pos.size_nat_monotone in Hlt. simpl in Hlt. lia.
Qed.

Lemma length_flat_map_format_ge (s : str) :
  (8 * length s <= length (flat_map format_08b s))%nat.
Proof.
  induction s as [|c s IH]; simpl; [lia|].
  rewrite length_app. pose proof (length_format_08b_ge c). lia.
Qed.

Lemma length_flat_map_format_bytes (s : str) :
  Forall (fun c => (c < 256)%N) s ->
  length (flat_map format_08b s) = (8 * length s)%nat.
Proof.
  induction 1 as [|c s Hc _ IH]; simpl; [reflexivity|].
  rewrite length_app, IH. destruct (format_08b_byte c Hc) as [-> _]. lia.
Qed.

End BitStringFacts.

Section StrFacts.
Implicit Types s t u v : str.

Lemma str_eqb_eq s t : str_eqb s t = true <-> s = t.
Proof.
  revert t. induction s as [|a s IH]; intros [|b t]; simpl;
    try (split; congruence).
  rewrite andb_true_iff, N.eqb_eq, IH. split.
  - intros [-> ->]. reflexivity.
  - intros [= -> ->]. split; reflexivity.
Qed.

Lemma endswith_iff s t : endswith s t = true <-> exists u, s = u ++ t.
Proof.
  unfold endswith. rewrite andb_true_iff, Nat.leb_le, str_eqb_eq. split.
  - intros [Hle Heq]. exists (firstn (length s - length t) s).
    set (k := (length s - length t)%nat) in *.
    rewrite <- Heq. symmetry. apply firstn_skipn.
  - intros [u ->]. rewrite length_app. split; [lia|].
    replace (length u + length t - length t)%nat with (length u) by lia.
    rewrite skipn_app, skipn_all, Nat.sub_diag. reflexivity.
Qed.

Lemma startswith_iff s t : startswith s t = true <-> exists v, s = t ++ v.
Proof.
  revert s. induction t as [|b t IH]; intros s; simpl.
  - split; [intros _; exists s; reflexivity | destruct s; reflexivity].
  - destruct s as [|a s]; simpl.
    + split; [discriminate | intros [v Hv]; discriminate].
    + rewrite andb_true_iff, N.eqb_eq, IH. split.
      * intros [-> [v ->]]. exists v. reflexivity.
      * intros [v [= -> ->]]. split; [reflexivity | exists v; reflexivity].
Qed.

Lemma contains_iff s t :
  contains s t = true <-> exists u v, s = u ++ t ++ v.
Proof.
  induction s as [|a s IH]; cbn [contains].
  - rewrite orb_false_r, startswith_iff. split.
    + intros [v Hv]. exists [], v. exact Hv.
    + intros [u [v Huv]]. destruct u; [exists v; exact Huv | discriminate].
  - rewrite orb_true_iff, startswith_iff, IH. split.
    + intros [[v Hv] | [u [v Huv]]].
      * exists [], v. exact Hv.
      * exists (a :: u), v. simpl. now rewrite Huv.
    + intros [[|b u] [v Huv]].
      * left. exists v. exact Huv.
      * right. injection Huv as _ Huv. exists u, v. exact Huv.
Qed.

Lemma contains_false_iff s t :
  contains s t = false <-> ~ exists u v, s = u ++ t ++ v.
Proof.
  rewrite <- contains_iff. destruct (contains s t); split; intros H.
  - discriminate.
  - exfalso. apply H. reflexivity.
  - discriminate.
  - reflexivity.
Qed.

(** A prefix that ends with [t] is an occurrence of [t]. *)
Lemma endswith_prefix_contains s v t :
  endswith s t = true -> contains (s ++ v) t = true.
Proof.
  rewrite endswith_iff, contains_iff. intros [u ->].
  exists u, v. now rewrite <- app_assoc.
Qed.

(** Appending one character creates an occurrence only at the end. *)
Lemma contains_snoc s c t :
  contains s t = false -> endswith (s ++ [c]) t = false ->
  contains (s ++ [c]) t = false.
Proof.
  intros Hs He. apply contains_false_iff. intros [u [v Huv]].
  destruct v as [|x v] using rev_ind.
  - rewrite app_nil_r in Huv.
    assert (endswith (s ++ [c]) t = true) by (apply endswith_iff; eauto).
    congruence.
  - clear IHv. rewrite !app_assoc in Huv. apply app_inj_tail in Huv.
    destruct Huv as [Huv _].
    apply contains_false_iff in Hs. apply Hs.
    exists u, v. now rewrite app_assoc.
Qed.

Lemma contains_prefix s v t :
  contains (s ++ v) t = false -> contains s t = false.
Proof.
  rewrite !contains_false_iff. intros H [u [w Hs]]. apply H.
  exists u, (w ++ v). rewrite Hs. now rewrite <- !app_assoc.
Qed.

End StrFacts.

(** Checking a decidable property on every integer of an interval. *)
Lemma forall_range_from (P : Z -> bool) (n : nat) (s : Z) :
  forallb P (range_from n s 1) = true ->
  forall z, s <= z < s + Z.of_nat n -> P z = true.
Proof.
  intros H z Hz. rewrite forallb_forall in H. apply H.
  apply In_range_from. exists (Z.to_nat (z - s)). split; lia.
Qed.

(* ===================================================================== *)
(** * Facts about the numpy layer *)
(* ===================================================================== *)

Section NpFacts.

Lemma view_uint16_range z : 0 <= view_uint16 z < 65536.
Proof. unfold view_uint16. apply Z.mod_pos_bound. lia. Qed.

Lemma view_int16_range u : is_int16 (view_int16 u).
Proof.
  unfold view_int16, is_int16.
  pose proof (Z.mod_pos_bound u 65536 ltac:(lia)).
  destruct (Z.ltb_spec (u mod 65536) 32768); lia.
Qed.

Lemma view_int16_id z : is_int16 z -> view_int16 z = z.
Proof.
  unfold view_int16, is_int16. intros H.
  destruct (Z.ltb_spec (z mod 65536) 32768) as [Hlt|Hge].
  - destruct (Z.le_gt_cases 0 z).
    + rewrite Z.mod_small; lia.
    + rewrite <- (Z.mod_add z 1 65536), Z.mod_small in Hlt; lia.
  - destruct (Z.le_gt_cases 0 z).
    + rewrite Z.mod_small in Hge; lia.
    + rewrite <- (Z.mod_add z 1 65536), Z.mod_small; lia.
Qed.

Lemma view_uint16_int16 u :
  0 <= u < 65536 -> view_uint16 (view_int16 u) = u.
Proof.
  unfold view_uint16, view_int16. intros H.
  rewrite (Z.mod_small u) by lia.
  destruct (Z.ltb_spec u 32768).
  - apply Z.mod_small. lia.
  - rewrite <- (Z.mod_add (u - 65536) 1 65536) by lia.
    rewrite Z.mod_small; lia.
Qed.

Lemma view_int16_uint16 z : is_int16 z -> view_int16 (view_uint16 z) = z.
Proof.
  intros H. unfold view_uint16, view_int16.
  rewrite Z.mod_mod by lia. apply (view_int16_id z H).
Qed.

Lemma int_clip_id z : is_int16 z -> int_clip (-32768) 32767 z = z.
Proof. unfold is_int16, int_clip. lia. Qed.

(** Every int16 value survives [astype(np.float32)] followed by
    [astype(np.int16)]: checked on all 65536 of them. *)
Lemma int16_float32_roundtrip z :
  is_int16 z -> f32_to_int16 (f32_of_Z z) = z.
Proof.
  intros H. apply Z.eqb_eq.
  apply (forall_range_from (fun z => f32_to_int16 (f32_of_Z z) =? z)
           (Z.to_nat 65536) (-32768)).
  - vm_compute. reflexivity.
  - unfold is_int16 in H. lia.
Qed.

(** Writing a bit into a 16-bit pattern: checked on all patterns. *)
Lemma embed_one u (b : bool) :
  0 <= u < 65536 ->
  let v := Z.lor (Z.land u 65534) (Z.b2z b) in
  0 <= v < 65536 /\ Z.shiftr v 1 = Z.shiftr u 1 /\ lsb v = b.
Proof.
  intros H v. subst v.
  pose (ok := fun (b : bool) (u : Z) =>
                let v := Z.lor (Z.land u 65534) (Z.b2z b) in
                (0 <=? v) && (v <? 65536) && (Z.shiftr v 1 =? Z.shiftr u 1)
                && Bool.eqb (lsb v) b).
  assert (Hok : ok b u = true).
  { destruct b.
    - apply (forall_range_from (ok true) (Z.to_nat 65536) 0);
        [vm_compute; reflexivity | lia].
    - apply (forall_range_from (ok false) (Z.to_nat 65536) 0);
        [vm_compute; reflexivity | lia]. }
  unfold ok in Hok. cbv zeta in Hok.
  rewrite !andb_true_iff in Hok.
  destruct Hok as [[[H1 H2] H3] H4].
  apply Z.leb_le in H1. apply Z.ltb_lt in H2. apply Z.eqb_eq in H3.
  apply Bool.eqb_prop in H4. auto.
Qed.

Lemma length_map2 {A B C : Type} (f : A -> B -> C) x y :
  length (map2 f x y) = Nat.min (length x) (length y).
Proof.
  revert y. induction x as [|a x IH]; intros [|b y]; simpl; auto.
Qed.

End NpFacts.

(* ===================================================================== *)
(** * LSB hiding: the embedding loop *)
(* ===================================================================== *)

Section LsbLoop.

Lemma firstn_length_app {A : Type} (done rest : list A) :
  firstn (length done) (done ++ rest) = done.
Proof. induction done as [|a done IH]; simpl; [destruct rest|]; congruence. Qed.

Lemma skipn_length_app {A : Type} (done rest : list A) :
  skipn (length done) (done ++ rest) = rest.
Proof. induction done as [|a done IH]; simpl; congruence. Qed.

Lemma getitem_app {A : Type} (done rest : list A) (x : A) :
  getitem (done ++ x :: rest) (len done) = Ret x.
Proof.
  unfold getitem, index. pose proof (len_nonneg done).
  rewrite len_app, len_cons. pose proof (len_nonneg rest).
  destruct (Z.ltb_spec (len done) 0); [lia|].
  destruct (Z.leb_spec 0 (len done)); [|lia].
  destruct (Z.ltb_spec (len done) (len done + (len rest + 1))); [|lia].
  simpl. replace (Z.to_nat (len done)) with (length done) by (unfold len; lia).
  rewrite nth_error_app2, Nat.sub_diag by lia. reflexivity.
Qed.

Lemma setitem_app {A : Type} (done rest : list A) (x v : A) :
  setitem (done ++ x :: rest) (len done) v = Ret (done ++ v :: rest).
Proof.
  unfold setitem, index. pose proof (len_nonneg done).
  rewrite len_app, len_cons. pose proof (len_nonneg rest).
  destruct (Z.ltb_spec (len done) 0); [lia|].
  destruct (Z.leb_spec 0 (len done)); [|lia].
  destruct (Z.ltb_spec (len done) (len done + (len rest + 1))); [|lia].
  cbn [andb]. replace (Z.to_nat (len done)) with (length done) by (unfold len; lia).
  rewrite firstn_length_app.
  replace (S (length done)) with (length (done ++ [x]))
    by (rewrite length_app; simpl; lia).
  replace (done ++ x :: rest) with ((done ++ [x]) ++ rest)
    by (rewrite <- app_assoc; reflexivity).
  rewrite skipn_length_app. reflexivity.
Qed.

Let lsb_body : Z * bool -> list Z -> result (ctl (list Z) Empty_set) :=
  fun '(i, b) flat =>
    x <- getitem flat i ;;
    flat' <- setitem flat i (Z.lor (Z.land x 65534) (Z.b2z b)) ;;
    Ret (Continue flat').

Lemma lsb_loop_from bits : forall done rest,
  (length bits <= length rest)%nat ->
  for_eachM lsb_body (combine (range_from (length bits) (len done) 1) bits)
            (done ++ rest)
  = Ret (inl (done ++ embed_bits bits rest)).
Proof.
  induction bits as [|b bits IH]; intros done rest Hlen.
  - reflexivity.
  - destruct rest as [|x rest]; [simpl in Hlen; lia|].
    cbn [length range_from combine for_eachM lsb_body].
    rewrite getitem_app. cbn [bind]. rewrite setitem_app. cbn [bind].
    replace (len done + 1) with (len (done ++ [Z.lor (Z.land x 65534) (Z.b2z b)]))
      by (rewrite len_app; reflexivity).
    replace (done ++ Z.lor (Z.land x 65534) (Z.b2z b) :: rest)
      with ((done ++ [Z.lor (Z.land x 65534) (Z.b2z b)]) ++ rest)
      by (rewrite <- app_assoc; reflexivity).
    rewrite IH by (simpl in Hlen; lia).
    rewrite <- app_assoc. reflexivity.
Qed.

Lemma lsb_loop bits flat :
  (length bits <= length flat)%nat ->
  for_eachM lsb_body (enumerate bits) flat = Ret (inl (embed_bits bits flat)).
Proof.
  intros Hlen. unfold enumerate. rewrite range_eq.
  replace (Z.to_nat (len bits)) with (length bits) by (unfold len; lia).
  apply (lsb_loop_from bits [] flat Hlen).
Qed.

Lemma length_embed_bits bits : forall flat,
  length (embed_bits bits flat) = length flat.
Proof.
  induction bits as [|b bits IH]; intros [|x flat]; simpl; auto.
Qed.

Lemma embed_bits_uint16 bits : forall flat,
  Forall is_uint16 flat -> Forall is_uint16 (embed_bits bits flat).
Proof.
  induction bits as [|b bits IH]; intros flat H; [destruct flat; exact H|].
  destruct H as [|x flat Hx H]; simpl; constructor.
  - apply (embed_one x b Hx).
  - apply IH, H.
Qed.

(** The low bits of the result spell the message bits, then go on with
    the low bits of the untouched samples. *)
Lemma lsb_embed_bits bits : forall flat,
  Forall is_uint16 flat -> (length bits <= length flat)%nat ->
  map lsb (embed_bits bits flat) = bits ++ skipn (length bits) (map lsb flat).
Proof.
  induction bits as [|b bits IH]; intros flat H Hlen.
  - destruct flat; reflexivity.
  - destruct H as [|x flat Hx H]; [simpl in Hlen; lia|].
    simpl. f_equal.
    + apply (embed_one x b Hx).
    + apply IH; [exact H | simpl in Hlen; lia].
Qed.

Lemma nth_embed_bits_lt bits : forall flat i,
  (i < length bits)%nat -> (length bits <= length flat)%nat ->
  nth i (embed_bits bits flat) 0
  = Z.lor (Z.land (nth i flat 0) 65534) (Z.b2z (nth i bits false)).
Proof.
  induction bits as [|b bits IH]; intros flat i Hi Hlen; [simpl in Hi; lia|].
  destruct flat as [|x flat]; [simpl in Hlen; lia|].
  destruct i as [|i]; simpl; [reflexivity|].
  apply IH; simpl in *; lia.
Qed.

Lemma nth_embed_bits_ge bits : forall flat i,
  (length bits <= i)%nat ->
  nth i (embed_bits bits flat) 0 = nth i flat 0.
Proof.
  induction bits as [|b bits IH]; intros flat i Hi;
    [destruct flat; reflexivity|].
  destruct flat as [|x flat]; [reflexivity|].
  destruct i as [|i]; simpl in *; [lia|].
  apply IH. lia.
Qed.

Lemma Forall_uint16_view w : Forall is_uint16 (uint16_view w).
Proof.
  unfold uint16_view. apply Forall_forall. intros u Hu.
  apply in_map_iff in Hu. destruct Hu as [z [<- _]].
  apply view_uint16_range.
Qed.

Lemma read_int16 frames :
  Forall is_int16 frames ->
  map f32_to_int16 (map f32_of_Z frames) = frames.
Proof.
  induction 1 as [|z frames Hz _ IH]; simpl; [reflexivity|].
  now rewrite int16_float32_roundtrip, IH.
Qed.

(** [write_wav_bytes] on the int16 view of 16-bit patterns. *)
Lemma write_int16_view flat params :
  write_wav_bytes (Int16 (map view_int16 flat)) params
  = {| wav_params := params; wav_frames := map view_int16 flat |}.
Proof.
  unfold write_wav_bytes. f_equal.
  rewrite map_map. apply map_ext. intros u.
  pose proof (view_int16_range u) as Hu.
  now rewrite int_clip_id, view_int16_id.
Qed.

(** [encode_lsb] in closed form. *)
Lemma encode_lsb_eq audio message :
  wf_wav audio ->
  encode_lsb audio message
  = if len (message_bits message) >? len (wav_frames audio) then Ret None
    else Ret (Some {| wav_params := wav_params audio;
                      wav_frames :=
                        map view_int16
                            (embed_bits (message_bits message)
                                        (uint16_view audio)) |}).
Proof.
  intros Hwf. unfold encode_lsb, read_wav_bytes.
  rewrite read_int16 by exact Hwf.
  replace (len (map view_uint16 (wav_frames audio)))
    with (len (wav_frames audio)) by (unfold len; now rewrite length_map).
  destruct (Z.gtb_spec (len (message_bits message)) (len (wav_frames audio)))
    as [Hgt|Hle]; [reflexivity|].
  rewrite lsb_loop by (unfold len in Hle; rewrite length_map; lia).
  cbn [bind loop_state]. now rewrite write_int16_view.
Qed.

Lemma wf_wav_view_int16 params flat :
  wf_wav {| wav_params := params; wav_frames := map view_int16 flat |}.
Proof.
  unfold wf_wav. simpl. apply Forall_forall. intros z Hz.
  apply in_map_iff in Hz. destruct Hz as [u [<- _]].
  apply view_int16_range.
Qed.

(** [decode_lsb] reads the low bits of the 16-bit patterns. *)
Lemma decode_lsb_eq stego :
  wf_wav stego ->
  decode_lsb stego
  = decode_chars (fun char_val => (char_val =? 0)%N)
                 (map lsb (uint16_view stego)).
Proof.
  intros Hwf. unfold decode_lsb, read_wav_bytes.
  rewrite read_int16 by exact Hwf. reflexivity.
Qed.

Lemma uint16_view_of_view_int16 params flat :
  Forall is_uint16 flat ->
  uint16_view {| wav_params := params; wav_frames := map view_int16 flat |}
  = flat.
Proof.
  unfold uint16_view. simpl. induction 1 as [|u flat Hu _ IH]; simpl;
    [reflexivity|].
  now rewrite view_uint16_int16, IH.
Qed.

End LsbLoop.

(* ===================================================================== *)
(** * The character loop of the decoders *)
(* ===================================================================== *)

Section CharLoop.
Variable reject : N -> bool.

Lemma decode_chars_unfold bits :
  decode_chars reject bits
  = match for_each (char_step reject bits) (range3 0 (len bits) 8) [] with
    | inr r => r
    | inl _ => not_found
    end.
Proof. reflexivity. Qed.

(** One iteration on a full group of eight bits. *)
Lemma char_step_group bits pre g post chars :
  bits = pre ++ g ++ post -> length g = 8%nat ->
  char_step reject bits (len pre) chars
  = if reject (int2 g) then Break chars
    else if endswith (chars ++ [int2 g]) terminator
         then Return (slice (chars ++ [int2 g]) 0 (-3))
         else Continue (chars ++ [int2 g]).
Proof.
  intros -> Hg. unfold char_step.
  replace (len pre + 8) with (len pre + len g) by (unfold len; lia).
  rewrite slice_app_mid.
  replace (len g <? 8) with false
    by (symmetry; apply Z.ltb_ge; unfold len; lia).
  reflexivity.
Qed.

(** Accepted groups that do not complete the terminator are appended
    one by one. *)
Lemma run_groups gs : forall bits acc pre post n,
  bits = pre ++ concat gs ++ post ->
  Forall (fun g => length g = 8%nat) gs ->
  Forall (fun g => reject (int2 g) = false) gs ->
  contains (acc ++ map int2 gs) terminator = false ->
  for_each (char_step reject bits)
           (range_from (length gs + n) (len pre) 8) acc
  = for_each (char_step reject bits)
             (range_from n (len pre + 8 * len gs) 8) (acc ++ map int2 gs).
Proof.
  induction gs as [|g gs IH]; intros bits acc pre post n Hbits Hlen Hrej Hno.
  - simpl. rewrite app_nil_r. do 2 f_equal. unfold len. simpl. lia.
  - apply Forall_cons_iff in Hlen. destruct Hlen as [Hg Hlen'].
    apply Forall_cons_iff in Hrej. destruct Hrej as [Hr Hrej'].
    cbn [length Nat.add range_from for_each].
    rewrite (char_step_group bits pre g (concat gs ++ post) acc)
      by (rewrite ?Hbits; simpl; rewrite <- ?app_assoc; auto).
    rewrite Hr.
    assert (Hno' : contains ((acc ++ [int2 g]) ++ map int2 gs) terminator = false)
      by (rewrite <- app_assoc; exact Hno).
    destruct (endswith (acc ++ [int2 g]) terminator) eqn:He.
    { apply (endswith_prefix_contains _ (map int2 gs)) in He. congruence. }
    replace (len pre + 8) with (len (pre ++ g))
      by (rewrite len_app; unfold len; lia).
    rewrite (IH bits (acc ++ [int2 g]) (pre ++ g) post n); auto.
    + rewrite <- app_assoc. cbn [map app]. do 2 f_equal.
      rewrite len_app, len_cons. unfold len. lia.
    + rewrite Hbits. simpl. now rewrite <- !app_assoc.
Qed.

Lemma len_concat_groups (l : list (list bool)) :
  Forall (fun g => length g = 8%nat) l -> len (concat l) = 8 * len l.
Proof.
  induction 1 as [|x l Hx _ IHl]; [reflexivity|].
  cbn [concat]. rewrite len_app, len_cons, IHl. unfold len. lia.
Qed.

(** The same from the start of the bitstream. *)
Lemma run_groups_start gs bits post :
  bits = concat gs ++ post ->
  Forall (fun g => length g = 8%nat) gs ->
  Forall (fun g => reject (int2 g) = false) gs ->
  contains (map int2 gs) terminator = false ->
  for_each (char_step reject bits) (range3 0 (len bits) 8) []
  = for_each (char_step reject bits)
             (range_from (Z.to_nat ((len post + 7) / 8)) (len (concat gs)) 8)
             (map int2 gs).
Proof.
  intros Hbits Hlen Hrej Hno.
  pose proof (len_concat_groups gs Hlen) as Hc.
  replace (len bits) with (8 * Z.of_nat (length gs) + len post)
    by (rewrite Hbits, len_app, Hc; unfold len; lia).
  rewrite range3_groups by apply len_nonneg.
  rewrite (run_groups gs bits [] [] post); auto.
  rewrite Hc. reflexivity.
Qed.

Hypothesis accept_hash : reject 35%N = false.

(** The loop returns at the first point where the characters read so far
    end with the terminator, and yields what precedes it. *)
Lemma decode_chars_found gs t1 t2 t3 post :
  Forall (fun g => length g = 8%nat) (gs ++ [t1; t2; t3]) ->
  Forall (fun g => reject (int2 g) = false) gs ->
  map int2 [t1; t2; t3] = terminator ->
  contains (map int2 gs ++ [35; 35]%N) terminator = false ->
  decode_chars reject (concat gs ++ concat [t1; t2; t3] ++ post)
  = map int2 gs.
Proof.
  intros Hlen Hrej Ht Hno.
  injection Ht as Ht1 Ht2 Ht3.
  apply Forall_app in Hlen. destruct Hlen as [Hlen Hlt].
  inversion Hlt as [|? ? Hl1 Hlt1]; subst.
  inversion Hlt1 as [|? ? Hl2 Hlt2]; subst.
  inversion Hlt2 as [|? ? Hl3 _]; subst.
  assert (Hlen2 : Forall (fun g => length g = 8%nat) (gs ++ [t1; t2]))
    by (apply Forall_app; split; [exact Hlen | repeat constructor; assumption]).
  set (bits := concat gs ++ concat [t1; t2; t3] ++ post).
  assert (Hbits : bits = concat (gs ++ [t1; t2]) ++ (t3 ++ post)).
  { unfold bits. rewrite concat_app. simpl.
    rewrite <- !app_assoc. reflexivity. }
  rewrite decode_chars_unfold.
  rewrite (run_groups_start (gs ++ [t1; t2]) bits (t3 ++ post)); auto.
  - replace (Z.to_nat ((len (t3 ++ post) + 7) / 8))
      with (S (Z.to_nat ((len post + 7) / 8))).
    2:{ rewrite len_app. replace (len t3) with 8 by (unfold len; lia).
        replace (8 + len post + 7) with (len post + 7 + 1 * 8) by lia.
        rewrite Z.div_add by lia.
        assert (0 <= (len post + 7) / 8)
          by (apply Z.div_pos; pose proof (len_nonneg post); lia).
        lia. }
    cbn [range_from for_each].
    rewrite (char_step_group bits (concat (gs ++ [t1; t2])) t3 post);
      [|exact Hbits|exact Hl3].
    rewrite Ht3, accept_hash.
    rewrite map_app. cbn [map]. rewrite Ht1, Ht2.
    replace ((map int2 gs ++ [35%N; 35%N]) ++ [35%N])
      with (map int2 gs ++ terminator)
      by (rewrite <- app_assoc; reflexivity).
    replace (endswith (map int2 gs ++ terminator) terminator) with true
      by (symmetry; apply endswith_iff; eauto).
    change (-3) with (- len terminator).
    apply slice_drop_last. discriminate.
  - apply Forall_app. split; [exact Hrej|].
    repeat constructor; rewrite ?Ht1, ?Ht2; exact accept_hash.
  - rewrite map_app. cbn [map]. rewrite Ht1, Ht2. exact Hno.
Qed.

(** The loop stops at a rejected byte value; without a terminator before
    it the result is "No hidden message found". *)
Lemma decode_chars_rejected gs g post :
  Forall (fun g => length g = 8%nat) (gs ++ [g]) ->
  Forall (fun g => reject (int2 g) = false) gs ->
  reject (int2 g) = true ->
  contains (map int2 gs) terminator = false ->
  decode_chars reject (concat gs ++ g ++ post) = not_found.
Proof.
  intros Hlen Hrej Hg Hno.
  apply Forall_app in Hlen. destruct Hlen as [Hlen Hlg].
  inversion Hlg as [|? ? Hl _]; subst.
  set (bits := concat gs ++ g ++ post).
  rewrite decode_chars_unfold.
  rewrite (run_groups_start gs bits (g ++ post)); auto.
  replace (Z.to_nat ((len (g ++ post) + 7) / 8))
    with (S (Z.to_nat ((len post + 7) / 8))).
  2:{ rewrite len_app. replace (len g) with 8 by (unfold len; lia).
      replace (8 + len post + 7) with (len post + 7 + 1 * 8) by lia.
      rewrite Z.div_add by lia.
      assert (0 <= (len post + 7) / 8)
        by (apply Z.div_pos; pose proof (len_nonneg post); lia).
      lia. }
  cbn [range_from for_each].
  rewrite (char_step_group bits (concat gs) g post); auto.
  now rewrite Hg.
Qed.

End CharLoop.

(* ===================================================================== *)
(** * LSB hiding: encoder and decoder together *)
(* ===================================================================== *)

Section LsbCodec.

Lemma message_bits_app m :
  message_bits m
  = flat_map format_08b m ++ concat [format_08b 35; format_08b 35; format_08b 35].
Proof. unfold message_bits. rewrite flat_map_app. reflexivity. Qed.

Lemma len_message_bits_ge m : 8 * (len m + 3) <= len (message_bits m).
Proof.
  unfold message_bits, len.
  pose proof (length_flat_map_format_ge (m ++ terminator)) as H.
  rewrite length_app in H. simpl length in H. lia.
Qed.

Lemma len_message_bits m :
  is_byte_str m -> len (message_bits m) = 8 * (len m + 3).
Proof.
  intros Hm. unfold message_bits, len.
  rewrite length_flat_map_format_bytes.
  - rewrite length_app. simpl length. lia.
  - apply Forall_app. split; [exact Hm|].
    repeat constructor; reflexivity.
Qed.

Lemma groups_of_bytes cs :
  is_byte_str cs ->
  Forall (fun g => length g = 8%nat) (map format_08b cs)
  /\ map int2 (map format_08b cs) = cs
  /\ concat (map format_08b cs) = flat_map format_08b cs.
Proof.
  intros H. split; [|split].
  - apply Forall_map. eapply Forall_impl; [|exact H].
    intros c Hc. apply (format_08b_byte c Hc).
  - induction H as [|c cs Hc _ IH]; simpl; [reflexivity|].
    destruct (format_08b_byte c Hc) as [_ ->]. now rewrite IH.
  - symmetry. apply flat_map_concat_map.
Qed.

(** Encoding, then the bitstream the decoder sees. *)
Lemma lsb_pipeline audio m :
  wf_wav audio ->
  len (message_bits m) <= len (wav_frames audio) ->
  exists stego,
    encode_lsb audio m = Ret (Some stego)
    /\ wf_wav stego
    /\ wav_params stego = wav_params audio
    /\ uint16_view stego = embed_bits (message_bits m) (uint16_view audio)
    /\ decode_lsb stego
       = decode_chars reject_lsb
           (message_bits m
            ++ skipn (length (message_bits m)) (lsb_bits audio)).
Proof.
  intros Hwf Hcap. eexists. rewrite encode_lsb_eq by exact Hwf.
  destruct (Z.gtb_spec (len (message_bits m)) (len (wav_frames audio)));
    [lia|].
  split; [reflexivity|].
  assert (Hv : Forall is_uint16
                 (embed_bits (message_bits m) (uint16_view audio)))
    by apply embed_bits_uint16, Forall_uint16_view.
  split; [apply wf_wav_view_int16|].
  split; [reflexivity|].
  split; [apply uint16_view_of_view_int16, Hv|].
  rewrite decode_lsb_eq by apply wf_wav_view_int16.
  rewrite uint16_view_of_view_int16 by exact Hv.
  rewrite lsb_embed_bits; [reflexivity | apply Forall_uint16_view |].
  unfold uint16_view. rewrite length_map. unfold len in Hcap. lia.
Qed.

Lemma reject_lsb_accepts cs :
  is_byte_str cs -> no_nul cs ->
  Forall (fun g => reject_lsb (int2 g) = false) (map format_08b cs).
Proof.
  intros Hb Hn. apply Forall_map. unfold no_nul, is_byte_str in *.
  induction Hb as [|c cs Hc Hb IH]; constructor.
  - inversion Hn; subst. destruct (format_08b_byte c Hc) as [_ ->].
    unfold reject_lsb. apply N.eqb_neq. assumption.
  - apply IH. inversion Hn; assumption.
Qed.

(** What [decode_lsb] makes of an embedded text whose first terminator
    comes right after [pre]. *)
Lemma lsb_decode_first_terminator pre rest tail :
  is_byte_str pre -> no_nul pre ->
  contains (pre ++ [35; 35]%N) terminator = false ->
  decode_chars reject_lsb
    (flat_map format_08b (pre ++ terminator ++ rest) ++ tail) = pre.
Proof.
  intros Hb Hn Hno.
  destruct (groups_of_bytes pre Hb) as [Hlen [Hval Hcat]].
  rewrite !flat_map_app, <- Hcat, <- !app_assoc.
  change (flat_map format_08b terminator)
    with (concat [format_08b 35; format_08b 35; format_08b 35]).
  rewrite <- Hval at 2.
  apply decode_chars_found.
  - reflexivity.
  - apply Forall_app. split; [exact Hlen|]. repeat constructor.
  - apply reject_lsb_accepts; assumption.
  - reflexivity.
  - rewrite Hval. exact Hno.
Qed.

Lemma endswith_snoc (s t : str) c d :
  endswith (s ++ [c]) (t ++ [d]) = true -> endswith s t = true.
Proof.
  rewrite !endswith_iff. intros [u Hu]. exists u.
  rewrite app_assoc in Hu. apply app_inj_tail in Hu. tauto.
Qed.

Lemma endswith_weaken (s t : str) a :
  endswith s (a :: t) = true -> endswith s t = true.
Proof.
  rewrite !endswith_iff. intros [u ->]. exists (u ++ [a]).
  now rewrite <- app_assoc.
Qed.

(** A text without "###" that does not end in "#" cannot complete the
    terminator before its own end. *)
Lemma no_early_terminator m :
  contains m terminator = false -> endswith m [35%N] = false ->
  contains (m ++ [35; 35]%N) terminator = false.
Proof.
  intros Hc He.
  change [35; 35]%N with ([35] ++ [35])%N. rewrite app_assoc.
  apply contains_snoc; [apply contains_snoc; [exact Hc|]|].
  - destruct (endswith (m ++ [35%N]) terminator) eqn:E; [|reflexivity].
    change terminator with ([35; 35] ++ [35])%N in E.
    apply endswith_snoc, endswith_weaken in E. congruence.
  - destruct (endswith ((m ++ [35%N]) ++ [35%N]) terminator) eqn:E;
      [|reflexivity].
    change terminator with ([35; 35] ++ [35])%N in E.
    apply endswith_snoc in E.
    change [35; 35]%N with ([35] ++ [35])%N in E.
    apply endswith_snoc in E. congruence.
Qed.

End LsbCodec.

Lemma wf_silence n : wf_wav (silence n).
Proof.
  unfold wf_wav, silence. simpl. apply Forall_forall. intros z Hz.
  apply repeat_spec in Hz. subst. unfold is_int16. lia.
Qed.

(* ===================================================================== *)
(** * LSB hiding: the checked properties *)
(* ===================================================================== *)

(** C1 (as amended). LSB round trip: for every ASCII message [m] without
    NUL that neither contains "###" nor ends in "#", and every sample
    buffer with [8*(len(m)+3) <= number_of_samples], [encode_lsb] succeeds
    and [decode_lsb] of its result is exactly [m]. *)
Theorem lsb_round_trip audio m :
  wf_wav audio ->
  is_ascii_str m -> no_nul m ->
  contains m terminator = false -> endswith m (lit "#") = false ->
  8 * (len m + 3) <= len (wav_frames audio) ->
  exists stego,
    encode_lsb audio m = Ret (Some stego) /\ decode_lsb stego = m.
Proof.
  intros Hwf Hascii Hnul Hc He Hcap.
  assert (Hb : is_byte_str m).
  { eapply Forall_impl; [|exact Hascii]. simpl. intros c Hc'. lia. }
  destruct (lsb_pipeline audio m Hwf) as (stego & Henc & _ & _ & _ & Hdec).
  { rewrite len_message_bits by exact Hb. exact Hcap. }
  exists stego. split; [exact Henc|]. rewrite Hdec.
  unfold message_bits.
  replace (m ++ terminator) with (m ++ terminator ++ []) by now rewrite app_nil_r.
  apply lsb_decode_first_terminator; auto.
  apply no_early_terminator; assumption.
Qed.

Lemma lsb_round_trip_witness :
  exists stego,
    encode_lsb (silence 40) (lit "HI") = Ret (Some stego)
    /\ decode_lsb stego = lit "HI".
Proof.
  apply (lsb_round_trip (silence 40) (lit "HI")).
  - apply wf_silence.
  - repeat constructor.
  - repeat constructor; discriminate.
  - reflexivity.
  - reflexivity.
  - vm_compute. discriminate.
Defined.

(** C1 (as stated) fails: the one-character ASCII message "#" fits a
    32-sample buffer, is encoded, and decodes to the empty string; the
    ASCII message 'H', NUL, 'I' fits a 48-sample buffer, is encoded, and
    decodes to "No hidden message found". *)
Lemma lsb_round_trip_counterexample :
  (is_ascii_str (lit "#")
   /\ 8 * (len (lit "#") + 3) <= len (wav_frames (silence 32))
   /\ exists stego,
        encode_lsb (silence 32) (lit "#") = Ret (Some stego)
        /\ decode_lsb stego = lit ""
        /\ decode_lsb stego <> lit "#")
  /\ (is_ascii_str [72; 0; 73]%N
      /\ 8 * (len [72; 0; 73]%N + 3) <= len (wav_frames (silence 48))
      /\ exists stego,
           encode_lsb (silence 48) [72; 0; 73]%N = Ret (Some stego)
           /\ decode_lsb stego = not_found
           /\ decode_lsb stego <> [72; 0; 73]%N).
Proof.
  split.
  - split; [repeat constructor|].
    split; [vm_compute; discriminate|].
    eexists. split; [vm_compute; reflexivity|].
    split; [vm_compute; reflexivity | vm_compute; discriminate].
  - split; [repeat constructor|].
    split; [vm_compute; discriminate|].
    eexists. split; [vm_compute; reflexivity|].
    split; [vm_compute; reflexivity | vm_compute; discriminate].
Qed.

(** C2 (as amended). First-occurrence detection: when the message is
    [pre ++ "###" ++ post], [pre] has no NUL and this is the first place
    where "###" occurs, decoding the encoded message returns [pre], the
    text before that first occurrence. *)
Theorem lsb_terminator_first_occurrence audio pre post :
  wf_wav audio ->
  is_byte_str pre -> no_nul pre ->
  contains (pre ++ lit "##") terminator = false ->
  len (message_bits (pre ++ lit "###" ++ post)) <= len (wav_frames audio) ->
  exists stego,
    encode_lsb audio (pre ++ lit "###" ++ post) = Ret (Some stego)
    /\ decode_lsb stego = pre.
Proof.
  intros Hwf Hb Hnul Hno Hcap.
  destruct (lsb_pipeline audio _ Hwf Hcap) as (stego & Henc & _ & _ & _ & Hdec).
  exists stego. split; [exact Henc|]. rewrite Hdec.
  unfold message_bits. rewrite <- !app_assoc.
  apply lsb_decode_first_terminator; assumption.
Qed.

Lemma lsb_terminator_first_occurrence_witness :
  exists stego,
    encode_lsb (silence 64) (lit "a###b") = Ret (Some stego)
    /\ decode_lsb stego = lit "a".
Proof.
  apply (lsb_terminator_first_occurrence (silence 64) (lit "a") (lit "b")).
  - apply wf_silence.
  - repeat constructor.
  - repeat constructor; discriminate.
  - reflexivity.
  - vm_compute. discriminate.
Defined.

(** C2 (as stated) fails: "a###b" contains "###", is encoded with the
    trailing terminator appended, and decodes to "a". *)
Lemma lsb_terminator_counterexample :
  contains (lit "a###b") (lit "###") = true
  /\ exists stego,
       encode_lsb (silence 64) (lit "a###b") = Ret (Some stego)
       /\ decode_lsb stego = lit "a"
       /\ decode_lsb stego <> lit "a###b".
Proof.
  split; [reflexivity|].
  eexists. split; [vm_compute; reflexivity|].
  split; [vm_compute; reflexivity | vm_compute; discriminate].
Qed.

Section LsbMoreFacts.

(** [encode_lsb] on any stream: the capacity test, then the loop, which
    never indexes out of range. *)
Lemma encode_lsb_cases audio m :
  encode_lsb audio m
  = if len (message_bits m) >? len (wav_frames audio) then Ret None
    else Ret (Some (write_wav_bytes
                      (Int16 (map view_int16
                                (embed_bits (message_bits m)
                                   (map view_uint16
                                      (map f32_to_int16
                                         (map f32_of_Z (wav_frames audio)))))))
                      (wav_params audio))).
Proof.
  unfold encode_lsb, read_wav_bytes.
  replace (len (map view_uint16 (map f32_to_int16 (map f32_of_Z (wav_frames audio)))))
    with (len (wav_frames audio)) by (unfold len; now rewrite !length_map).
  destruct (Z.gtb_spec (len (message_bits m)) (len (wav_frames audio)))
    as [Hgt|Hle]; [reflexivity|].
  rewrite lsb_loop by (unfold len in Hle; rewrite !length_map; lia).
  reflexivity.
Qed.

(** Whatever the loop returns contains no terminator. *)
Lemma char_loop_no_terminator reject bits idxs : forall acc,
  contains acc terminator = false ->
  match for_each (char_step reject bits) idxs acc with
  | inl a => contains a terminator = false
  | inr r => contains r terminator = false
  end.
Proof.
  induction idxs as [|i idxs IH]; intros acc Hacc; [exact Hacc|].
  cbn [for_each]. unfold char_step at 1.
  destruct (len (slice bits i (i + 8)) <? 8); [exact Hacc|].
  destruct (reject (int2 (slice bits i (i + 8)))); [exact Hacc|].
  set (c := int2 (slice bits i (i + 8))).
  destruct (endswith (acc ++ [c]) terminator) eqn:He.
  - apply endswith_iff in He. destruct He as [u Hu].
    rewrite Hu. change (-3) with (- len terminator).
    rewrite slice_drop_last by discriminate.
    change terminator with ([35; 35] ++ [35])%N in Hu.
    rewrite app_assoc in Hu. apply app_inj_tail in Hu.
    destruct Hu as [Hu _]. rewrite Hu in Hacc.
    apply (contains_prefix u [35; 35]%N), Hacc.
  - apply IH. apply contains_snoc; assumption.
Qed.

End LsbMoreFacts.

(** C4. LSB capacity boundary: [encode_lsb] never raises; for a message of
    byte-valued characters it returns a stego stream whenever
    [8*(len(message)+3)] is at most the number of samples (equality
    included), and it returns [None] whenever [8*(len(message)+3)] exceeds
    the number of samples. *)
Theorem lsb_capacity_boundary audio m :
  (exists r, encode_lsb audio m = Ret r)
  /\ (is_byte_str m ->
      8 * (len m + 3) <= len (wav_frames audio) ->
      exists stego, encode_lsb audio m = Ret (Some stego))
  /\ (8 * (len m + 3) > len (wav_frames audio) ->
      encode_lsb audio m = Ret None).
Proof.
  rewrite encode_lsb_cases.
  destruct (Z.gtb_spec (len (message_bits m)) (len (wav_frames audio)))
    as [Hgt|Hle].
  - split; [eauto|]. split; [|reflexivity].
    intros Hb Hcap. rewrite len_message_bits in Hgt by exact Hb. lia.
  - split; [eauto|]. split; [eauto|].
    intros Hcap. pose proof (len_message_bits_ge m). lia.
Qed.

Lemma lsb_capacity_boundary_witness :
  (exists stego, encode_lsb (silence 40) (lit "HI") = Ret (Some stego))
  /\ encode_lsb (silence 39) (lit "HI") = Ret None.
Proof.
  split.
  - apply (lsb_capacity_boundary (silence 40) (lit "HI")).
    + repeat constructor.
    + vm_compute. discriminate.
  - apply (lsb_capacity_boundary (silence 39) (lit "HI")).
    vm_compute. reflexivity.
Defined.

(** C6. LSB frame effect: when [encode_lsb] accepts, the returned stream
    has the input's parameters and length; every sample below the framed
    bit length keeps its upper 15 bits (as an unsigned 16-bit pattern) and
    carries the message bit in its lowest bit; every sample from the
    framed bit length on is the input sample. *)
Theorem lsb_frame_effect audio m stego :
  wf_wav audio ->
  encode_lsb audio m = Ret (Some stego) ->
  let bits := message_bits m in
  wav_params stego = wav_params audio
  /\ length (wav_frames stego) = length (wav_frames audio)
  /\ (forall i, (i < length bits)%nat ->
        Z.shiftr (view_uint16 (nth i (wav_frames stego) 0)) 1
        = Z.shiftr (view_uint16 (nth i (wav_frames audio) 0)) 1
        /\ lsb (view_uint16 (nth i (wav_frames stego) 0)) = nth i bits false)
  /\ (forall i, (length bits <= i)%nat ->
        nth i (wav_frames stego) 0 = nth i (wav_frames audio) 0).
Proof.
  intros Hwf Henc bits. subst bits.
  rewrite encode_lsb_eq in Henc by exact Hwf.
  destruct (Z.gtb_spec (len (message_bits m)) (len (wav_frames audio)))
    as [Hgt|Hle]; [discriminate|].
  injection Henc as <-. cbn [wav_params wav_frames].
  assert (Hlen : (length (message_bits m) <= length (uint16_view audio))%nat)
    by (unfold uint16_view; rewrite length_map; unfold len in Hle; lia).
  assert (Hnth : forall i l, nth i (map view_int16 l) 0 = view_int16 (nth i l 0)).
  { intros i l. change 0 with (view_int16 0) at 1. apply map_nth. }
  assert (Hnthu : forall i, nth i (uint16_view audio) 0
                            = view_uint16 (nth i (wav_frames audio) 0)).
  { intros i. unfold uint16_view. change 0 with (view_uint16 0) at 1.
    apply map_nth. }
  split; [reflexivity|].
  split; [rewrite length_map, length_embed_bits; unfold uint16_view;
          apply length_map|].
  split.
  - intros i Hi. rewrite Hnth.
    rewrite nth_embed_bits_lt by assumption. rewrite Hnthu.
    pose proof (view_uint16_range (nth i (wav_frames audio) 0)) as Hr.
    destruct (embed_one _ (nth i (message_bits m) false) Hr) as (Hv & Hs & Hb).
    rewrite view_uint16_int16 by exact Hv. split; assumption.
  - intros i Hi. rewrite Hnth, nth_embed_bits_ge by exact Hi.
    rewrite Hnthu.
    destruct (Nat.lt_ge_cases i (length (wav_frames audio))) as [Hlt|Hge].
    + apply view_int16_uint16.
      unfold wf_wav in Hwf. rewrite Forall_forall in Hwf.
      apply Hwf, nth_In, Hlt.
    + rewrite nth_overflow by exact Hge. reflexivity.
Qed.

Lemma lsb_frame_effect_witness :
  wav_params lsb_example_stego = wav_params (silence 24)
  /\ length (wav_frames lsb_example_stego) = length (wav_frames (silence 24))
  /\ (forall i, (i < length (message_bits (lit "")))%nat ->
        Z.shiftr (view_uint16 (nth i (wav_frames lsb_example_stego) 0)) 1
        = Z.shiftr (view_uint16 (nth i (wav_frames (silence 24)) 0)) 1
        /\ lsb (view_uint16 (nth i (wav_frames lsb_example_stego) 0))
           = nth i (message_bits (lit "")) false)
  /\ (forall i, (length (message_bits (lit "")) <= i)%nat ->
        nth i (wav_frames lsb_example_stego) 0
        = nth i (wav_frames (silence 24)) 0).
Proof.
  apply (lsb_frame_effect (silence 24) (lit "") lsb_example_stego).
  - apply wf_silence.
  - vm_compute. reflexivity.
Defined.

(** C10. Whenever [decode_lsb] returns something other than
    "No hidden message found", the returned string does not contain
    "###". *)
Theorem decode_lsb_output_has_no_terminator stego :
  decode_lsb stego <> not_found ->
  contains (decode_lsb stego) (lit "###") = false.
Proof.
  intros _. unfold decode_lsb, read_wav_bytes.
  rewrite decode_chars_unfold.
  match goal with
  | |- context [for_each ?body ?idxs ?acc] =>
      pose proof (char_loop_no_terminator
                    (fun char_val => (char_val =? 0)%N)
                    (map (fun s => Z.land s 1 =? 1)
                       (map view_uint16
                          (map f32_to_int16 (map f32_of_Z (wav_frames stego)))))
                    idxs [] eq_refl) as H;
      destruct (for_each body idxs acc)
  end.
  - reflexivity.
  - exact H.
Qed.

Lemma decode_lsb_output_has_no_terminator_witness :
  contains (decode_lsb lsb_example_stego) (lit "###") = false.
Proof.
  apply (decode_lsb_output_has_no_terminator lsb_example_stego).
  vm_compute. discriminate.
Defined.

(* ===================================================================== *)
(** * Echo hiding: the encoder *)
(* ===================================================================== *)

Lemma length_add_echo samples a out start delay :
  0 <= start -> 0 <= delay ->
  start + chunk_size <= len samples ->
  start + delay + chunk_size <= len out ->
  length (add_echo a samples out start delay) = length out.
Proof.
  intros Hs Hd Hin Hout. unfold add_echo, len, chunk_size in *.
  rewrite !length_app, length_map2, length_map, !length_firstn, !length_skipn.
  lia.
Qed.

Section EchoEncode.
Variables (alpha : spec_float) (samples : list f32) (d0 d1 : Z).
Hypothesis d0_nonneg : 0 <= d0.
Hypothesis d1_nonneg : 0 <= d1.

Let max_delay := Z.max d0 d1.

Let echo_body : Z * bool -> list f32 -> result (ctl (list f32) Empty_set) :=
  fun '(i, bit) out =>
    let start := i * chunk_size in
    let end_ := Z.min (start + chunk_size) (len samples - max_delay) in
    if end_ <=? start then Ret (Break out)
    else
      let delay := if bit : bool then d1 else d0 in
      let chunk := slice samples start end_ in
      let echo_start := start + delay in
      let echo_end := echo_start + len chunk in
      if echo_end <=? len out then
        out' <- slice_iadd f32_add out echo_start echo_end
                  (map (f32_mul (f32_of_f64 alpha)) chunk) ;;
        Ret (Continue out')
      else Ret (Continue out).

(** One iteration inside the capacity: no [break], no exception. *)
Lemma echo_body_step i (bit : bool) out :
  0 <= i ->
  (i + 1) * chunk_size + max_delay <= len samples ->
  len out = len samples ->
  echo_body (i, bit) out
  = Ret (Continue (add_echo (f32_of_f64 alpha) samples out (i * chunk_size)
                            (if bit then d1 else d0))).
Proof.
  intros Hi Hcap Hlen. unfold echo_body.
  set (delay := if bit then d1 else d0).
  assert (Hd : 0 <= delay <= max_delay)
    by (unfold delay, max_delay; destruct bit; lia).
  unfold chunk_size in *.
  replace (Z.min (i * 8192 + 8192) (len samples - max_delay))
    with (i * 8192 + 8192) by lia.
  destruct (Z.leb_spec (i * 8192 + 8192) (i * 8192)); [lia|].
  rewrite len_slice by lia.
  replace (i * 8192 + 8192 - i * 8192) with 8192 by lia.
  destruct (Z.leb_spec (i * 8192 + delay + 8192) (len out)); [|lia].
  unfold slice_iadd.
  rewrite length_map, !length_slice by lia.
  replace (Z.to_nat (i * 8192 + 8192 - i * 8192)) with (Z.to_nat 8192) by lia.
  replace (Z.to_nat (i * 8192 + delay + 8192 - (i * 8192 + delay)))
    with (Z.to_nat 8192) by lia.
  rewrite Nat.eqb_refl. cbn [bind]. do 2 f_equal.
  unfold add_echo, chunk_size.
  rewrite !slice_inside by lia. rewrite clamp_inside by lia.
  replace (Z.to_nat (i * 8192 + 8192 - i * 8192)) with (Z.to_nat 8192) by lia.
  replace (Z.to_nat (i * 8192 + delay + 8192 - (i * 8192 + delay)))
    with (Z.to_nat 8192) by lia.
  reflexivity.
Qed.

Lemma echo_loop_from bits : forall k out,
  0 <= k ->
  (k + len bits) * chunk_size + max_delay <= len samples ->
  len out = len samples ->
  for_eachM echo_body (combine (range_from (length bits) k 1) bits) out
  = Ret (inl (echo_loop (f32_of_f64 alpha) samples d0 d1
                        (combine (range_from (length bits) k 1) bits) out))
  /\ len (echo_loop (f32_of_f64 alpha) samples d0 d1
                    (combine (range_from (length bits) k 1) bits) out)
     = len samples.
Proof.
  induction bits as [|b bits IH]; intros k out Hk Hcap Hlen.
  - split; [reflexivity | exact Hlen].
  - rewrite len_cons in Hcap. pose proof (len_nonneg bits) as Hb.
    cbn [length range_from combine for_eachM echo_loop fold_left].
    assert (Hcap1 : (k + 1) * chunk_size + max_delay <= len samples)
      by (unfold chunk_size in *; nia).
    rewrite echo_body_step by assumption.
    assert (Hd : 0 <= (if b then d1 else d0) <= max_delay)
      by (unfold max_delay; destruct b; lia).
    apply IH; [lia | unfold chunk_size in *; lia |].
    unfold len. rewrite length_add_echo; unfold chunk_size in *; try lia.
    exact Hlen.
Qed.

Lemma echo_encode_loop bits :
  len bits * chunk_size + max_delay <= len samples ->
  for_eachM echo_body (enumerate bits) samples
  = Ret (inl (echo_loop (f32_of_f64 alpha) samples d0 d1 (enumerate bits)
                        samples))
  /\ len (echo_loop (f32_of_f64 alpha) samples d0 d1 (enumerate bits) samples)
     = len samples.
Proof.
  intros Hcap. unfold enumerate. rewrite range_eq.
  replace (Z.to_nat (len bits)) with (length bits) by (unfold len; lia).
  apply echo_loop_from; [lia | lia | reflexivity].
Qed.

End EchoEncode.

(** [encode_echo_simple] in closed form, for delays that are not
    negative. *)
Lemma encode_echo_eq audio m d0 d1 alpha :
  0 <= d0 -> 0 <= d1 ->
  encode_echo_simple audio m d0 d1 alpha
  = if len (message_bits m) * chunk_size + Z.max d0 d1
       >? len (wav_frames audio)
    then Ret None
    else Ret (Some (write_wav_bytes
                      (Float32 (echo_loop (f32_of_f64 alpha)
                                  (map f32_of_Z (wav_frames audio)) d0 d1
                                  (enumerate (message_bits m))
                                  (map f32_of_Z (wav_frames audio))))
                      (wav_params audio))).
Proof.
  intros H0 H1. unfold encode_echo_simple, read_wav_bytes.
  replace (len (map f32_of_Z (wav_frames audio)))
    with (len (wav_frames audio)) by (unfold len; now rewrite length_map).
  destruct (Z.gtb_spec (len (message_bits m) * chunk_size + Z.max d0 d1)
                       (len (wav_frames audio))) as [Hgt|Hle];
    [reflexivity|].
  destruct (echo_encode_loop alpha (map f32_of_Z (wav_frames audio)) d0 d1
              H0 H1 (message_bits m)) as [Hloop _].
  { unfold len in *. rewrite length_map. exact Hle. }
  unfold len in *. rewrite length_map in Hloop.
  rewrite Hloop. reflexivity.
Qed.

Lemma nth_map2 {A B C : Type} (f : A -> B -> C) x y j da db dc :
  (j < length x)%nat -> (j < length y)%nat ->
  nth j (map2 f x y) dc = f (nth j x da) (nth j y db).
Proof.
  revert y j. induction x as [|a x IH]; intros [|b y] [|j] Hx Hy;
    simpl in *; try lia; [reflexivity|].
  apply IH; lia.
Qed.

Lemma enumerate_bounds {A : Type} (l : list A) :
  Forall (fun ib => 0 <= fst ib < len l) (enumerate l).
Proof.
  apply Forall_forall. intros [i b] Hin. cbn [fst].
  apply in_combine_l in Hin. apply In_range in Hin. exact Hin.
Qed.

Section EchoPointwise.
Variables (alpha : f32) (samples : list f32) (d0 d1 : Z).
Hypothesis d0_nonneg : 0 <= d0.
Hypothesis d1_nonneg : 0 <= d1.

Lemma sample_at_add_echo out start delay j :
  0 <= start -> 0 <= delay -> 0 <= j ->
  start + chunk_size <= len samples ->
  start + delay + chunk_size <= len out ->
  sample_at (add_echo alpha samples out start delay) j
  = if (start + delay <=? j) && (j <? start + delay + chunk_size)
    then f32_add (sample_at out j)
                 (f32_mul alpha (sample_at samples (j - delay)))
    else sample_at out j.
Proof.
  intros Hs Hd Hj Hin Hout. unfold sample_at, add_echo, len, chunk_size in *.
  set (a := Z.to_nat (start + delay)). set (n := Z.to_nat 8192).
  set (jn := Z.to_nat j).
  destruct (Z.leb_spec (start + delay) j) as [Hge|Hlt]; cbn [andb].
  - destruct (Z.ltb_spec j (start + delay + 8192)) as [Hlt|Hge'].
    + rewrite app_nth2 by (rewrite length_firstn; lia).
      rewrite length_firstn.
      replace (Nat.min a (length out)) with a by lia.
      rewrite app_nth1
        by (rewrite length_map2, length_map, !length_firstn, !length_skipn; lia).
      rewrite (nth_map2 _ _ _ _ fzero fzero)
        by (rewrite ?length_map, !length_firstn, !length_skipn; lia).
      rewrite nth_firstn, nth_skipn.
      replace (jn - a <? n)%nat with true by (symmetry; apply Nat.ltb_lt; lia).
      replace (a + (jn - a))%nat with jn by lia.
      rewrite (nth_indep
                 (map (f32_mul alpha) (firstn n (skipn (Z.to_nat start) samples)))
                 fzero (f32_mul alpha fzero))
        by (rewrite length_map, length_firstn, length_skipn; lia).
      rewrite map_nth, nth_firstn, nth_skipn.
      replace (jn - a <? n)%nat with true by (symmetry; apply Nat.ltb_lt; lia).
      replace (Z.to_nat start + (jn - a))%nat with (Z.to_nat (j - delay)) by lia.
      reflexivity.
    + rewrite app_nth2 by (rewrite length_firstn; lia).
      rewrite length_firstn.
      replace (Nat.min a (length out)) with a by lia.
      rewrite app_nth2
        by (rewrite length_map2, length_map, !length_firstn, !length_skipn; lia).
      rewrite length_map2, length_map, !length_firstn, !length_skipn.
      rewrite nth_skipn. f_equal. lia.
  - rewrite app_nth1 by (rewrite length_firstn; lia).
    rewrite nth_firstn.
    replace (jn <? a)%nat with true by (symmetry; apply Nat.ltb_lt; lia).
    reflexivity.
Qed.

(** Pointwise reading of the loop result. *)
Lemma sample_at_echo_loop ibits : forall out j,
  Forall (fun ib => 0 <= fst ib
                    /\ (fst ib + 1) * chunk_size + Z.max d0 d1 <= len samples)
         ibits ->
  len out = len samples -> 0 <= j ->
  sample_at (echo_loop alpha samples d0 d1 ibits out) j
  = echo_spec alpha samples d0 d1 ibits j (sample_at out j).
Proof.
  induction ibits as [|[i b] ibits IH]; intros out j Hall Hlen Hj;
    [reflexivity|].
  apply Forall_cons_iff in Hall. destruct Hall as [[Hi Hcap] Hall].
  cbn [fst] in Hi, Hcap. cbn [echo_loop echo_spec fold_left].
  assert (Hd : 0 <= (if b then d1 else d0) <= Z.max d0 d1)
    by (destruct b; lia).
  fold (echo_loop alpha samples d0 d1 ibits
          (add_echo alpha samples out (i * chunk_size) (if b then d1 else d0))).
  rewrite IH; [|exact Hall| |exact Hj].
  - rewrite sample_at_add_echo; unfold chunk_size in *; try lia.
    reflexivity.
  - unfold len.
    rewrite (length_add_echo samples alpha out (i * chunk_size)
               (if b then d1 else d0));
      unfold chunk_size in *; try lia.
    exact Hlen.
Qed.

(** Past the last shifted window nothing is added. *)
Lemma echo_spec_beyond ibits j x :
  Forall (fun ib => (fst ib + 1) * chunk_size + Z.max d0 d1 <= j) ibits ->
  echo_spec alpha samples d0 d1 ibits j x = x.
Proof.
  revert x. induction ibits as [|[i b] ibits IH]; intros x Hall;
    [reflexivity|].
  apply Forall_cons_iff in Hall. destruct Hall as [Hi Hall].
  cbn [fst] in Hi. cbn [echo_spec fold_left].
  replace (j <? i * chunk_size + (if b then d1 else d0) + chunk_size)
    with false
    by (symmetry; apply Z.ltb_ge; unfold chunk_size in *; destruct b; lia).
  rewrite andb_false_r. apply IH, Hall.
Qed.

End EchoPointwise.

(** Every int16 value survives the float32 round trip of the echo path:
    [astype(np.float32)], [np.clip], [np.int16].  Checked on all 65536. *)
Lemma quantize_int16 z : is_int16 z -> quantize (f32_of_Z z) = z.
Proof.
  intros H. apply Z.eqb_eq.
  apply (forall_range_from (fun z => quantize (f32_of_Z z) =? z)
           (Z.to_nat 65536) (-32768)).
  - vm_compute. reflexivity.
  - unfold is_int16 in H. lia.
Qed.

Lemma sample_at_eq l j : sample_at l j = nth (Z.to_nat j) l fzero.
Proof. reflexivity. Qed.

(** The frames [encode_echo_simple] writes, one by one. *)
Lemma encode_echo_frames audio m d0 d1 alpha :
  0 <= d0 -> 0 <= d1 ->
  len (message_bits m) * chunk_size + Z.max d0 d1 <= len (wav_frames audio) ->
  exists stego,
    encode_echo_simple audio m d0 d1 alpha = Ret (Some stego)
    /\ wav_params stego = wav_params audio
    /\ forall j, 0 <= j < len (wav_frames audio) ->
         nth (Z.to_nat j) (wav_frames stego) 0
         = quantize (echo_spec (f32_of_f64 alpha)
                       (map f32_of_Z (wav_frames audio)) d0 d1
                       (enumerate (message_bits m)) j
                       (sample_at (map f32_of_Z (wav_frames audio)) j)).
Proof.
  intros H0 H1 Hcap. eexists.
  rewrite encode_echo_eq by assumption.
  destruct (Z.gtb_spec (len (message_bits m) * chunk_size + Z.max d0 d1)
                       (len (wav_frames audio))); [lia|].
  split; [reflexivity|]. split; [reflexivity|].
  intros j Hj. cbn [write_wav_bytes wav_frames].
  set (samples := map f32_of_Z (wav_frames audio)).
  assert (Hlen : len samples = len (wav_frames audio))
    by (unfold samples, len; now rewrite length_map).
  destruct (echo_encode_loop alpha samples d0 d1 H0 H1 (message_bits m))
    as [_ Hlo]; [rewrite Hlen; exact Hcap|].
  rewrite (nth_indep _ 0 (quantize fzero))
    by (rewrite length_map; unfold len in *; lia).
  change (fun x => f32_to_int16 (f32_clip (f32_of_Z (-32768)) (f32_of_Z 32767) x))
    with quantize.
  rewrite map_nth, <- sample_at_eq. f_equal.
  apply sample_at_echo_loop; [assumption | assumption | | reflexivity | lia].
  eapply Forall_impl; [|apply enumerate_bounds].
  intros [i b]. cbn [fst]. intros Hi. unfold chunk_size in *. lia.
Qed.

(** C5. Echo capacity: for a message of byte-valued characters,
    [encode_echo_simple] returns [None] exactly when
    [8*(len(message)+3) * 8192 + max(d0, d1) > number_of_samples]; with
    d0 = 200, d1 = 400, a 2-character message and 50000 samples the
    required length is 328080 and the result is [None]. *)
Theorem echo_capacity audio m d0 d1 alpha :
  is_byte_str m ->
  (encode_echo_simple audio m d0 d1 alpha = Ret None
   <-> 8 * (len m + 3) * 8192 + Z.max d0 d1 > len (wav_frames audio))
  /\ (d0 = 200 -> d1 = 400 -> len m = 2 -> len (wav_frames audio) = 50000 ->
      8 * (len m + 3) * 8192 + Z.max d0 d1 = 328080
      /\ encode_echo_simple audio m d0 d1 alpha = Ret None).
Proof.
  intros Hb.
  assert (Hiff : encode_echo_simple audio m d0 d1 alpha = Ret None
                 <-> 8 * (len m + 3) * 8192 + Z.max d0 d1
                     > len (wav_frames audio)).
  { unfold encode_echo_simple, read_wav_bytes.
    replace (len (map f32_of_Z (wav_frames audio)))
      with (len (wav_frames audio)) by (unfold len; now rewrite length_map).
    rewrite len_message_bits by exact Hb. unfold chunk_size.
    destruct (Z.gtb_spec (8 * (len m + 3) * 8192 + Z.max d0 d1)
                         (len (wav_frames audio))) as [Hgt|Hle].
    - split; [lia | reflexivity].
    - split; [|lia]. intros H. exfalso.
      match type of H with
      | bind ?loop _ = _ => destruct loop; discriminate H
      end. }
  split; [exact Hiff|].
  intros -> -> Hm Hn. split; [rewrite Hm; reflexivity|].
  apply Hiff. rewrite Hm, Hn. reflexivity.
Qed.

Lemma echo_capacity_witness :
  8 * (len (lit "HI") + 3) * 8192 + Z.max 200 400 = 328080
  /\ encode_echo_simple (silence 50000) (lit "HI") 200 400 alpha_half = Ret None.
Proof.
  apply (echo_capacity (silence 50000) (lit "HI") 200 400 alpha_half).
  - repeat constructor.
  - reflexivity.
  - reflexivity.
  - reflexivity.
  - vm_compute. reflexivity.
Defined.

(** C7 (as amended). Echo encode effect: when the message fits
    ([len(bits)*8192 + max(d0,d1) <= number_of_samples], delays not
    negative) [encode_echo_simple] returns a stream with the input's
    parameters whose samples are [out] clipped to the signed 16-bit range
    and converted, where [out[j]] is the input sample plus, for each bit
    index [i] whose window shifted by its delay (d1 for a 1 bit, d0
    otherwise) contains [j], [alpha] times the window's sample [j - delay]:
    no window is clipped and no chunk is dropped.  Samples at index
    [len(bits)*8192 + max(d0,d1)] or beyond are left unmodified. *)
Theorem echo_encode_effect audio m d0 d1 alpha :
  0 <= d0 -> 0 <= d1 ->
  len (message_bits m) * chunk_size + Z.max d0 d1 <= len (wav_frames audio) ->
  let samples := map f32_of_Z (wav_frames audio) in
  let bits := message_bits m in
  exists out,
    encode_echo_simple audio m d0 d1 alpha
    = Ret (Some {| wav_params := wav_params audio;
                   wav_frames := map quantize out |})
    /\ len out = len (wav_frames audio)
    /\ Forall is_int16 (map quantize out)
    /\ (forall j, 0 <= j ->
          sample_at out j
          = echo_spec (f32_of_f64 alpha) samples d0 d1 (enumerate bits) j
                      (sample_at samples j))
    /\ (forall j, len bits * chunk_size + Z.max d0 d1 <= j ->
          sample_at out j = sample_at samples j)
    /\ (wf_wav audio ->
        forall j, len bits * chunk_size + Z.max d0 d1 <= j ->
          nth (Z.to_nat j) (map quantize out) 0
          = nth (Z.to_nat j) (wav_frames audio) 0).
Proof.
  intros H0 H1 Hcap samples bits.
  assert (Hcapb : len bits * chunk_size + Z.max d0 d1 <= len (wav_frames audio))
    by exact Hcap.
  exists (echo_loop (f32_of_f64 alpha) samples d0 d1 (enumerate bits) samples).
  assert (Hlen : len samples = len (wav_frames audio))
    by (unfold samples, len; now rewrite length_map).
  destruct (echo_encode_loop alpha samples d0 d1 H0 H1 bits) as [_ Hlo];
    [rewrite Hlen; exact Hcap|].
  assert (Hall : Forall (fun ib : Z * bool =>
                           0 <= fst ib
                           /\ (fst ib + 1) * chunk_size + Z.max d0 d1
                              <= len samples) (enumerate bits)).
  { eapply Forall_impl; [|apply enumerate_bounds].
    intros [i b]. cbn [fst]. intros Hi. unfold chunk_size in *. lia. }
  assert (Hpt : forall j, 0 <= j ->
            sample_at (echo_loop (f32_of_f64 alpha) samples d0 d1
                                 (enumerate bits) samples) j
            = echo_spec (f32_of_f64 alpha) samples d0 d1 (enumerate bits) j
                        (sample_at samples j)).
  { intros j Hj. apply sample_at_echo_loop; auto. }
  assert (Hbeyond : forall j, len bits * chunk_size + Z.max d0 d1 <= j ->
            sample_at (echo_loop (f32_of_f64 alpha) samples d0 d1
                                 (enumerate bits) samples) j
            = sample_at samples j).
  { intros j Hj. pose proof (len_nonneg bits).
    rewrite Hpt by (unfold chunk_size in *; lia).
    apply echo_spec_beyond.
    eapply Forall_impl; [|apply enumerate_bounds].
    intros [i b]. cbn [fst]. intros Hi. unfold chunk_size in *. lia. }
  split.
  { rewrite encode_echo_eq by assumption.
    destruct (Z.gtb_spec (len (message_bits m) * chunk_size + Z.max d0 d1)
                         (len (wav_frames audio))); [lia|].
    reflexivity. }
  split; [rewrite Hlo; exact Hlen|].
  split.
  { apply Forall_forall. intros z Hz. apply in_map_iff in Hz.
    destruct Hz as [x [<- _]]. apply view_int16_range. }
  split; [exact Hpt|]. split; [exact Hbeyond|].
  intros Hwf j Hj.
  destruct (Z.lt_ge_cases j (len (wav_frames audio))) as [Hlt|Hge].
  - pose proof (len_nonneg bits).
    assert (Hjn : (Z.to_nat j < length (wav_frames audio))%nat)
      by (unfold len, chunk_size in *; lia).
    rewrite (nth_indep _ 0 (quantize fzero))
      by (rewrite length_map; unfold len in *; lia).
    rewrite map_nth. fold (sample_at
      (echo_loop (f32_of_f64 alpha) samples d0 d1 (enumerate bits) samples) j).
    rewrite Hbeyond by exact Hj.
    unfold sample_at, samples.
    rewrite (nth_indep _ fzero (f32_of_Z 0)) by (rewrite length_map; lia).
    rewrite map_nth. apply quantize_int16.
    unfold wf_wav in Hwf. rewrite Forall_forall in Hwf.
    apply Hwf, nth_In, Hjn.
  - rewrite !nth_overflow; [reflexivity | unfold len in *; lia |].
    rewrite length_map. unfold len in *. lia.
Qed.

Lemma echo_encode_effect_witness :
  let samples := map f32_of_Z (wav_frames click_audio) in
  let bits := message_bits (lit "") in
  exists out,
    encode_echo_simple click_audio (lit "") 200 400 alpha_half
    = Ret (Some {| wav_params := wav_params click_audio;
                   wav_frames := map quantize out |})
    /\ len out = len (wav_frames click_audio)
    /\ Forall is_int16 (map quantize out)
    /\ (forall j, 0 <= j ->
          sample_at out j
          = echo_spec (f32_of_f64 alpha_half) samples 200 400 (enumerate bits) j
                      (sample_at samples j))
    /\ (forall j, len bits * chunk_size + Z.max 200 400 <= j ->
          sample_at out j = sample_at samples j)
    /\ (wf_wav click_audio ->
        forall j, len bits * chunk_size + Z.max 200 400 <= j ->
          nth (Z.to_nat j) (map quantize out) 0
          = nth (Z.to_nat j) (wav_frames click_audio) 0).
Proof.
  apply (echo_encode_effect click_audio (lit "") 200 400 alpha_half).
  - lia.
  - lia.
  - vm_compute. discriminate.
Defined.

(** C7 (as stated) fails on its last part: with the empty message (24
    bits, chunks 0..23) the echo of chunk 23 lands in chunk 24.  Sample
    197007 = 24*8192 + 399 of [click_audio] is 0 in the input and 1 in the
    output. *)
Lemma echo_chunk_after_last_bit_modified :
  exists stego,
    encode_echo_simple click_audio (lit "") 200 400 alpha_half
    = Ret (Some stego)
    /\ len (message_bits (lit "")) * chunk_size <= 197007
       < len (wav_frames click_audio)
    /\ nth (Z.to_nat 197007) (wav_frames click_audio) 0 = 0
    /\ nth (Z.to_nat 197007) (wav_frames stego) 0 = 1.
Proof.
  destruct (encode_echo_frames click_audio (lit "") 200 400 alpha_half)
    as (stego & Henc & _ & Hfr); [lia | lia | vm_compute; discriminate|].
  exists stego. split; [exact Henc|].
  split; [vm_compute; split; [discriminate | reflexivity]|].
  split; [vm_compute; reflexivity|].
  rewrite Hfr by (vm_compute; split; [discriminate | reflexivity]).
  vm_compute. reflexivity.
Qed.

(* ===================================================================== *)
(** * Echo hiding: the decoder *)
(* ===================================================================== *)

Lemma binop_same_length {A : Type} (f : A -> A -> A) x y :
  length x = length y -> binop f x y = Ret (map2 f x y).
Proof. intros H. unfold binop. now rewrite H, Nat.eqb_refl. Qed.

Lemma f32_gtb_irrefl x : f32_gtb x x = false.
Proof.
  unfold f32_gtb, SFltb.
  destruct x as [s|s| |s m e]; try destruct s; simpl; try reflexivity;
    rewrite Z.compare_refl, Pos.compare_cont_refl; reflexivity.
Qed.

Section EchoDecode.
Variables (original stego : list f32) (d0 d1 : Z).
Hypothesis d0_nonneg : 0 <= d0.
Hypothesis d1_nonneg : 0 <= d1.

Let max_delay := Z.max d0 d1.
Let shortest := Z.min (len original) (len stego).

Let vote_body : Z -> list bool * list chunk_info
                -> result (ctl (list bool * list chunk_info) Empty_set) :=
  fun i '(bits, debug_info) =>
    let start := i * chunk_size in
    let end_ := start + chunk_size in
    if end_ + max_delay >? shortest
    then Ret (Break (bits, debug_info))
    else
      echo <- binop f32_sub (slice stego start (end_ + max_delay))
                            (slice original start (end_ + max_delay)) ;;
      let orig_chunk := slice original start end_ in
      let echo_d0 := slice echo d0 (d0 + len orig_chunk) in
      let echo_d1 := slice echo d1 (d1 + len orig_chunk) in
      p0 <- binop f32_mul orig_chunk echo_d0 ;;
      let corr_d0 := f32_abs (np_sum p0) in
      p1 <- binop f32_mul orig_chunk echo_d1 ;;
      let corr_d1 := f32_abs (np_sum p1) in
      let bit := f32_gtb corr_d1 corr_d0 in
      Ret (Continue
             (bits ++ [bit],
              debug_info ++ [{| ci_chunk := i; ci_corr_d0 := corr_d0;
                                ci_corr_d1 := corr_d1; ci_bit := bit |}])).

(** One iteration on a chunk that fits both buffers: no [break], no
    shape error, one bit and one entry appended. *)
Lemma vote_body_step i bits debug_info :
  0 <= i ->
  (i + 1) * chunk_size + max_delay <= shortest ->
  vote_body i (bits, debug_info)
  = Ret (Continue (bits ++ [ci_bit (chunk_vote original stego d0 d1 i)],
                   debug_info ++ [chunk_vote original stego d0 d1 i])).
Proof.
  intros Hi Hfit. unfold vote_body.
  assert (Hmd : 0 <= d0 <= max_delay /\ 0 <= d1 <= max_delay)
    by (unfold max_delay; lia).
  assert (Hs : shortest <= len original /\ shortest <= len stego)
    by (unfold shortest; lia).
  unfold chunk_size in *.
  destruct (Z.gtb_spec (i * 8192 + 8192 + max_delay) shortest); [lia|].
  assert (Hle : length (slice stego (i * 8192) (i * 8192 + 8192 + max_delay))
                = length (slice original (i * 8192) (i * 8192 + 8192 + max_delay)))
    by (rewrite !length_slice by lia; reflexivity).
  rewrite (binop_same_length _ _ _ Hle). cbn [bind].
  assert (Hecho : len (map2 f32_sub
                         (slice stego (i * 8192) (i * 8192 + 8192 + max_delay))
                         (slice original (i * 8192) (i * 8192 + 8192 + max_delay)))
                  = 8192 + max_delay).
  { unfold len. rewrite length_map2, <- Hle, Nat.min_id, length_slice by lia.
    lia. }
  assert (Hoc : len (slice original (i * 8192) (i * 8192 + 8192)) = 8192)
    by (rewrite len_slice by lia; lia).
  rewrite Hoc.
  rewrite (binop_same_length f32_mul)
    by (rewrite !length_slice by lia; lia).
  cbn [bind].
  rewrite (binop_same_length f32_mul)
    by (rewrite !length_slice by lia; lia).
  cbn [bind]. unfold chunk_vote, chunk_corr, chunk_size. cbn [ci_bit].
  fold max_delay. rewrite Hoc. reflexivity.
Qed.

Lemma vote_loop_from k : forall i0 bits debug_info,
  0 <= i0 ->
  (i0 + Z.of_nat k) * chunk_size + max_delay <= shortest ->
  for_eachM vote_body (range_from k i0 1) (bits, debug_info)
  = Ret (inl (bits ++ map (fun i => ci_bit (chunk_vote original stego d0 d1 i))
                          (range_from k i0 1),
              debug_info ++ map (chunk_vote original stego d0 d1)
                                (range_from k i0 1))).
Proof.
  induction k as [|k IH]; intros i0 bits debug_info Hi Hfit.
  - simpl. now rewrite !app_nil_r.
  - cbn [range_from for_eachM map].
    rewrite vote_body_step by (unfold chunk_size in *; lia).
    rewrite IH by (unfold chunk_size in *; lia).
    now rewrite <- !app_assoc.
Qed.

(** First loop of [decode_echo_simple] in closed form. *)
Lemma correlate_chunks_eq :
  correlate_chunks original stego d0 d1
  = Ret (map (fun i => ci_bit (chunk_vote original stego d0 d1 i))
             (range ((shortest - max_delay) / chunk_size)),
         map (chunk_vote original stego d0 d1)
             (range ((shortest - max_delay) / chunk_size))).
Proof.
  unfold correlate_chunks. fold max_delay shortest.
  set (n := (shortest - max_delay) / chunk_size).
  rewrite range_eq.
  change (for_eachM _ (range_from (Z.to_nat n) 0 1) ([], []))
    with (for_eachM vote_body (range_from (Z.to_nat n) 0 1) ([], [])).
  destruct (Z.le_gt_cases n 0) as [Hn|Hn].
  - replace (Z.to_nat n) with 0%nat by lia. reflexivity.
  - rewrite vote_loop_from; [reflexivity | lia |].
    assert (n * chunk_size <= shortest - max_delay).
    { unfold n. rewrite Z.mul_comm. apply Z.mul_div_le. reflexivity. }
    lia.
Qed.

End EchoDecode.

Section CharLoopInverse.

Lemma format_08b_int2 g : length g = 8%nat -> format_08b (int2 g) = g.
Proof.
  intros H.
  do 8 (destruct g as [|? g]; [discriminate H|]).
  destruct g; [|discriminate H].
  repeat match goal with b : bool |- _ => destruct b end; reflexivity.
Qed.

Lemma flat_map_format_int2 gs :
  Forall (fun g => length g = 8%nat) gs ->
  flat_map format_08b (map int2 gs) = concat gs.
Proof.
  induction 1 as [|g gs Hg _ IH]; simpl; [reflexivity|].
  now rewrite format_08b_int2, IH.
Qed.

Lemma firstn_plus {A : Type} (l : list A) a b :
  firstn (a + b) l = firstn a l ++ firstn b (skipn a l).
Proof.
  revert l. induction a as [|a IH]; intros [|x l]; simpl;
    try reflexivity.
  - now rewrite firstn_nil.
  - now rewrite IH.
Qed.

(** A slice of eight that is not short is a full group of the
    bitstream. *)
Lemma slice_full_group (bits : list bool) (k : nat) :
  ~ len (slice bits (8 * Z.of_nat k) (8 * Z.of_nat k + 8)) < 8 ->
  length (slice bits (8 * Z.of_nat k) (8 * Z.of_nat k + 8)) = 8%nat
  /\ firstn (8 * (k + 1)) bits
     = firstn (8 * k) bits
       ++ slice bits (8 * Z.of_nat k) (8 * Z.of_nat k + 8).
Proof.
  intros Hfull.
  assert (Hin : 8 * Z.of_nat k + 8 <= len bits).
  { destruct (Z.le_gt_cases (8 * Z.of_nat k + 8) (len bits)) as [H|H];
      [exact H|].
    exfalso. apply Hfull.
    pose proof (len_slice_short bits (8 * Z.of_nat k) (8 * Z.of_nat k + 8)
                  ltac:(lia) ltac:(lia)).
    lia. }
  split; [rewrite length_slice by lia; lia|].
  rewrite slice_inside by lia.
  replace (Z.to_nat (8 * Z.of_nat k + 8 - 8 * Z.of_nat k)) with 8%nat by lia.
  replace (Z.to_nat (8 * Z.of_nat k)) with (8 * k)%nat by lia.
  replace (8 * (k + 1))%nat with (8 * k + 8)%nat by lia.
  apply firstn_plus.
Qed.

Variable reject : N -> bool.

(** When the loop returns, the characters read so far are the returned
    text followed by the terminator, and they spell the bits consumed. *)
Lemma char_loop_return bits n : forall gs r,
  Forall (fun g => length g = 8%nat) gs ->
  concat gs = firstn (8 * length gs) bits ->
  for_each (char_step reject bits)
           (range_from n (8 * Z.of_nat (length gs)) 8) (map int2 gs)
  = inr r ->
  exists gs',
    Forall (fun g => length g = 8%nat) gs'
    /\ map int2 gs' = r ++ terminator
    /\ concat gs' = firstn (8 * length gs') bits.
Proof.
  induction n as [|n IH]; intros gs r Hlen Hcat Hrun; [discriminate Hrun|].
  cbn [range_from for_each] in Hrun. unfold char_step at 1 in Hrun.
  set (g := slice bits (8 * Z.of_nat (length gs))
                  (8 * Z.of_nat (length gs) + 8)) in *.
  destruct (Z.ltb_spec (len g) 8) as [Hshort|Hfull]; [discriminate Hrun|].
  destruct (slice_full_group bits (length gs) ltac:(fold g; lia))
    as [Hg Hfirst].
  fold g in Hg, Hfirst.
  assert (Hlen' : Forall (fun g => length g = 8%nat) (gs ++ [g]))
    by (apply Forall_app; split; [exact Hlen | repeat constructor; exact Hg]).
  assert (Hcat' : concat (gs ++ [g])
                  = firstn (8 * length (gs ++ [g])) bits).
  { rewrite concat_app, length_app. cbn [concat length]. rewrite app_nil_r, Hcat.
    symmetry. exact Hfirst. }
  destruct (reject (int2 g)); [discriminate Hrun|].
  destruct (endswith (map int2 gs ++ [int2 g]) terminator) eqn:He.
  - injection Hrun as <-. exists (gs ++ [g]).
    split; [exact Hlen'|]. split; [|exact Hcat'].
    rewrite map_app. cbn [map].
    apply endswith_iff in He. destruct He as [u Hu]. rewrite Hu.
    change (-3) with (- len terminator).
    rewrite slice_drop_last by discriminate. reflexivity.
  - apply (IH (gs ++ [g]) r Hlen' Hcat').
    rewrite map_app. cbn [map].
    replace (8 * Z.of_nat (length (gs ++ [g])))
      with (8 * Z.of_nat (length gs) + 8)
      by (rewrite length_app; cbn [length]; lia).
    exact Hrun.
Qed.

(** Whatever text the decoder returns, other than its "not found"
    sentence, the bitstream starts with the framed bits of that text. *)
Lemma decode_chars_prefix bits r :
  decode_chars reject bits = r -> r <> not_found ->
  firstn (length (message_bits r)) bits = message_bits r.
Proof.
  intros Hdec Hr. rewrite decode_chars_unfold in Hdec.
  destruct (for_each (char_step reject bits) (range3 0 (len bits) 8) [])
    as [a|r'] eqn:Hrun; [congruence|]. subst r'.
  destruct (char_loop_return bits _ [] r ltac:(constructor) eq_refl Hrun)
    as (gs & Hlen & Hval & Hcat).
  unfold message_bits. rewrite <- Hval, flat_map_format_int2 by exact Hlen.
  rewrite Hcat. f_equal. rewrite length_firstn.
  assert (length (concat gs) = 8 * length gs)%nat.
  { pose proof (len_concat_groups gs Hlen) as H. unfold len in H. lia. }
  rewrite Hcat, length_firstn in H. lia.
Qed.

End CharLoopInverse.

Lemma reject_echo_accepts cs :
  is_ascii_str cs -> no_nul cs ->
  Forall (fun g => reject_echo (int2 g) = false) (map format_08b cs).
Proof.
  intros Ha Hn. apply Forall_map. unfold no_nul, is_ascii_str in *.
  induction Ha as [|c cs Hc Ha IH]; constructor.
  - inversion Hn; subst.
    destruct (format_08b_byte c ltac:(lia)) as [_ ->].
    unfold reject_echo. apply orb_false_iff. split.
    + apply N.eqb_neq. assumption.
    + apply N.ltb_ge. lia.
  - apply IH. inversion Hn; assumption.
Qed.

(** The echo decoder's character loop on a bitstream that starts with the
    framed bits of [m]. *)
Lemma echo_decode_chars_framed m bits :
  is_ascii_str m -> no_nul m ->
  contains m terminator = false -> endswith m (lit "#") = false ->
  firstn (length (message_bits m)) bits = message_bits m ->
  decode_chars reject_echo bits = m.
Proof.
  intros Ha Hn Hc He Hpre.
  assert (Hb : is_byte_str m).
  { eapply Forall_impl; [|exact Ha]. simpl. intros c Hc'. lia. }
  destruct (groups_of_bytes m Hb) as [Hlen [Hval Hcat]].
  rewrite <- (firstn_skipn (length (message_bits m)) bits), Hpre.
  generalize (skipn (length (message_bits m)) bits). intros rest.
  rewrite message_bits_app, <- Hcat, <- app_assoc.
  rewrite <- Hval at 2.
  apply decode_chars_found.
  - reflexivity.
  - apply Forall_app. split; [exact Hlen|]. repeat constructor.
  - apply reject_echo_accepts; assumption.
  - reflexivity.
  - rewrite Hval. apply no_early_terminator; assumption.
Qed.

Section SliceIndex.
Context {A : Type}.

Lemma skipn_cons_nth (l : list A) (a : nat) (d : A) :
  (a < length l)%nat -> skipn a l = nth a l d :: skipn (S a) l.
Proof.
  revert a. induction l as [|x l IH]; intros [|a] Ha; simpl in *;
    try lia; [reflexivity|].
  apply IH. lia.
Qed.

(** A slice, element by element. *)
Lemma firstn_skipn_range (l : list A) (d : A) (k : nat) : forall a : nat,
  (a + k <= length l)%nat ->
  firstn k (skipn a l)
  = map (fun j => nth (Z.to_nat j) l d) (range_from k (Z.of_nat a) 1).
Proof.
  induction k as [|k IH]; intros a Ha; [reflexivity|].
  rewrite (skipn_cons_nth l a d) by lia.
  cbn [firstn range_from map]. rewrite Nat2Z.id. f_equal.
  rewrite IH by lia. do 2 f_equal. lia.
Qed.

Lemma map_range_from_shift {B : Type} (f : Z -> B) (k : nat) : forall s a,
  map (fun j => f (a + j)) (range_from k s 1) = map f (range_from k (a + s) 1).
Proof.
  induction k as [|k IH]; intros s a; [reflexivity|].
  cbn [range_from map]. rewrite IH. do 3 f_equal. lia.
Qed.

Lemma slice_as_map (l : list A) (d : A) (a b : Z) :
  0 <= a <= b -> b <= len l ->
  slice l a b
  = map (fun k => nth (Z.to_nat (a + k)) l d) (range (b - a)).
Proof.
  intros Ha Hb. rewrite slice_inside by assumption.
  rewrite (firstn_skipn_range l d) by (unfold len in Hb; lia).
  rewrite range_eq, Z2Nat.id by lia.
  rewrite (map_range_from_shift (fun j => nth (Z.to_nat j) l d)).
  do 2 f_equal. lia.
Qed.

End SliceIndex.

Lemma map2_map_map {I A B C : Type} (f : A -> B -> C) (g : I -> A)
      (h : I -> B) (r : list I) :
  map2 f (map g r) (map h r) = map (fun k => f (g k) (h k)) r.
Proof. induction r as [|x r IH]; simpl; [reflexivity | now rewrite IH]. Qed.

Lemma slice_map_range {B : Type} (g : Z -> B) (n a b : Z) :
  0 <= a <= b -> b <= n ->
  slice (map g (range n)) a b = map (fun k => g (a + k)) (range (b - a)).
Proof.
  intros Ha Hb.
  assert (Hlen : len (map g (range n)) = n)
    by (unfold len; rewrite length_map, length_range; lia).
  destruct (Z.eq_dec a b) as [->|Hne].
  { rewrite Z.sub_diag. unfold slice. rewrite Z.sub_diag. reflexivity. }
  rewrite (slice_as_map _ (g 0)) by (rewrite ?Hlen; lia).
  apply map_ext_in. intros k Hk. apply In_range in Hk.
  rewrite nth_map_range by lia. reflexivity.
Qed.

(** The correlation [decode_echo_simple] computes from slices is the
    sample-by-sample one. *)
Lemma chunk_corr_spec original stego max_delay i d :
  0 <= i -> 0 <= d <= max_delay ->
  (i + 1) * chunk_size + max_delay <= Z.min (len original) (len stego) ->
  chunk_corr original stego max_delay i d = corr_spec original stego i d.
Proof.
  intros Hi Hd Hfit. unfold chunk_corr, corr_spec, chunk_size in *.
  rewrite (len_slice original) by lia.
  replace (i * 8192 + 8192 - i * 8192) with 8192 by lia.
  rewrite (slice_as_map stego fzero), (slice_as_map original fzero (i * 8192) (i * 8192 + 8192 + max_delay)) by lia.
  rewrite map2_map_map.
  replace (i * 8192 + 8192 + max_delay - i * 8192) with (8192 + max_delay) by lia.
  rewrite slice_map_range by lia.
  rewrite (slice_as_map original fzero (i * 8192) (i * 8192 + 8192)) by lia.
  replace (i * 8192 + 8192 - i * 8192) with 8192 by lia.
  replace (d + 8192 - d) with 8192 by lia.
  rewrite map2_map_map. apply (f_equal (fun l => f32_abs (np_sum l))).
  apply map_ext. intros k. unfold sample_at.
  do 3 f_equal; f_equal; lia.
Qed.

(** [decode_echo_simple] returns normally when the delays are not
    negative. *)
Lemma echo_decode_mechanics_core original stego d0 d1 :
  0 <= d0 -> 0 <= d1 ->
  exists bits debug_info,
    decode_echo_simple original stego d0 d1
    = Ret (decode_chars reject_echo bits, debug_info, bits).
Proof.
  intros H0 H1. unfold decode_echo_simple, read_wav_bytes.
  rewrite correlate_chunks_eq by assumption. cbn [bind].
  eexists. eexists. reflexivity.
Qed.

(** C8. Echo decode mechanics: for delays that are not negative,
    [decode_echo_simple] never raises, whatever the two lengths (only the
    first [min(len(original), len(stego))] samples are read); it processes
    chunks [0 .. num_chunks-1] with
    [num_chunks = floor((min(len(original), len(stego)) - max(d0, d1)) /
    8192)] and records one entry [(i, corr_d0, corr_d1, bit)] per chunk,
    where [corr_d] is the magnitude of the sum of the original chunk times
    the stego-minus-original difference read [d] samples later, and
    [bit = 1] exactly when [corr_d1 > corr_d0], so that equality gives 0;
    the bits returned are those of the entries. *)
Theorem echo_decode_mechanics original stego d0 d1 :
  0 <= d0 -> 0 <= d1 ->
  let o := map f32_of_Z (wav_frames original) in
  let s := map f32_of_Z (wav_frames stego) in
  let num_chunks :=
    (Z.min (len (wav_frames original)) (len (wav_frames stego)) - Z.max d0 d1)
    / chunk_size in
  exists msg debug_info,
    decode_echo_simple original stego d0 d1
    = Ret (msg, debug_info, map ci_bit debug_info)
    /\ map ci_chunk debug_info = range num_chunks
    /\ (forall i, In i (range num_chunks) <-> 0 <= i < num_chunks)
    /\ Forall (fun v =>
                 ci_corr_d0 v = corr_spec o s (ci_chunk v) d0
                 /\ ci_corr_d1 v = corr_spec o s (ci_chunk v) d1
                 /\ ci_bit v = f32_gtb (ci_corr_d1 v) (ci_corr_d0 v)
                 /\ (ci_corr_d1 v = ci_corr_d0 v -> ci_bit v = false))
              debug_info.
Proof.
  intros H0 H1 o s num_chunks.
  assert (Ho : len o = len (wav_frames original))
    by (unfold o, len; now rewrite length_map).
  assert (Hs : len s = len (wav_frames stego))
    by (unfold s, len; now rewrite length_map).
  eexists. exists (map (chunk_vote o s d0 d1) (range num_chunks)).
  split; [|split; [|split]].
  - unfold decode_echo_simple, read_wav_bytes.
    fold o s. rewrite correlate_chunks_eq by assumption.
    cbn [bind]. rewrite Ho, Hs. fold num_chunks.
    rewrite map_map. reflexivity.
  - rewrite map_map. cbn [chunk_vote ci_chunk]. apply map_id.
  - intros i. apply In_range.
  - apply Forall_forall. intros v Hv.
    apply in_map_iff in Hv. destruct Hv as [i [<- Hi]].
    apply In_range in Hi.
    cbn [chunk_vote ci_chunk ci_corr_d0 ci_corr_d1 ci_bit].
    assert (Hfit : (i + 1) * chunk_size + Z.max d0 d1
                   <= Z.min (len o) (len s)).
    { rewrite Ho, Hs.
      assert (num_chunks * chunk_size
              <= Z.min (len (wav_frames original)) (len (wav_frames stego))
                 - Z.max d0 d1).
      { unfold num_chunks. rewrite Z.mul_comm. apply Z.mul_div_le.
        reflexivity. }
      unfold chunk_size in *. lia. }
    rewrite !chunk_corr_spec by (assumption || lia).
    repeat split. intros ->. apply f32_gtb_irrefl.
Qed.

Lemma echo_decode_mechanics_witness :
  let o := map f32_of_Z (wav_frames (silence 8592)) in
  let s := map f32_of_Z (wav_frames (silence 9000)) in
  let num_chunks :=
    (Z.min (len (wav_frames (silence 8592))) (len (wav_frames (silence 9000)))
     - Z.max 200 400) / chunk_size in
  exists msg debug_info,
    decode_echo_simple (silence 8592) (silence 9000) 200 400
    = Ret (msg, debug_info, map ci_bit debug_info)
    /\ map ci_chunk debug_info = range num_chunks
    /\ (forall i, In i (range num_chunks) <-> 0 <= i < num_chunks)
    /\ Forall (fun v =>
                 ci_corr_d0 v = corr_spec o s (ci_chunk v) 200
                 /\ ci_corr_d1 v = corr_spec o s (ci_chunk v) 400
                 /\ ci_bit v = f32_gtb (ci_corr_d1 v) (ci_corr_d0 v)
                 /\ (ci_corr_d1 v = ci_corr_d0 v -> ci_bit v = false))
              debug_info.
Proof.
  apply (echo_decode_mechanics (silence 8592) (silence 9000) 200 400); lia.
Defined.

(** C9. Echo decode byte guard: once the correlation stage has produced
    its bits, the character loop stops at the first 8-bit value that is 0
    or greater than 127; when the values before it (all in 1..127) do not
    contain the terminator, the call returns "No hidden message found"
    with the full diagnostics list and the raw bitstream, as a normal
    result. *)
Theorem echo_decode_byte_guard original stego d0 d1 bits debug_info gs g rest :
  correlate_chunks (map f32_of_Z (wav_frames original))
                   (map f32_of_Z (wav_frames stego)) d0 d1
  = Ret (bits, debug_info) ->
  bits = concat gs ++ g ++ rest ->
  Forall (fun g => length g = 8%nat) (gs ++ [g]) ->
  Forall (fun g => (0 < int2 g <= 127)%N) gs ->
  contains (map int2 gs) terminator = false ->
  (int2 g = 0 \/ 127 < int2 g)%N ->
  decode_echo_simple original stego d0 d1 = Ret (not_found, debug_info, bits).
Proof.
  intros Hcorr Hbits Hlen Hacc Hno Hbad.
  unfold decode_echo_simple, read_wav_bytes. rewrite Hcorr. cbn [bind].
  do 3 f_equal. rewrite Hbits.
  apply (decode_chars_rejected reject_echo gs g rest); auto.
  - eapply Forall_impl; [|exact Hacc]. cbv beta. intros x Hx.
    unfold reject_echo. apply orb_false_iff. split.
    + apply N.eqb_neq. lia.
    + apply N.ltb_ge. lia.
  - unfold reject_echo. apply orb_true_iff.
    destruct Hbad as [Hz|Hhi]; [left; apply N.eqb_eq | right; apply N.ltb_lt];
      assumption.
Qed.

Lemma echo_decode_byte_guard_witness :
  decode_echo_simple (silence 65936) (silence 65936) 200 400
  = Ret (not_found,
         map (fun i => {| ci_chunk := i; ci_corr_d0 := fzero;
                          ci_corr_d1 := fzero; ci_bit := false |}) (range 8),
         repeat false 8).
Proof.
  apply (echo_decode_byte_guard (silence 65936) (silence 65936) 200 400
           _ _ [] (repeat false 8) []).
  - vm_compute. reflexivity.
  - reflexivity.
  - repeat constructor.
  - constructor.
  - reflexivity.
  - left. reflexivity.
Defined.

(* ===================================================================== *)
(** * Echo hiding: a round trip that fails *)
(* ===================================================================== *)

Lemma encode_echo_stego audio m d0 d1 alpha :
  0 <= d0 -> 0 <= d1 ->
  len (message_bits m) * chunk_size + Z.max d0 d1 <= len (wav_frames audio) ->
  encode_echo_simple audio m d0 d1 alpha
  = Ret (Some (echo_stego audio m d0 d1 alpha))
  /\ len (wav_frames (echo_stego audio m d0 d1 alpha))
     = len (wav_frames audio).
Proof.
  intros H0 H1 Hcap. split.
  - rewrite encode_echo_eq by assumption.
    destruct (Z.gtb_spec (len (message_bits m) * chunk_size + Z.max d0 d1)
                         (len (wav_frames audio))); [lia|].
    reflexivity.
  - unfold echo_stego. cbn [wav_frames].
    set (samples := map f32_of_Z (wav_frames audio)).
    assert (Hlen : len samples = len (wav_frames audio))
      by (unfold samples, len; now rewrite length_map).
    destruct (echo_encode_loop alpha samples d0 d1 H0 H1 (message_bits m))
      as [_ Hlo]; [rewrite Hlen; exact Hcap|].
    unfold len in *. rewrite length_map. lia.
Qed.

(** The votes of [decode_echo_simple] on two streams of known length. *)
Lemma decode_echo_votes original stego d0 d1 n :
  0 <= d0 -> 0 <= d1 ->
  len (wav_frames original) = n -> len (wav_frames stego) = n ->
  let o := map f32_of_Z (wav_frames original) in
  let s := map f32_of_Z (wav_frames stego) in
  let bits := map (fun i => ci_bit (chunk_vote o s d0 d1 i))
                  (range ((n - Z.max d0 d1) / chunk_size)) in
  decode_echo_simple original stego d0 d1
  = Ret (decode_chars reject_echo bits,
         map (chunk_vote o s d0 d1) (range ((n - Z.max d0 d1) / chunk_size)),
         bits).
Proof.
  intros H0 H1 Ho Hs o s bits.
  unfold decode_echo_simple, read_wav_bytes. fold o s.
  rewrite correlate_chunks_eq by assumption. cbn [bind].
  replace (len o) with n by (unfold o, len in *; now rewrite length_map).
  replace (len s) with n by (unfold s, len in *; now rewrite length_map).
  rewrite Z.min_id. reflexivity.
Qed.

Lemma pulse_train_length : len (wav_frames pulse_train) = 262600.
Proof. vm_compute. reflexivity. Qed.

Lemma pulse_train_chunks : (262600 - Z.max 200 400) / chunk_size = 32.
Proof. reflexivity. Qed.

Lemma letter_p_bit_2 :
  (2 <? length (message_bits (lit "p")))%nat = true
  /\ nth_error (message_bits (lit "p")) 2 = Some true.
Proof. split; reflexivity. Qed.

(** Chunk 2: both correlations are 41 pulses times 512 * 256. *)
Lemma pulse_train_vote_2 :
  chunk_vote (map f32_of_Z (wav_frames pulse_train))
     (map f32_of_Z
        (wav_frames (echo_stego pulse_train (lit "p") 200 400 alpha_half)))
     200 400 2
  = tied_entry.
Proof. vm_compute. reflexivity. Qed.

Lemma pulse_train_decode :
  decode_echo_simple pulse_train
    (echo_stego pulse_train (lit "p") 200 400 alpha_half) 200 400
  = Ret (decode_chars reject_echo
           (map (fun i =>
                   ci_bit (chunk_vote (map f32_of_Z (wav_frames pulse_train))
                             (map f32_of_Z
                                (wav_frames (echo_stego pulse_train (lit "p")
                                               200 400 alpha_half)))
                             200 400 i)) (range 32)),
         map (chunk_vote (map f32_of_Z (wav_frames pulse_train))
                (map f32_of_Z
                   (wav_frames (echo_stego pulse_train (lit "p")
                                  200 400 alpha_half)))
                200 400) (range 32),
         map (fun i =>
                ci_bit (chunk_vote (map f32_of_Z (wav_frames pulse_train))
                          (map f32_of_Z
                             (wav_frames (echo_stego pulse_train (lit "p")
                                            200 400 alpha_half)))
                          200 400 i)) (range 32)).
Proof.
  destruct (encode_echo_stego pulse_train (lit "p") 200 400 alpha_half)
    as [Henc Hlen];
    [lia | lia | rewrite pulse_train_length; vm_compute; discriminate|].
  rewrite pulse_train_length in Hlen.
  rewrite (decode_echo_votes pulse_train
                (echo_stego pulse_train (lit "p") 200 400 alpha_half)
                200 400 262600 ltac:(lia) ltac:(lia) pulse_train_length Hlen).
  cbv zeta. rewrite pulse_train_chunks. reflexivity.
Qed.


(* ===================================================================== *)
(** * Reading and writing samples: further properties *)
(* ===================================================================== *)

Lemma wav_eta (w : wav) :
  {| wav_params := wav_params w; wav_frames := wav_frames w |} = w.
Proof. destruct w. reflexivity. Qed.

Lemma map_id_on {A : Type} (f : A -> A) (P : A -> Prop) l :
  (forall x, P x -> f x = x) -> Forall P l -> map f l = l.
Proof.
  intros Hf Hl. induction Hl as [|x l Hx _ IH]; simpl; [reflexivity|].
  now rewrite Hf, IH.
Qed.

(** X1. Reading a stream of int16 frames and writing the samples back
    gives the stream again, for the float32 samples [read_wav_bytes]
    returns as for their conversion to int16. *)
Theorem wav_write_read_round_trip audio :
  wf_wav audio ->
  let '(samples, params) := read_wav_bytes audio in
  write_wav_bytes (Float32 samples) params = audio
  /\ write_wav_bytes (Int16 (map f32_to_int16 samples)) params = audio.
Proof.
  intros Hwf. unfold read_wav_bytes, write_wav_bytes. split.
  - rewrite map_map.
    rewrite (map_id_on _ is_int16); [apply wav_eta | | exact Hwf].
    intros z Hz. apply (quantize_int16 z Hz).
  - rewrite !map_map.
    rewrite (map_id_on _ is_int16); [apply wav_eta | | exact Hwf].
    intros z Hz. rewrite int16_float32_roundtrip by exact Hz.
    rewrite int_clip_id by exact Hz. apply view_int16_id, Hz.
Qed.

Lemma wav_write_read_round_trip_witness :
  write_wav_bytes (Float32 (map f32_of_Z [0; -32768; 32767; -1])) example_params
  = {| wav_params := example_params; wav_frames := [0; -32768; 32767; -1] |}
  /\ write_wav_bytes
       (Int16 (map f32_to_int16 (map f32_of_Z [0; -32768; 32767; -1])))
       example_params
     = {| wav_params := example_params; wav_frames := [0; -32768; 32767; -1] |}.
Proof.
  apply (wav_write_read_round_trip
           {| wav_params := example_params;
              wav_frames := [0; -32768; 32767; -1] |}).
  repeat constructor; unfold is_int16; simpl; lia.
Defined.

Lemma digits2_pos_size m : digits2_pos m = Pos.size m.
Proof. induction m as [m IH|m IH|]; simpl; congruence. Qed.

(** Mantissa and exponent of a float32 number in canonical form. *)
Lemma valid_binary_bounds s m e :
  valid_binary prec emax (S754_finite s m e) = true ->
  -149 <= e <= 104
  /\ Z.pos m < 2 ^ 24
  /\ (-149 < e -> 2 ^ 23 <= Z.pos m).
Proof.
  unfold valid_binary, bounded, canonical_mantissa, fexp, emin, prec, emax.
  rewrite andb_true_iff, Z.eqb_eq, Z.leb_le, digits2_pos_size.
  intros [Hc He].
  pose proof (Pos.size_gt m) as Hgt. pose proof (Pos.size_le m) as Hle.
  apply Pos2Z.pos_lt_pos in Hgt. apply Pos2Z.pos_le_pos in Hle.
  rewrite Pos2Z.inj_pow in Hgt, Hle. rewrite Pos2Z.inj_xO in Hle.
  set (d := Z.pos (Pos.size m)) in *.
  assert (Hd : 0 < d) by (unfold d; lia).
  split; [lia|]. split.
  - eapply Z.lt_le_trans; [exact Hgt|]. apply Z.pow_le_mono_r; lia.
  - intros Hn. replace d with 24 in Hle by lia.
    change (2 ^ 24) with (2 * 2 ^ 23) in Hle. lia.
Qed.

(** The magnitude [f32_trunc] computes, as a product or a quotient. *)
Lemma f32_trunc_finite s m e :
  f32_trunc (S754_finite s m e)
  = let a := if e <? 0 then Z.pos m / 2 ^ (- e) else Z.pos m * 2 ^ e in
    if s then - a else a.
Proof.
  unfold f32_trunc. cbv zeta. destruct e as [|p|p].
  - now rewrite Z.shiftl_mul_pow2 by lia.
  - change (Z.pos p <? 0) with false. cbv iota.
    now rewrite Z.shiftl_mul_pow2 by lia.
  - change (Z.neg p <? 0) with true. cbv iota.
    now rewrite Z.shiftr_div_pow2 by lia.
Qed.

Lemma trunc_magnitude_large m e k :
  - k <= e -> 0 <= k -> 2 ^ 23 <= m ->
  2 ^ 23 / 2 ^ k <= (if e <? 0 then m / 2 ^ (- e) else m * 2 ^ e).
Proof.
  intros He Hk Hm.
  assert (H23 : 2 ^ 23 / 2 ^ k <= 2 ^ 23)
    by (apply Z.div_le_upper_bound; [lia|]; assert (1 <= 2 ^ k) by (apply (Z.pow_le_mono_r 2 0 k); lia); nia).
  destruct (Z.ltb_spec e 0).
  - apply Z.le_trans with (2 ^ 23 / 2 ^ (- e)).
    + apply Z.div_le_compat_l; [lia|]. split; [lia|].
      apply Z.pow_le_mono_r; lia.
    + apply Z.div_le_mono; lia.
  - assert (1 <= 2 ^ e) by (apply (Z.pow_le_mono_r 2 0 e); lia). nia.
Qed.

Lemma trunc_magnitude_small m e k :
  e <= - k -> 0 < k -> 0 < m < 2 ^ 24 ->
  0 <= (if e <? 0 then m / 2 ^ (- e) else m * 2 ^ e) < 2 ^ 24 / 2 ^ k + 1.
Proof.
  intros He Hk Hm. destruct (Z.ltb_spec e 0); [|lia].
  split; [apply Z.div_pos; lia|].
  assert (m / 2 ^ (- e) <= 2 ^ 24 / 2 ^ k); [|lia].
  apply Z.le_trans with (m / 2 ^ k).
  - apply Z.div_le_compat_l; [lia|]. split; [lia|].
    apply Z.pow_le_mono_r; lia.
  - apply Z.div_le_mono; lia.
Qed.

Lemma int16_bounds_as_float :
  f32_of_Z (-32768) = S754_finite true 8388608 (-8)
  /\ f32_of_Z 32767 = S754_finite false 16776704 (-9).
Proof. split; vm_compute; reflexivity. Qed.

Lemma view_int16_clip z :
  is_int16 z -> view_int16 z = int_clip (-32768) 32767 z.
Proof. intros H. rewrite view_int16_id, int_clip_id by exact H. reflexivity. Qed.

Lemma int16_bounds_truncated :
  view_int16 (f32_trunc (S754_finite true 8388608 (-8))) = -32768
  /\ view_int16 (f32_trunc (S754_finite false 16776704 (-9))) = 32767.
Proof. split; vm_compute; reflexivity. Qed.

Lemma compare_cont_Z p q : Pos.compare_cont Eq p q = (Z.pos p ?= Z.pos q).
Proof. reflexivity. Qed.

(** [np.clip] then [np.int16] on one finite sample: the sample is
    truncated toward zero and saturates at the int16 bounds. *)
Lemma quantize_saturates x :
  valid_binary prec emax x = true -> f32_is_finite x = true ->
  quantize x = int_clip (-32768) 32767 (f32_trunc x).
Proof.
  intros Hv Hf. destruct x as [s0|s0| |s m e]; try discriminate.
  { destruct s0; reflexivity. }
  destruct (valid_binary_bounds s m e Hv) as (He & Hm & Hn).
  destruct int16_bounds_as_float as [Hlo Hhi].
  destruct int16_bounds_truncated as [Htlo Hthi].
  unfold quantize, f32_clip. rewrite Hlo, Hhi. clear Hlo Hhi Hv Hf.
  unfold f32_to_int16. rewrite (f32_trunc_finite s m e). cbv zeta.
  pose proof (f32_trunc_finite s m e) as Ht. cbv zeta in Ht.
  set (a := if e <? 0 then Z.pos m / 2 ^ (- e) else Z.pos m * 2 ^ e) in *.
  assert (Hsmall : forall k, e <= - k -> 0 < k -> 0 <= a < 2 ^ 24 / 2 ^ k + 1).
  { intros k H1 H2. apply trunc_magnitude_small; lia. }
  assert (Hlarge : forall k, - k <= e -> 0 <= k -> -149 < e ->
                             2 ^ 23 / 2 ^ k <= a).
  { intros k H1 H2 H3. apply trunc_magnitude_large; auto. }
  assert (H8 : e = -8 -> a = Z.pos m / 256) by (intros ->; reflexivity).
  assert (H9 : e = -9 -> a = Z.pos m / 512) by (intros ->; reflexivity).
  clearbody a. change (2 ^ 24) with 16777216 in *.
  change (2 ^ 23) with 8388608 in *.
  unfold SFltb, SFcompare. rewrite !compare_cont_Z. destruct s.
  - destruct (Z.compare_spec e (-8)) as [He8|He8|He8].
    + specialize (H8 He8).
      destruct (Z.compare_spec (Z.pos m) 8388608) as [Hm8|Hm8|Hm8];
        cbn [CompOpp].
      * rewrite Ht. apply view_int16_clip.
        rewrite H8, Hm8. unfold is_int16.
        split; apply Z.leb_le; reflexivity.
      * lia.
      * rewrite Htlo.
        assert (32768 <= a)
          by (rewrite H8; apply Z.div_le_lower_bound; lia).
        unfold int_clip. lia.
    + rewrite Ht. apply view_int16_clip.
      pose proof (Hsmall 9 ltac:(lia) ltac:(lia)) as Ha.
      change (16777216 / 2 ^ 9 + 1) with 32769 in Ha.
      unfold is_int16. lia.
    + rewrite Htlo.
      pose proof (Hlarge 7 ltac:(lia) ltac:(lia) ltac:(lia)) as Ha.
      change (8388608 / 2 ^ 7) with 65536 in Ha.
      unfold int_clip. lia.
  - destruct (Z.compare_spec (-9) e) as [He9|He9|He9].
    + specialize (H9 (eq_sym He9)).
      destruct (Z.compare_spec 16776704 (Z.pos m)) as [Hm9|Hm9|Hm9].
      * rewrite Ht. apply view_int16_clip.
        rewrite H9, <- Hm9. unfold is_int16.
        split; apply Z.leb_le; reflexivity.
      * rewrite Hthi.
        assert (32767 <= a)
          by (rewrite H9; apply Z.div_le_lower_bound; lia).
        unfold int_clip. lia.
      * rewrite Ht. apply view_int16_clip.
        assert (0 <= a <= 32767).
        { rewrite H9. split; [apply Z.div_pos; lia|].
          apply Z.lt_succ_r. apply Z.div_lt_upper_bound; lia. }
        unfold is_int16. lia.
    + rewrite Hthi.
      pose proof (Hlarge 8 ltac:(lia) ltac:(lia) ltac:(lia)) as Ha.
      change (8388608 / 2 ^ 8) with 32768 in Ha.
      unfold int_clip. lia.
    + rewrite Ht. apply view_int16_clip.
      pose proof (Hsmall 10 ltac:(lia) ltac:(lia)) as Ha.
      change (16777216 / 2 ^ 10 + 1) with 16385 in Ha.
      unfold is_int16. lia.
Qed.

(** X2. [write_wav_bytes] on finite float32 samples: every frame written
    is the sample truncated toward zero and saturated at -32768 and 32767;
    nothing wraps around. *)
Theorem write_wav_bytes_saturates samples params :
  Forall (fun x => valid_binary prec emax x = true
                   /\ f32_is_finite x = true) samples ->
  write_wav_bytes (Float32 samples) params
  = {| wav_params := params;
       wav_frames :=
         map (fun x => int_clip (-32768) 32767 (f32_trunc x)) samples |}.
Proof.
  intros H. unfold write_wav_bytes. f_equal.
  apply map_ext_in. intros x Hx. rewrite Forall_forall in H.
  destruct (H x Hx) as [Hv Hf]. apply (quantize_saturates x Hv Hf).
Qed.

Lemma write_wav_bytes_saturates_witness :
  write_wav_bytes
    (Float32 [f32_of_Z 40000; f32_of_Z (-40000);
              S754_finite false 12582912 (-23);
              S754_finite true 12582912 (-23)])
    example_params
  = {| wav_params := example_params; wav_frames := [32767; -32768; 1; -1] |}.
Proof.
  apply (write_wav_bytes_saturates
           [f32_of_Z 40000; f32_of_Z (-40000);
            S754_finite false 12582912 (-23);
            S754_finite true 12582912 (-23)] example_params).
  repeat constructor.
Defined.

(* ===================================================================== *)
(** * LSB hiding: further properties *)
(* ===================================================================== *)

Lemma embed_one_close u (b : bool) :
  0 <= u < 65536 ->
  Z.abs (view_int16 (Z.lor (Z.land u 65534) (Z.b2z b)) - view_int16 u) <= 1.
Proof.
  intros Hu. destruct (embed_one u b Hu) as (Hv & Hs & _).
  cbv zeta in Hv, Hs. rewrite !Z.shiftr_div_pow2 in Hs by lia.
  change (2 ^ 1) with 2 in Hs.
  set (v := Z.lor (Z.land u 65534) (Z.b2z b)) in *.
  unfold view_int16. rewrite !Z.mod_small by lia.
  destruct (Z.ltb_spec v 32768), (Z.ltb_spec u 32768);
    Z.to_euclidean_division_equations; lia.
Qed.

Lemma embed_bits_close bits : forall frames,
  Forall is_int16 frames ->
  Forall2 (fun x y => Z.abs (y - x) <= 1) frames
          (map view_int16 (embed_bits bits (map view_uint16 frames))).
Proof.
  induction bits as [|b bits IH]; intros frames Hwf.
  - simpl. induction Hwf as [|x l Hx _ IHl]; simpl; constructor; [|exact IHl].
    rewrite view_int16_uint16 by exact Hx. lia.
  - destruct Hwf as [|x l Hx Hl]; simpl; constructor.
    + pose proof (embed_one_close (view_uint16 x) b (view_uint16_range x)) as H.
      rewrite view_int16_uint16 in H by exact Hx. exact H.
    + apply IH, Hl.
Qed.

(** X3. LSB hiding changes no sample by more than one: the stream
    [encode_lsb] returns holds int16 frames, each within 1 of the input
    frame at the same index. *)
Theorem lsb_stego_within_one audio m stego :
  wf_wav audio ->
  encode_lsb audio m = Ret (Some stego) ->
  wf_wav stego
  /\ Forall2 (fun x y => Z.abs (y - x) <= 1)
             (wav_frames audio) (wav_frames stego).
Proof.
  intros Hwf Henc. rewrite encode_lsb_eq in Henc by exact Hwf.
  destruct (len (message_bits m) >? len (wav_frames audio)); [discriminate|].
  injection Henc as <-. split.
  - apply wf_wav_view_int16.
  - cbn [wav_frames]. apply embed_bits_close, Hwf.
Qed.

Lemma lsb_stego_within_one_witness :
  wf_wav lsb_example_stego
  /\ Forall2 (fun x y => Z.abs (y - x) <= 1)
             (wav_frames (silence 24)) (wav_frames lsb_example_stego).
Proof.
  apply (lsb_stego_within_one (silence 24) (lit "") lsb_example_stego).
  - apply wf_silence.
  - vm_compute. reflexivity.
Defined.


Lemma embed_one_twice x (b c : bool) :
  Z.lor (Z.land (Z.lor (Z.land x 65534) (Z.b2z b)) 65534) (Z.b2z c)
  = Z.lor (Z.land x 65534) (Z.b2z c).
Proof.
  f_equal. rewrite Z.land_lor_distr_l, <- Z.land_assoc.
  change (Z.land 65534 65534) with 65534.
  replace (Z.land (Z.b2z b) 65534) with 0 by (destruct b; reflexivity).
  apply Z.lor_0_r.
Qed.

Lemma embed_bits_overwrite b1 : forall b2 flat,
  (length b1 <= length b2)%nat ->
  embed_bits b2 (embed_bits b1 flat) = embed_bits b2 flat.
Proof.
  induction b1 as [|b b1 IH]; intros b2 flat Hlen; [reflexivity|].
  destruct b2 as [|c b2]; [simpl in Hlen; lia|].
  destruct flat as [|x flat]; [reflexivity|].
  simpl. rewrite embed_one_twice. f_equal. apply IH. simpl in Hlen. lia.
Qed.

(** X4. Hiding a second message in a stream that already carries one
    erases the first when the second has at least as many framed bits:
    the result is what hiding the second message in the original stream
    gives.  Hiding the same message twice changes nothing. *)
Theorem lsb_last_message_wins audio m1 m2 stego1 :
  wf_wav audio ->
  len (message_bits m1) <= len (message_bits m2) ->
  encode_lsb audio m1 = Ret (Some stego1) ->
  encode_lsb stego1 m2 = encode_lsb audio m2.
Proof.
  intros Hwf Hlen Henc. rewrite encode_lsb_eq in Henc by exact Hwf.
  destruct (len (message_bits m1) >? len (wav_frames audio)); [discriminate|].
  injection Henc as <-.
  rewrite !encode_lsb_eq by (exact Hwf || apply wf_wav_view_int16).
  rewrite uint16_view_of_view_int16
    by (apply embed_bits_uint16, Forall_uint16_view).
  cbn [wav_frames wav_params].
  replace (len (map view_int16
                  (embed_bits (message_bits m1) (uint16_view audio))))
    with (len (wav_frames audio))
    by (unfold len, uint16_view;
        now rewrite length_map, length_embed_bits, length_map).
  rewrite embed_bits_overwrite by (unfold len in Hlen; lia).
  reflexivity.
Qed.

Lemma lsb_last_message_wins_witness :
  encode_lsb {| wav_params := example_params;
                wav_frames := wav_frames lsb_example_stego ++ repeat 0 16 |}
             (lit "HI")
  = encode_lsb (silence 40) (lit "HI").
Proof.
  apply (lsb_last_message_wins (silence 40) (lit "") (lit "HI")).
  - apply wf_silence.
  - vm_compute. discriminate.
  - vm_compute. reflexivity.
Defined.

Lemma int2_bound_acc g : forall acc,
  (fold_left (fun a b => 2 * a + N.b2n b) g acc < (acc + 1) * 2 ^ N.of_nat (length g))%N.
Proof.
  induction g as [|b g IH]; intros acc.
  - simpl. lia.
  - cbn [fold_left length]. eapply N.lt_le_trans; [apply IH|].
    rewrite Nat2N.inj_succ, N.pow_succ_r'.
    generalize (2 ^ N.of_nat (length g))%N. intros P.
    destruct b; simpl N.b2n; nia.
Qed.

Lemma int2_byte g : (length g <= 8)%nat -> (int2 g < 256)%N.
Proof.
  intros H. unfold int2. eapply N.lt_le_trans; [apply int2_bound_acc|].
  rewrite N.add_0_l, N.mul_1_l. change 256%N with (2 ^ 8)%N.
  apply N.pow_le_mono_r; lia.
Qed.

Lemma Forall_firstn_skipn {A : Type} (P : A -> Prop) (n : nat) (l : list A) :
  Forall P l -> Forall P (firstn n l) /\ Forall P (skipn n l).
Proof.
  intros H. rewrite <- (firstn_skipn n l) in H. apply Forall_app in H. exact H.
Qed.

Lemma length_slice_le {A : Type} (l : list A) a b :
  0 <= a -> 0 <= b -> (length (slice l a b) <= Z.to_nat (b - a))%nat.
Proof.
  intros Ha Hb. unfold slice. rewrite length_firstn, length_skipn.
  unfold clamp, len.
  destruct (Z.ltb_spec a 0); [lia|].
  destruct (Z.ltb_spec b 0); lia.
Qed.

(** Every character the loop accumulates, and every character of what it
    returns, is an accepted byte value. *)
Lemma char_loop_chars reject bits (P : N -> Prop) :
  (forall v, (v < 256)%N -> reject v = false -> P v) ->
  forall idxs acc,
    Forall (fun i => 0 <= i) idxs -> Forall P acc ->
    match for_each (char_step reject bits) idxs acc with
    | inl a => Forall P a
    | inr r => Forall P r
    end.
Proof.
  intros HP. induction idxs as [|i idxs IH]; intros acc Hi Hacc; [exact Hacc|].
  apply Forall_cons_iff in Hi. destruct Hi as [Hi0 Hi].
  cbn [for_each]. unfold char_step.
  destruct (len (slice bits i (i + 8)) <? 8); [exact Hacc|].
  destruct (reject (int2 (slice bits i (i + 8)))) eqn:Hr; [exact Hacc|].
  assert (Hacc' : Forall P (acc ++ [int2 (slice bits i (i + 8))])).
  { apply Forall_app. split; [exact Hacc|]. constructor; [|constructor].
    apply HP; [|exact Hr]. apply int2_byte.
    pose proof (length_slice_le bits i (i + 8) Hi0 ltac:(lia)). lia. }
  destruct (endswith _ terminator).
  - unfold slice. apply Forall_firstn_skipn, Forall_firstn_skipn, Hacc'.
  - apply IH; assumption.
Qed.

Lemma range_from_nonneg n : forall s st,
  0 <= s -> 0 <= st -> Forall (fun i => 0 <= i) (range_from n s st).
Proof.
  induction n as [|n IH]; intros s st Hs Hst; simpl; constructor;
    [exact Hs | apply IH; lia].
Qed.

Lemma decode_chars_chars reject bits (P : N -> Prop) :
  (forall v, (v < 256)%N -> reject v = false -> P v) ->
  Forall P not_found ->
  Forall P (decode_chars reject bits).
Proof.
  intros HP Hnf. rewrite decode_chars_unfold.
  pose proof (char_loop_chars reject bits P HP (range3 0 (len bits) 8) []
                (range_from_nonneg _ 0 8 ltac:(lia) ltac:(lia))
                (Forall_nil _)) as H.
  destruct (for_each _ _ _); [exact Hnf | exact H].
Qed.

(** X7. Every character of the text [decode_lsb] returns has a code point
    from 1 to 255, on any stream. *)
Theorem decode_lsb_output_is_byte_valued stego :
  Forall (fun c => (0 < c < 256)%N) (decode_lsb stego).
Proof.
  unfold decode_lsb, read_wav_bytes. apply decode_chars_chars.
  - intros v Hv Hr. apply N.eqb_neq in Hr. lia.
  - unfold not_found. simpl. repeat constructor; lia.
Qed.

(** The loop runs out of bits before a terminator. *)
Lemma decode_chars_exhausted reject gs post :
  Forall (fun g => length g = 8%nat) gs ->
  Forall (fun g => reject (int2 g) = false) gs ->
  contains (map int2 gs) terminator = false ->
  (length post < 8)%nat ->
  decode_chars reject (concat gs ++ post) = not_found.
Proof.
  intros Hlen Hrej Hno Hpost.
  rewrite decode_chars_unfold.
  rewrite (run_groups_start reject gs _ post); auto.
  destruct post as [|b post].
  - reflexivity.
  - replace (Z.to_nat ((len (b :: post) + 7) / 8)) with 1%nat.
    2:{ rewrite len_cons. simpl in Hpost.
        assert (0 <= len post < 7) by (unfold len; lia).
        assert ((len post + 1 + 7) / 8 = 1); [|lia].
        symmetry. apply (Z.div_unique _ 8 1 (len post)); lia. }
    cbn [range_from for_each]. unfold char_step.
    set (a := len (concat gs)).
    assert (Hs : len (slice (concat gs ++ b :: post) a (a + 8)) < a + 8 - a).
    { apply len_slice_short.
      - unfold a. pose proof (len_nonneg (concat gs)). lia.
      - unfold a. rewrite len_app, len_cons. simpl in Hpost.
        unfold len at 2. lia. }
    replace (len (slice (concat gs ++ b :: post) a (a + 8)) <? 8) with true
      by (symmetry; apply Z.ltb_lt; lia).
    reflexivity.
Qed.

Lemma firstn_concat_groups {A : Type} (gs : list (list A)) : forall k,
  Forall (fun g => length g = 8%nat) gs ->
  (k < 8 * length gs)%nat ->
  exists q post,
    firstn k (concat gs) = concat (firstn q gs) ++ post
    /\ (q < length gs)%nat /\ (length post < 8)%nat.
Proof.
  induction gs as [|g gs IH]; intros k Hlen Hk; [simpl in Hk; lia|].
  apply Forall_cons_iff in Hlen. destruct Hlen as [Hg Hlen].
  cbn [concat]. rewrite firstn_app.
  destruct (Nat.lt_ge_cases k 8) as [Hlt|Hge].
  - exists 0%nat, (firstn k g). simpl.
    replace (k - length g)%nat with 0%nat by lia. simpl. rewrite app_nil_r.
    split; [reflexivity|]. split; [lia|]. rewrite length_firstn. lia.
  - destruct (IH (k - 8)%nat Hlen) as (q & post & Hf & Hq & Hp).
    { simpl in Hk. lia. }
    exists (S q), post. rewrite firstn_all2 by lia. rewrite Hg, Hf.
    cbn [firstn concat length]. rewrite <- app_assoc.
    split; [reflexivity|]. split; lia.
Qed.

Lemma is_byte_str_app s t : is_byte_str s -> is_byte_str t -> is_byte_str (s ++ t).
Proof. intros Hs Ht. apply Forall_app. split; assumption. Qed.

Lemma no_nul_app s t : no_nul s -> no_nul t -> no_nul (s ++ t).
Proof. intros Hs Ht. apply Forall_app. split; assumption. Qed.

Lemma terminator_bytes : is_byte_str terminator /\ no_nul terminator.
Proof. split; repeat constructor; discriminate. Qed.

(** A strict prefix of the framed bits of a message decodes to nothing. *)
Lemma decode_chars_truncated m k tail :
  is_byte_str m -> no_nul m ->
  contains m terminator = false -> endswith m (lit "#") = false ->
  (k < length (message_bits m))%nat ->
  decode_chars reject_lsb (firstn k (message_bits m ++ tail)) = not_found.
Proof.
  intros Hb Hn Hc He Hk.
  rewrite firstn_app. replace (k - length (message_bits m))%nat with 0%nat by lia.
  cbn [firstn]. rewrite app_nil_r.
  destruct terminator_bytes as [Htb Htn].
  pose proof (is_byte_str_app _ _ Hb Htb) as Hb'.
  pose proof (no_nul_app _ _ Hn Htn) as Hn'.
  destruct (groups_of_bytes (m ++ terminator) Hb') as (Hg8 & Hint & Hcat).
  unfold message_bits in *. cbv zeta in *. rewrite <- Hcat in *.
  destruct (firstn_concat_groups (map format_08b (m ++ terminator)) k Hg8)
    as (q & post & Hf & Hq & Hp).
  { rewrite (len_concat_groups _ Hg8) in Hk || idtac.
    pose proof (len_concat_groups _ Hg8) as Hl. unfold len in Hl. lia. }
  rewrite Hf. apply decode_chars_exhausted.
  - apply Forall_firstn_skipn, Hg8.
  - apply Forall_firstn_skipn, reject_lsb_accepts; assumption.
  - rewrite <- firstn_map, Hint.
    rewrite length_map, length_app in Hq. simpl in Hq.
    apply (contains_prefix _ (skipn q (m ++ [35; 35]%N))).
    replace (firstn q (m ++ terminator)) with (firstn q (m ++ [35; 35]%N)).
    + rewrite firstn_skipn. apply no_early_terminator; assumption.
    + change terminator with ([35; 35] ++ [35])%N. rewrite app_assoc.
      rewrite (firstn_app q (m ++ [35; 35]%N)).
      replace (q - length (m ++ [35; 35]%N))%nat with 0%nat
        by (rewrite length_app; simpl; lia).
      simpl. now rewrite app_nil_r.
  - exact Hp.
Qed.

Lemma encode_lsb_some audio m stego :
  wf_wav audio ->
  encode_lsb audio m = Ret (Some stego) ->
  len (message_bits m) <= len (wav_frames audio)
  /\ stego = {| wav_params := wav_params audio;
                wav_frames := map view_int16
                                (embed_bits (message_bits m)
                                            (uint16_view audio)) |}.
Proof.
  intros Hwf Henc. rewrite encode_lsb_eq in Henc by exact Hwf.
  destruct (Z.gtb_spec (len (message_bits m)) (len (wav_frames audio)));
    [discriminate|].
  injection Henc as <-. split; [assumption | reflexivity].
Qed.

Lemma repeat_hash_terminator k :
  repeat 35%N k ++ terminator = terminator ++ repeat 35%N k.
Proof.
  induction k as [|k IH]; [reflexivity|].
  cbn [repeat app]. rewrite IH. reflexivity.
Qed.

Lemma Forall_repeat {A : Type} (P : A -> Prop) x n : P x -> Forall P (repeat x n).
Proof. intros H. induction n; simpl; constructor; assumption. Qed.

(** X5. LSB round trip on byte-valued text: for [pre] with code points in
    1..255 that neither contains "###" nor ends in "#", the message [pre]
    followed by [k] characters "#" is encoded, and decodes to [pre].  With
    [k = 0] the message comes back unchanged; trailing "#" are lost. *)
Theorem lsb_round_trip_strips_hashes audio pre k :
  wf_wav audio ->
  is_byte_str pre -> no_nul pre ->
  contains pre terminator = false -> endswith pre (lit "#") = false ->
  8 * (len pre + Z.of_nat k + 3) <= len (wav_frames audio) ->
  exists stego,
    encode_lsb audio (pre ++ repeat 35%N k) = Ret (Some stego)
    /\ decode_lsb stego = pre.
Proof.
  intros Hwf Hb Hn Hc He Hcap.
  assert (Hbm : is_byte_str (pre ++ repeat 35%N k)).
  { apply Forall_app. split; [exact Hb|]. apply Forall_repeat. lia. }
  destruct (lsb_pipeline audio (pre ++ repeat 35%N k) Hwf)
    as (stego & Henc & _ & _ & _ & Hdec).
  { rewrite len_message_bits by exact Hbm. rewrite len_app.
    unfold len at 2. rewrite repeat_length. lia. }
  exists stego. split; [exact Henc|]. rewrite Hdec.
  unfold message_bits. rewrite <- app_assoc, repeat_hash_terminator.
  apply lsb_decode_first_terminator; auto.
  apply no_early_terminator; assumption.
Qed.

Lemma lsb_round_trip_strips_hashes_witness :
  (exists stego,
     encode_lsb (silence 48) [233; 35; 35]%N = Ret (Some stego)
     /\ decode_lsb stego = [233%N])
  /\ (exists stego,
        encode_lsb (silence 32) [233%N] = Ret (Some stego)
        /\ decode_lsb stego = [233%N]).
Proof.
  split.
  - apply (lsb_round_trip_strips_hashes (silence 48) [233%N] 2).
    + apply wf_silence.
    + repeat constructor.
    + repeat constructor; discriminate.
    + reflexivity.
    + reflexivity.
    + vm_compute. discriminate.
  - apply (lsb_round_trip_strips_hashes (silence 32) [233%N] 0).
    + apply wf_silence.
    + repeat constructor.
    + repeat constructor; discriminate.
    + reflexivity.
    + reflexivity.
    + vm_compute. discriminate.
Defined.

(** X6. A stego stream cut before the end of the terminator holds no
    message: [decode_lsb] on the first [k < 8*(len(m)+3)] frames returns
    "No hidden message found". *)
Theorem lsb_truncated_stego audio m stego k :
  wf_wav audio ->
  is_byte_str m -> no_nul m ->
  contains m terminator = false -> endswith m (lit "#") = false ->
  encode_lsb audio m = Ret (Some stego) ->
  0 <= k < 8 * (len m + 3) ->
  decode_lsb {| wav_params := wav_params stego;
                wav_frames := firstn (Z.to_nat k) (wav_frames stego) |}
  = not_found.
Proof.
  intros Hwf Hb Hn Hc He Henc Hk.
  destruct (encode_lsb_some audio m stego Hwf Henc) as [Hcap ->].
  cbn [wav_frames wav_params].
  rewrite decode_lsb_eq.
  2:{ unfold wf_wav. cbn [wav_frames].
      apply Forall_firstn_skipn. apply (wf_wav_view_int16 (wav_params audio)). }
  unfold uint16_view at 1. cbn [wav_frames].
  rewrite <- !firstn_map.
  change (map view_uint16 (map view_int16 ?l))
    with (uint16_view {| wav_params := wav_params audio;
                         wav_frames := map view_int16 l |}).
  rewrite uint16_view_of_view_int16
    by (apply embed_bits_uint16, Forall_uint16_view).
  rewrite lsb_embed_bits;
    [| apply Forall_uint16_view
     | unfold uint16_view; rewrite length_map; unfold len in Hcap; lia].
  apply (decode_chars_truncated m); auto.
  pose proof (len_message_bits m Hb) as Hl. unfold len in Hl, Hk. lia.
Qed.

Lemma lsb_truncated_stego_witness :
  decode_lsb {| wav_params := wav_params lsb_example_stego;
                wav_frames := firstn (Z.to_nat 23) (wav_frames lsb_example_stego) |}
  = not_found.
Proof.
  apply (lsb_truncated_stego (silence 24) (lit "") lsb_example_stego 23).
  - apply wf_silence.
  - constructor.
  - constructor.
  - reflexivity.
  - reflexivity.
  - vm_compute. reflexivity.
  - vm_compute. split; [discriminate | reflexivity].
Defined.

Lemma firstn_eq_length {A : Type} (l m : list A) :
  firstn (length m) l = m -> (length m <= length l)%nat.
Proof.
  intros H. apply (f_equal (@length A)) in H. rewrite length_firstn in H. lia.
Qed.

(** X8. What [decode_lsb] returns was in the stream: when the result [r]
    is not "No hidden message found", the low bits of the first frames are
    the framed bits of [r], and the stream has at least [8*(len(r)+3)]
    frames. *)
Theorem decode_lsb_sound stego r :
  wf_wav stego ->
  decode_lsb stego = r -> r <> not_found ->
  firstn (length (message_bits r)) (lsb_bits stego) = message_bits r
  /\ 8 * (len r + 3) <= len (wav_frames stego).
Proof.
  intros Hwf Hdec Hnf. rewrite decode_lsb_eq in Hdec by exact Hwf.
  pose proof (decode_chars_prefix _ _ _ Hdec Hnf) as Hpre.
  split; [exact Hpre|].
  pose proof (len_message_bits_ge r) as Hge.
  apply firstn_eq_length in Hpre.
  unfold uint16_view in Hpre. rewrite !length_map in Hpre.
  unfold len in *. lia.
Qed.

Lemma decode_lsb_sound_witness :
  firstn (length (message_bits (lit ""))) (lsb_bits lsb_example_stego)
  = message_bits (lit "")
  /\ 8 * (len (lit "") + 3) <= len (wav_frames lsb_example_stego).
Proof.
  apply (decode_lsb_sound lsb_example_stego (lit "")).
  - repeat constructor; unfold is_int16; lia.
  - vm_compute. reflexivity.
  - discriminate.
Defined.

(** X9. A stream of fewer than 24 frames, the empty one included, decodes
    to "No hidden message found". *)
Theorem decode_lsb_short_buffer stego :
  len (wav_frames stego) < 24 -> decode_lsb stego = not_found.
Proof.
  intros Hshort.
  destruct (list_eq_dec N.eq_dec (decode_lsb stego) not_found) as [|Hnf];
    [assumption|exfalso].
  unfold decode_lsb, read_wav_bytes in Hnf.
  pose proof (decode_chars_prefix _ _ _ eq_refl Hnf) as Hpre.
  apply firstn_eq_length in Hpre. rename Hpre into Hlen.
  rewrite !length_map in Hlen.
  match type of Hlen with
  | (length (message_bits ?r) <= _)%nat =>
      pose proof (len_message_bits_ge r) as Hge; pose proof (len_nonneg r)
  end.
  unfold len in *. lia.
Qed.

Lemma decode_lsb_short_buffer_witness :
  decode_lsb {| wav_params := example_params;
                wav_frames := firstn 23 (wav_frames lsb_example_stego) |}
  = not_found
  /\ decode_lsb (silence 0) = not_found.
Proof.
  split.
  - apply decode_lsb_short_buffer. vm_compute. reflexivity.
  - apply decode_lsb_short_buffer. vm_compute. reflexivity.
Defined.

Lemma embed_lsb_same u :
  is_uint16 u -> Z.lor (Z.land u 65534) (Z.b2z (lsb u)) = u.
Proof.
  intros Hu. apply Z.eqb_eq.
  apply (forall_range_from
           (fun u => Z.lor (Z.land u 65534) (Z.b2z (lsb u)) =? u)
           (Z.to_nat 65536) 0).
  - vm_compute. reflexivity.
  - unfold is_uint16 in Hu. lia.
Qed.

Lemma embed_bits_same bits : forall flat,
  Forall is_uint16 flat ->
  firstn (length bits) (map lsb flat) = bits ->
  embed_bits bits flat = flat.
Proof.
  induction bits as [|b bits IH]; intros flat Hu Hpre; [reflexivity|].
  destruct Hu as [|x flat Hx Hu]; [discriminate|].
  simpl in Hpre. injection Hpre as <- Hpre.
  simpl. rewrite embed_lsb_same by exact Hx. f_equal. apply IH; assumption.
Qed.

(** X10. Hiding the decoded message again changes nothing: when
    [decode_lsb stego] is a message [r], [encode_lsb stego r] returns
    [stego] itself. *)
Theorem lsb_reencode_decoded stego r :
  wf_wav stego ->
  decode_lsb stego = r -> r <> not_found ->
  encode_lsb stego r = Ret (Some stego).
Proof.
  intros Hwf Hdec Hnf. rewrite decode_lsb_eq in Hdec by exact Hwf.
  pose proof (decode_chars_prefix _ _ _ Hdec Hnf) as Hpre.
  assert (Hlen : (length (message_bits r) <= length (wav_frames stego))%nat).
  { pose proof (firstn_eq_length _ _ Hpre) as H.
    unfold uint16_view in H. rewrite !length_map in H. exact H. }
  rewrite encode_lsb_eq by exact Hwf.
  replace (len (message_bits r) >? len (wav_frames stego)) with false
    by (symmetry; rewrite Z.gtb_ltb; apply Z.ltb_ge; unfold len; lia).
  rewrite embed_bits_same; [| apply Forall_uint16_view | exact Hpre].
  unfold uint16_view. rewrite map_map.
  rewrite (map_id_on _ is_int16); [now rewrite wav_eta | | exact Hwf].
  intros z Hz. apply view_int16_uint16, Hz.
Qed.

Lemma lsb_reencode_decoded_witness :
  encode_lsb lsb_example_stego (lit "") = Ret (Some lsb_example_stego).
Proof.
  apply (lsb_reencode_decoded lsb_example_stego (lit "")).
  - repeat constructor; unfold is_int16; lia.
  - vm_compute. reflexivity.
  - discriminate.
Defined.

Lemma length_flat_map_format_wide (s : str) :
  Exists (fun c => (256 <= c)%N) s ->
  (8 * length s < length (flat_map format_08b s))%nat.
Proof.
  induction 1 as [c s Hc | c s _ IH]; simpl; rewrite length_app.
  - pose proof (format_08b_wide c Hc).
    pose proof (length_flat_map_format_ge s). lia.
  - pose proof (length_format_08b_ge c). lia.
Qed.

(** X11. A message with a code point above 255 needs more than
    [8*(len(m)+3)] samples: a buffer of at most that many is refused with
    [None]. *)
Theorem lsb_wide_character_capacity audio m :
  Exists (fun c => (256 <= c)%N) m ->
  len (wav_frames audio) <= 8 * (len m + 3) ->
  encode_lsb audio m = Ret None.
Proof.
  intros Hw Hlen. rewrite encode_lsb_cases.
  replace (len (message_bits m) >? len (wav_frames audio)) with true;
    [reflexivity|].
  symmetry. rewrite Z.gtb_ltb. apply Z.ltb_lt.
  assert (Hm : (8 * length (m ++ terminator)
                < length (flat_map format_08b (m ++ terminator)))%nat).
  { apply length_flat_map_format_wide. apply Exists_app. left. exact Hw. }
  rewrite length_app in Hm. simpl length in Hm.
  unfold message_bits, len in *. lia.
Qed.

Lemma lsb_wide_character_capacity_witness :
  encode_lsb (silence 32) [8364%N] = Ret None.
Proof.
  apply (lsb_wide_character_capacity (silence 32) [8364%N]).
  - constructor. lia.
  - vm_compute. discriminate.
Defined.

(* ===================================================================== *)
(** * Echo hiding: further properties of the decoder *)
(* ===================================================================== *)

Lemma decode_echo_eq original stego d0 d1 :
  0 <= d0 -> 0 <= d1 ->
  let o := map f32_of_Z (wav_frames original) in
  let s := map f32_of_Z (wav_frames stego) in
  let n := (Z.min (len (wav_frames original)) (len (wav_frames stego))
            - Z.max d0 d1) / chunk_size in
  decode_echo_simple original stego d0 d1
  = Ret (decode_chars reject_echo
           (map ci_bit (map (chunk_vote o s d0 d1) (range n))),
         map (chunk_vote o s d0 d1) (range n),
         map ci_bit (map (chunk_vote o s d0 d1) (range n))).
Proof.
  intros H0 H1 o s n.
  unfold decode_echo_simple, read_wav_bytes. fold o s.
  rewrite correlate_chunks_eq by assumption. cbn [bind].
  replace (len o) with (len (wav_frames original))
    by (unfold o, len; now rewrite length_map).
  replace (len s) with (len (wav_frames stego))
    by (unfold s, len; now rewrite length_map).
  fold n. rewrite !map_map. reflexivity.
Qed.

Lemma int2_repeat_false n : int2 (repeat false n) = 0%N.
Proof. unfold int2. induction n as [|n IH]; [reflexivity | exact IH]. Qed.

(** A bitstream of zeros holds no message. *)
Lemma decode_chars_all_false reject bits :
  reject 0%N = true -> Forall (eq false) bits ->
  decode_chars reject bits = not_found.
Proof.
  intros Hr Hb. apply Forall_eq_repeat in Hb.
  destruct (Nat.lt_ge_cases (length bits) 8) as [Hlt|Hge].
  - apply (decode_chars_exhausted reject [] bits); auto.
  - rewrite Hb.
    replace (length bits) with (8 + (length bits - 8))%nat by lia.
    rewrite repeat_app.
    apply (decode_chars_rejected reject [] (repeat false 8)); auto.
    repeat constructor.
Qed.

(** X17. With [d0 = d1] the two correlations of every chunk are the same
    number, every bit is 0 and the text is "No hidden message found",
    whatever the two streams. *)
Theorem echo_decode_equal_delays original stego d :
  0 <= d ->
  exists debug_info,
    decode_echo_simple original stego d d
    = Ret (not_found, debug_info, map ci_bit debug_info)
    /\ Forall (fun v => ci_corr_d1 v = ci_corr_d0 v /\ ci_bit v = false)
              debug_info.
Proof.
  intros Hd. rewrite decode_echo_eq by assumption.
  set (o := map f32_of_Z (wav_frames original)).
  set (s := map f32_of_Z (wav_frames stego)).
  set (di := map (chunk_vote o s d d) _).
  assert (Hdi : Forall (fun v => ci_corr_d1 v = ci_corr_d0 v /\ ci_bit v = false)
                       di).
  { apply Forall_forall. intros v Hv. apply in_map_iff in Hv.
    destruct Hv as [i [<- _]]. cbn [chunk_vote ci_corr_d0 ci_corr_d1 ci_bit].
    split; [reflexivity | apply f32_gtb_irrefl]. }
  exists di. split; [|exact Hdi].
  rewrite decode_chars_all_false; [reflexivity | reflexivity |].
  apply Forall_forall. intros b Hb. apply in_map_iff in Hb.
  destruct Hb as [v [<- Hv]].
  rewrite Forall_forall in Hdi. symmetry. apply (Hdi v Hv).
Qed.

Lemma echo_decode_equal_delays_witness :
  exists debug_info,
    decode_echo_simple pulse_train (silence 262600) 200 200
    = Ret (not_found, debug_info, map ci_bit debug_info)
    /\ Forall (fun v => ci_corr_d1 v = ci_corr_d0 v /\ ci_bit v = false)
              debug_info.
Proof. apply (echo_decode_equal_delays pulse_train (silence 262600) 200). lia. Defined.

(** X19. Every character of the text [decode_echo_simple] returns has a
    code point from 1 to 127. *)
Theorem echo_decode_output_is_ascii original stego d0 d1 msg debug_info bits :
  decode_echo_simple original stego d0 d1 = Ret (msg, debug_info, bits) ->
  Forall (fun c => (0 < c < 128)%N) msg.
Proof.
  unfold decode_echo_simple, read_wav_bytes.
  destruct (correlate_chunks _ _ d0 d1) as [e|[bs di]]; [discriminate|].
  cbn [bind]. intros [= <- _ _].
  apply decode_chars_chars.
  - intros v _ Hr. apply orb_false_iff in Hr. destruct Hr as [Hz Hhi].
    apply N.eqb_neq in Hz. apply N.ltb_ge in Hhi. lia.
  - unfold not_found. simpl. repeat constructor; lia.
Qed.

Lemma echo_decode_output_is_ascii_witness :
  Forall (fun c => (0 < c < 128)%N) not_found.
Proof.
  apply (echo_decode_output_is_ascii (silence 100) (silence 100) 200 400
           not_found [] []).
  vm_compute. reflexivity.
Defined.

(** X18. Two streams of which the shorter has fewer than
    [24*8192 + max(d0, d1)] samples give fewer than 24 bits and the text
    "No hidden message found". *)
Theorem echo_decode_short_recording original stego d0 d1 :
  0 <= d0 -> 0 <= d1 ->
  Z.min (len (wav_frames original)) (len (wav_frames stego))
  < 24 * chunk_size + Z.max d0 d1 ->
  exists debug_info bits,
    decode_echo_simple original stego d0 d1 = Ret (not_found, debug_info, bits)
    /\ len bits < 24.
Proof.
  intros H0 H1 Hshort. rewrite decode_echo_eq by assumption.
  set (o := map f32_of_Z (wav_frames original)).
  set (s := map f32_of_Z (wav_frames stego)).
  set (n := (_ - _) / chunk_size).
  set (bits := map ci_bit _).
  assert (Hn : n < 24).
  { unfold n. apply Z.div_lt_upper_bound; unfold chunk_size in *; lia. }
  assert (Hlen : len bits < 24).
  { unfold bits, len. rewrite !length_map, length_range. lia. }
  exists (map (chunk_vote o s d0 d1) (range n)), bits.
  split; [|exact Hlen]. do 3 f_equal.
  destruct (list_eq_dec N.eq_dec (decode_chars reject_echo bits) not_found)
    as [|Hnf]; [assumption|exfalso].
  pose proof (decode_chars_prefix _ _ _ eq_refl Hnf) as Hpre.
  apply firstn_eq_length in Hpre.
  match type of Hpre with
  | (length (message_bits ?r) <= _)%nat =>
      pose proof (len_message_bits_ge r) as Hge; pose proof (len_nonneg r)
  end.
  unfold len in *. lia.
Qed.

Lemma echo_decode_short_recording_witness :
  exists debug_info bits,
    decode_echo_simple (silence 197007) (silence 262600) 200 400
    = Ret (not_found, debug_info, bits)
    /\ len bits < 24.
Proof.
  apply (echo_decode_short_recording (silence 197007) (silence 262600) 200 400).
  - lia.
  - lia.
  - vm_compute. reflexivity.
Defined.

Lemma f32_of_int16_cases z :
  is_int16 z ->
  f32_of_Z z = fzero \/ exists s m e, f32_of_Z z = S754_finite s m e.
Proof.
  intros H.
  assert (Hb : match f32_of_Z z with
               | S754_zero false | S754_finite _ _ _ => true
               | _ => false
               end = true).
  { apply (forall_range_from
             (fun z => match f32_of_Z z with
                       | S754_zero false | S754_finite _ _ _ => true
                       | _ => false
                       end)
             (Z.to_nat 65536) (-32768)).
    - vm_compute. reflexivity.
    - unfold is_int16 in H. lia. }
  destruct (f32_of_Z z) as [[|]| | |s m e]; try discriminate;
    [left; reflexivity | right; eauto].
Qed.

Lemma f32_of_int16_finite z : is_int16 z -> f32_is_finite (f32_of_Z z) = true.
Proof.
  intros H. destruct (f32_of_int16_cases z H) as [-> | (s & m & e & ->)];
    reflexivity.
Qed.

Lemma f32_sub_self x : f32_is_finite x = true -> f32_sub x x = fzero.
Proof.
  destruct x as [[|]|s| |s m e]; try discriminate; intros _;
    try reflexivity.
  unfold f32_sub, SFsub. cbv zeta. rewrite Z.sub_diag. reflexivity.
Qed.

Lemma f32_mul_zero_r x y :
  f32_is_finite x = true -> f32_is_zero y = true ->
  f32_is_zero (f32_mul x y) = true.
Proof. destruct x, y; try discriminate; reflexivity. Qed.

Lemma f32_mul_zero_l x y :
  f32_is_zero x = true -> f32_is_finite y = true ->
  f32_is_zero (f32_mul x y) = true.
Proof. destruct x, y; try discriminate; reflexivity. Qed.

Lemma f32_add_zeros x y :
  f32_is_zero x = true -> f32_is_zero y = true ->
  f32_is_zero (f32_add x y) = true.
Proof.
  destruct x as [[|]| | |], y as [[|]| | |]; try discriminate; reflexivity.
Qed.

Lemma f32_add_zero_int16 z y :
  is_int16 z -> f32_is_zero y = true -> f32_add (f32_of_Z z) y = f32_of_Z z.
Proof.
  intros Hz Hy. destruct y as [s| | |]; try discriminate.
  destruct (f32_of_int16_cases z Hz) as [-> | (s' & m & e & ->)].
  - destruct s; reflexivity.
  - reflexivity.
Qed.

(** The recursion of [pairwise_sum] stops before the fuel does. *)
Lemma pairwise_sum_fuel f1 : forall f2 a,
  (length a <= f1)%nat -> (length a <= f2)%nat ->
  pairwise_sum f1 a = pairwise_sum f2 a.
Proof.
  induction f1 as [|f1 IH]; intros f2 a H1 H2.
  - destruct a; [|simpl in H1; lia]. destruct f2; reflexivity.
  - destruct f2 as [|f2].
    + destruct a; [|simpl in H2; lia]. reflexivity.
    + cbn [pairwise_sum].
      destruct (Nat.ltb_spec (length a) 8); [reflexivity|].
      destruct (Nat.leb_spec (length a) 128); [reflexivity|].
      set (n := length a) in *.
      assert (Hd : (n / 2 <= n - 65)%nat).
      { pose proof (Nat.div_mod_eq n 2).
        pose proof (Nat.mod_upper_bound n 2 ltac:(lia)). lia. }
      assert (Hm : ((n / 2) mod 8 < 8)%nat) by (apply Nat.mod_upper_bound; lia).
      assert (Hm' : ((n / 2) mod 8 <= n / 2)%nat) by (apply Nat.Div0.mod_le).
      assert (Hq : (57 <= n / 2)%nat).
      { pose proof (Nat.div_mod_eq n 2).
        pose proof (Nat.mod_upper_bound n 2 ltac:(lia)). lia. }
      f_equal; apply IH; rewrite ?length_firstn, ?length_skipn; fold n; lia.
Qed.

(** ** Sums in which at most one term is not a zero

    Whatever the order of the additions, such a sum is that term, or a
    zero when there is none. *)

Section SparseSums.
Variables (s : bool) (m : positive) (e : Z).

Let x : f32 := S754_finite s m e.

(** How many elements are not a zero. *)
Let nz (l : list f32) : nat :=
  length (filter (fun v => negb (f32_is_zero v)) l).

(** Zeros and [x] only. *)
Let sparse (l : list f32) : Prop :=
  Forall (fun v => f32_is_zero v = true \/ v = x) l.

(** [v] is a zero ([c = 0]) or [x] ([c = 1]). *)
Let good (v : f32) (c : nat) : Prop :=
  (c = 0%nat /\ f32_is_zero v = true) \/ (c = 1%nat /\ v = x).

Lemma nz_app l1 l2 : nz (l1 ++ l2) = (nz l1 + nz l2)%nat.
Proof. unfold nz. now rewrite filter_app, length_app. Qed.

Lemma nz_split k l : (nz (firstn k l) + nz (skipn k l))%nat = nz l.
Proof. rewrite <- nz_app, firstn_skipn. reflexivity. Qed.

Lemma nz_cons v l :
  nz (v :: l) = ((if f32_is_zero v then 0 else 1) + nz l)%nat.
Proof. unfold nz. cbn [filter]. destruct (f32_is_zero v); reflexivity. Qed.

Lemma sparse_split k l : sparse l -> sparse (firstn k l) /\ sparse (skipn k l).
Proof. apply Forall_firstn_skipn. Qed.

Lemma good_elem v :
  f32_is_zero v = true \/ v = x -> good v (if f32_is_zero v then 0 else 1).
Proof.
  intros [Hz | ->].
  - rewrite Hz. left. auto.
  - right. auto.
Qed.

Lemma good_add u a v b :
  good u a -> good v b -> (a + b <= 1)%nat -> good (f32_add u v) (a + b).
Proof.
  intros [[-> Hu] | [-> ->]] [[-> Hv] | [-> ->]] Hab; try lia.
  - left. split; [reflexivity | apply f32_add_zeros; assumption].
  - right. split; [reflexivity|]. destruct u; try discriminate. reflexivity.
  - right. split; [reflexivity|]. destruct v; try discriminate. reflexivity.
Qed.

Lemma good_sum_from l : forall acc a,
  good acc a -> sparse l -> (a + nz l <= 1)%nat ->
  good (sum_from acc l) (a + nz l).
Proof.
  unfold sum_from.
  induction l as [|v l IH]; intros acc a Hacc Hl Hc.
  - cbn [fold_left]. change (nz []) with 0%nat. now rewrite Nat.add_0_r.
  - apply Forall_cons_iff in Hl. destruct Hl as [Hv Hl].
    rewrite nz_cons in *. cbn [fold_left].
    rewrite Nat.add_assoc. apply IH; [|exact Hl|lia].
    apply good_add; [exact Hacc | apply good_elem, Hv | lia].
Qed.

Lemma good_map2 r : forall g,
  length r = length g -> sparse r -> sparse g -> (nz r + nz g <= 1)%nat ->
  sparse (map2 f32_add r g)
  /\ nz (map2 f32_add r g) = (nz r + nz g)%nat
  /\ length (map2 f32_add r g) = length r.
Proof.
  induction r as [|u r IH]; intros [|v g] Hlen Hr Hg Hc; try discriminate.
  - repeat split. constructor.
  - apply Forall_cons_iff in Hr. destruct Hr as [Hu Hr].
    apply Forall_cons_iff in Hg. destruct Hg as [Hv Hg].
    rewrite !nz_cons in Hc. simpl in Hlen.
    destruct (IH g) as (Hs & Hn & Hl); [lia | assumption | assumption | lia |].
    cbn [map2 length]. rewrite !nz_cons, Hn, Hl.
    pose proof (good_add _ _ _ _ (good_elem u Hu) (good_elem v Hv)
                  ltac:(lia)) as Hadd.
    split; [|split; [|reflexivity]].
    + constructor; [|exact Hs].
      destruct Hadd as [[_ Hz] | [_ Hx]]; [left | right]; assumption.
    + destruct Hadd as [[Hc0 Hz] | [Hc1 Hx]].
      * rewrite Hz. lia.
      * rewrite Hx. change (f32_is_zero x) with false. cbv iota. lia.
Qed.

Lemma good_add_groups k : forall r a,
  length r = 8%nat -> (8 * k <= length a)%nat ->
  sparse r -> sparse a -> (nz r + nz a <= 1)%nat ->
  length (fst (add_groups k r a)) = 8%nat
  /\ sparse (fst (add_groups k r a))
  /\ sparse (snd (add_groups k r a))
  /\ (nz (fst (add_groups k r a)) + nz (snd (add_groups k r a)))%nat
     = (nz r + nz a)%nat.
Proof.
  induction k as [|k IH]; intros r a Hr Ha Sr Sa Hc.
  - cbn [add_groups fst snd]. auto.
  - cbn [add_groups].
    destruct (sparse_split 8 a Sa) as [S1 S2].
    pose proof (nz_split 8 a) as Hn.
    destruct (good_map2 r (firstn 8 a)) as (Hs & Hz & Hl);
      [rewrite length_firstn; lia | assumption | assumption | lia |].
    destruct (IH (map2 f32_add r (firstn 8 a)) (skipn 8 a))
      as (H1 & H2 & H3 & H4);
      [lia | rewrite length_skipn; lia | assumption | assumption | lia |].
    repeat split; try assumption. lia.
Qed.

Lemma good_block_sum a :
  sparse a -> (nz a <= 1)%nat -> good (block_sum a) (nz a).
Proof.
  intros Sa Hc. unfold block_sum.
  assert (Hzero : good (S754_zero false) 0) by (left; auto).
  destruct (Nat.lt_ge_cases (length a) 8) as [Hlt|Hge].
  - (* fewer than eight elements: the accumulators are not all there *)
    destruct (add_groups _ _ _) as [r rest] eqn:Hag.
    assert (Hfall : good (sum_from (S754_zero false) a) (nz a))
      by (apply (good_sum_from a _ 0%nat); auto).
    assert (Hr : (length r < 8)%nat).
    { replace (length a / 8 - 1)%nat with 0%nat in Hag
        by (rewrite Nat.div_small by lia; reflexivity).
      apply (f_equal fst) in Hag. cbn [add_groups fst] in Hag. subst r.
      rewrite length_firstn. lia. }
    do 8 (destruct r as [|? r]; [exact Hfall|]). simpl in Hr. lia.
  - destruct (sparse_split 8 a Sa) as [S1 S2].
    pose proof (nz_split 8 a) as Hn.
    destruct (good_add_groups (length a / 8 - 1) (firstn 8 a) (skipn 8 a))
      as (Hl & Sr & Srest & Hcnt);
      [rewrite length_firstn; lia
      | rewrite length_skipn;
        pose proof (Nat.div_mod_eq (length a) 8); lia
      | assumption | assumption | lia |].
    destruct (add_groups _ _ _) as [r rest]. cbn [fst snd] in *.
    destruct r as [|r0 [|r1 [|r2 [|r3 [|r4 [|r5 [|r6 [|r7 [|r8 r]]]]]]]]];
      try discriminate Hl.
    unfold sparse in Sr.
    repeat (apply Forall_cons_iff in Sr; destruct Sr as [? Sr]).
    rewrite !nz_cons in Hcnt. change (nz []) with 0%nat in Hcnt.
    replace (nz a) with
      ((((if f32_is_zero r0 then 0 else 1) + (if f32_is_zero r1 then 0 else 1)
         + ((if f32_is_zero r2 then 0 else 1) + (if f32_is_zero r3 then 0 else 1)))
        + (((if f32_is_zero r4 then 0 else 1) + (if f32_is_zero r5 then 0 else 1))
           + ((if f32_is_zero r6 then 0 else 1) + (if f32_is_zero r7 then 0 else 1))))
       + nz rest)%nat by lia.
    apply good_sum_from; [|exact Srest|lia].
    repeat (apply good_add; [| |lia]); apply good_elem; assumption.
Qed.

Lemma good_pairwise_sum fuel : forall a,
  sparse a -> (nz a <= 1)%nat -> good (pairwise_sum fuel a) (nz a).
Proof.
  induction fuel as [|fuel IH]; intros a Sa Hc; cbn [pairwise_sum].
  - destruct (length a <? 8)%nat.
    + apply (good_sum_from a _ 0%nat); auto. left; auto.
    + destruct (length a <=? 128)%nat; apply good_block_sum; assumption.
  - destruct (length a <? 8)%nat.
    + apply (good_sum_from a _ 0%nat); auto. left; auto.
    + destruct (length a <=? 128)%nat; [apply good_block_sum; assumption|].
      set (n2 := (length a / 2 - (length a / 2) mod 8)%nat).
      destruct (sparse_split n2 a Sa) as [S1 S2].
      pose proof (nz_split n2 a) as Hn.
      rewrite <- Hn. apply good_add; [apply IH | apply IH | ]; try assumption; lia.
Qed.

Lemma good_np_sum a :
  sparse a -> (nz a <= 1)%nat -> good (np_sum a) (nz a).
Proof.
  intros Sa Hc. unfold np_sum.
  apply (good_add (S754_zero false) 0%nat); [left; auto | | exact Hc].
  apply good_pairwise_sum; assumption.
Qed.

(** A sum of zeros is a zero. *)
Lemma np_sum_zeros_is_zero l :
  Forall (fun v => f32_is_zero v = true) l -> f32_is_zero (np_sum l) = true.
Proof.
  intros Hl.
  assert (Hn : nz l = 0%nat).
  { unfold nz. induction Hl as [|v l Hv _ IH]; [reflexivity|].
    cbn [filter]. rewrite Hv. exact IH. }
  destruct (good_np_sum l) as [[_ Hz] | [H1 _]].
  - eapply Forall_impl; [|exact Hl]. intros v Hv. left. exact Hv.
  - lia.
  - exact Hz.
  - lia.
Qed.

(** A finite number followed by zeros sums to that number. *)
Lemma np_sum_head_is_sum l :
  Forall (fun v => f32_is_zero v = true) l -> np_sum (x :: l) = x.
Proof.
  intros Hl.
  assert (Hn : nz (x :: l) = 1%nat).
  { rewrite nz_cons. change (f32_is_zero x) with false.
    unfold nz. induction Hl as [|v l Hv _ IH]; [reflexivity|].
    cbn [filter]. rewrite Hv. exact IH. }
  destruct (good_np_sum (x :: l)) as [[H0 _] | [_ Hx]].
  - constructor; [right; reflexivity|].
    eapply Forall_impl; [|exact Hl]. intros v Hv. left. exact Hv.
  - lia.
  - lia.
  - exact Hx.
Qed.

End SparseSums.

Lemma np_sum_zeros l :
  Forall (fun x => f32_is_zero x = true) l -> f32_abs (np_sum l) = fzero.
Proof.
  intros Hl. pose proof (np_sum_zeros_is_zero false 1 0 l Hl) as Hz.
  destruct (np_sum l); try discriminate. reflexivity.
Qed.

Lemma Forall_map2 {A B C : Type} (f : A -> B -> C)
      (P : A -> Prop) (Q : B -> Prop) (R : C -> Prop) x : forall y,
  (forall a b, P a -> Q b -> R (f a b)) ->
  Forall P x -> Forall Q y -> Forall R (map2 f x y).
Proof.
  induction x as [|a x IH]; intros [|b y] Hf Hx Hy; simpl; try constructor.
  - apply Hf; [now inversion Hx | now inversion Hy].
  - apply IH; [exact Hf | now inversion Hx | now inversion Hy].
Qed.

Lemma Forall_map2_diag {A C : Type} (f : A -> A -> C)
      (P : A -> Prop) (R : C -> Prop) x :
  (forall a, P a -> R (f a a)) -> Forall P x -> Forall R (map2 f x x).
Proof.
  intros Hf Hx. induction Hx as [|a x Ha _ IH]; simpl; constructor; auto.
Qed.

Lemma Forall_slice {A : Type} (P : A -> Prop) (l : list A) a b :
  Forall P l -> Forall P (slice l a b).
Proof. intros H. unfold slice. apply Forall_firstn_skipn, Forall_firstn_skipn, H. Qed.

Lemma Forall_finite_samples frames :
  Forall is_int16 frames ->
  Forall (fun x => f32_is_finite x = true) (map f32_of_Z frames).
Proof.
  intros H. apply Forall_map. eapply Forall_impl; [|exact H].
  apply f32_of_int16_finite.
Qed.

(** Without a difference between the two streams every correlation is
    [+0.0]. *)
Lemma chunk_corr_same o max_delay i d :
  Forall (fun x => f32_is_finite x = true) o ->
  chunk_corr o o max_delay i d = fzero.
Proof.
  intros Ho. unfold chunk_corr. apply np_sum_zeros.
  apply (Forall_map2 f32_mul (fun x => f32_is_finite x = true)
                     (fun y => f32_is_zero y = true)).
  - intros a b. apply f32_mul_zero_r.
  - apply Forall_slice, Ho.
  - apply Forall_slice.
    apply (Forall_map2_diag f32_sub (fun x => f32_is_finite x = true)).
    + intros a Ha. now rewrite f32_sub_self.
    + apply Forall_slice, Ho.
Qed.

Lemma chunk_vote_same o d0 d1 i :
  Forall (fun x => f32_is_finite x = true) o ->
  chunk_vote o o d0 d1 i = null_entry i.
Proof.
  intros Ho. unfold chunk_vote. rewrite !chunk_corr_same by exact Ho.
  reflexivity.
Qed.

Lemma decode_echo_same audio d0 d1 :
  wf_wav audio -> 0 <= d0 -> 0 <= d1 ->
  decode_echo_simple audio audio d0 d1
  = Ret (not_found,
         map null_entry
             (range ((len (wav_frames audio) - Z.max d0 d1) / chunk_size)),
         map (fun _ => false)
             (range ((len (wav_frames audio) - Z.max d0 d1) / chunk_size))).
Proof.
  intros Hwf H0 H1. rewrite decode_echo_eq by assumption. rewrite Z.min_id.
  rewrite (map_ext_in _ null_entry).
  2:{ intros i _. apply chunk_vote_same, Forall_finite_samples, Hwf. }
  rewrite map_map. cbn [null_entry ci_bit].
  rewrite decode_chars_all_false; [reflexivity | reflexivity |].
  apply Forall_forall. intros b Hb. apply in_map_iff in Hb.
  destruct Hb as [i [<- _]]. reflexivity.
Qed.

(** X16. Decoding a stream against itself: every correlation is [+0.0],
    every bit is 0 and the text is "No hidden message found". *)
Theorem echo_decode_unmodified audio d0 d1 :
  wf_wav audio -> 0 <= d0 -> 0 <= d1 ->
  let n := (len (wav_frames audio) - Z.max d0 d1) / chunk_size in
  decode_echo_simple audio audio d0 d1
  = Ret (not_found, map null_entry (range n), map (fun _ => false) (range n)).
Proof. intros Hwf H0 H1 n. apply decode_echo_same; assumption. Qed.

Lemma echo_decode_unmodified_witness :
  decode_echo_simple
    {| wav_params := example_params;
       wav_frames := repeat 1000 (Z.to_nat 16784) |}
    {| wav_params := example_params;
       wav_frames := repeat 1000 (Z.to_nat 16784) |} 200 400
  = Ret (not_found, [null_entry 0; null_entry 1], [false; false]).
Proof.
  apply (echo_decode_unmodified
           {| wav_params := example_params;
              wav_frames := repeat 1000 (Z.to_nat 16784) |} 200 400).
  - apply Forall_repeat. unfold is_int16. lia.
  - lia.
  - lia.
Defined.

(* ===================================================================== *)
(** * Echo hiding: further properties of the encoder *)
(* ===================================================================== *)

(** Echo terms that are all zero leave an int16-valued sample as it
    is. *)
Lemma echo_spec_zero_terms alpha samples d0 d1 ibits j z :
  is_int16 z ->
  (forall k, f32_is_zero (f32_mul alpha (sample_at samples k)) = true) ->
  echo_spec alpha samples d0 d1 ibits j (f32_of_Z z) = f32_of_Z z.
Proof.
  intros Hz Hk. unfold echo_spec.
  induction ibits as [|[i b] ibits IH]; [reflexivity|].
  cbn [fold_left]. cbv zeta.
  destruct (_ && _); [|exact IH].
  rewrite f32_add_zero_int16 by (exact Hz || apply Hk). exact IH.
Qed.

(** Before the first shifted window nothing is added. *)
Lemma echo_spec_before alpha samples d0 d1 ibits j x :
  Forall (fun ib : Z * bool => 0 <= fst ib) ibits -> j < Z.min d0 d1 ->
  echo_spec alpha samples d0 d1 ibits j x = x.
Proof.
  intros Hall Hj. revert x.
  induction Hall as [|[i b] ibits Hi _ IH]; intros x; [reflexivity|].
  cbn [fst] in Hi. cbn [echo_spec fold_left].
  replace (i * chunk_size + (if b then d1 else d0) <=? j) with false
    by (symmetry; apply Z.leb_gt; unfold chunk_size; destruct b; lia).
  apply IH.
Qed.

Lemma sample_at_int16 frames j :
  Forall is_int16 frames -> 0 <= j < len frames ->
  sample_at (map f32_of_Z frames) j = f32_of_Z (nth (Z.to_nat j) frames 0)
  /\ is_int16 (nth (Z.to_nat j) frames 0).
Proof.
  intros Hwf Hj. split.
  - unfold sample_at.
    rewrite (nth_indep _ fzero (f32_of_Z 0))
      by (rewrite length_map; unfold len in Hj; lia).
    apply map_nth.
  - rewrite Forall_forall in Hwf. apply Hwf, nth_In. unfold len in Hj. lia.
Qed.

Lemma sample_at_finite frames k :
  Forall is_int16 frames ->
  f32_is_finite (sample_at (map f32_of_Z frames) k) = true.
Proof.
  intros Hwf. unfold sample_at.
  destruct (nth_in_or_default (Z.to_nat k) (map f32_of_Z frames) fzero)
    as [Hin | ->]; [|reflexivity].
  pose proof (Forall_finite_samples frames Hwf) as Hf.
  rewrite Forall_forall in Hf. apply Hf, Hin.
Qed.

(** A sample that no echo term changes is written back as it was. *)
Lemma encode_echo_keeps audio m d0 d1 alpha :
  wf_wav audio -> 0 <= d0 -> 0 <= d1 ->
  len (message_bits m) * chunk_size + Z.max d0 d1 <= len (wav_frames audio) ->
  exists stego,
    encode_echo_simple audio m d0 d1 alpha = Ret (Some stego)
    /\ wav_params stego = wav_params audio
    /\ length (wav_frames stego) = length (wav_frames audio)
    /\ forall j, 0 <= j < len (wav_frames audio) ->
         (forall z, is_int16 z ->
            echo_spec (f32_of_f64 alpha) (map f32_of_Z (wav_frames audio))
                      d0 d1 (enumerate (message_bits m)) j (f32_of_Z z)
            = f32_of_Z z) ->
         nth (Z.to_nat j) (wav_frames stego) 0
         = nth (Z.to_nat j) (wav_frames audio) 0.
Proof.
  intros Hwf H0 H1 Hcap.
  destruct (encode_echo_frames audio m d0 d1 alpha H0 H1 Hcap)
    as (stego & Henc & Hpar & Hnth).
  destruct (encode_echo_stego audio m d0 d1 alpha H0 H1 Hcap) as [Henc' Hlen].
  exists stego. split; [exact Henc|]. split; [exact Hpar|]. split.
  - rewrite Henc in Henc'. injection Henc' as ->. unfold len in Hlen. lia.
  - intros j Hj Hkeep. rewrite (Hnth j Hj).
    destruct (sample_at_int16 _ j Hwf Hj) as [-> Hz].
    rewrite Hkeep by exact Hz. apply quantize_int16, Hz.
Qed.

Lemma encode_echo_unchanged audio m d0 d1 alpha :
  wf_wav audio -> 0 <= d0 -> 0 <= d1 ->
  len (message_bits m) * chunk_size + Z.max d0 d1 <= len (wav_frames audio) ->
  (forall k, f32_is_zero
               (f32_mul (f32_of_f64 alpha)
                        (sample_at (map f32_of_Z (wav_frames audio)) k)) = true) ->
  encode_echo_simple audio m d0 d1 alpha = Ret (Some audio).
Proof.
  intros Hwf H0 H1 Hcap Hzero.
  destruct (encode_echo_keeps audio m d0 d1 alpha Hwf H0 H1 Hcap)
    as (stego & Henc & Hpar & Hlen & Hnth).
  rewrite Henc. do 2 f_equal.
  destruct stego as [p f], audio as [p' f']. cbn [wav_params wav_frames] in *.
  subst p. f_equal.
  apply (nth_ext _ _ 0 0 Hlen). intros n Hn.
  rewrite <- (Nat2Z.id n). apply Hnth; [unfold len; lia|].
  intros z Hz. apply echo_spec_zero_terms; assumption.
Qed.

(** X13. With [alpha = 0.0] (or [-0.0]) echo hiding returns the input
    stream unchanged. *)
Theorem echo_encode_zero_alpha audio m d0 d1 s :
  wf_wav audio -> 0 <= d0 -> 0 <= d1 ->
  len (message_bits m) * chunk_size + Z.max d0 d1 <= len (wav_frames audio) ->
  encode_echo_simple audio m d0 d1 (S754_zero s) = Ret (Some audio).
Proof.
  intros Hwf H0 H1 Hcap. apply encode_echo_unchanged; try assumption.
  intros k. apply f32_mul_zero_l; [reflexivity|].
  apply sample_at_finite, Hwf.
Qed.

Lemma echo_encode_zero_alpha_witness :
  encode_echo_simple click_audio (lit "") 200 400 (S754_zero false)
  = Ret (Some click_audio).
Proof.
  apply (echo_encode_zero_alpha click_audio (lit "") 200 400 false).
  - unfold wf_wav, click_audio. cbn [wav_frames]. apply Forall_app. split.
    + apply Forall_repeat. unfold is_int16. lia.
    + constructor; [unfold is_int16; lia|].
      apply Forall_repeat. unfold is_int16. lia.
  - lia.
  - lia.
  - vm_compute. discriminate.
Defined.

(** X14. A silent stream carries nothing: for a finite [alpha],
    [encode_echo_simple] on all-zero frames returns the input, and decoding
    it against itself returns "No hidden message found". *)
Theorem echo_silence_carries_nothing audio m d0 d1 alpha :
  Forall (eq 0) (wav_frames audio) ->
  f32_is_finite (f32_of_f64 alpha) = true ->
  0 <= d0 -> 0 <= d1 ->
  len (message_bits m) * chunk_size + Z.max d0 d1 <= len (wav_frames audio) ->
  encode_echo_simple audio m d0 d1 alpha = Ret (Some audio)
  /\ exists debug_info bits,
       decode_echo_simple audio audio d0 d1
       = Ret (not_found, debug_info, bits).
Proof.
  intros Hsil Hfin H0 H1 Hcap.
  assert (Hwf : wf_wav audio).
  { eapply Forall_impl; [|exact Hsil]. intros z <-. unfold is_int16. lia. }
  split.
  - apply encode_echo_unchanged; try assumption.
    intros k. apply f32_mul_zero_r; [exact Hfin|].
    unfold sample_at.
    destruct (nth_in_or_default (Z.to_nat k)
                (map f32_of_Z (wav_frames audio)) fzero) as [Hin | ->];
      [|reflexivity].
    apply in_map_iff in Hin. destruct Hin as [z [<- Hz]].
    rewrite Forall_forall in Hsil. rewrite <- (Hsil z Hz). reflexivity.
  - do 2 eexists. apply decode_echo_same; assumption.
Qed.

Lemma echo_silence_carries_nothing_witness :
  encode_echo_simple (silence 262600) (lit "p") 200 400 alpha_half
  = Ret (Some (silence 262600))
  /\ exists debug_info bits,
       decode_echo_simple (silence 262600) (silence 262600) 200 400
       = Ret (not_found, debug_info, bits).
Proof.
  apply (echo_silence_carries_nothing (silence 262600) (lit "p") 200 400
           alpha_half).
  - apply Forall_repeat. reflexivity.
  - reflexivity.
  - lia.
  - lia.
  - vm_compute. discriminate.
Defined.

(** X12. Echo hiding leaves the first [min(d0, d1)] samples as they
    were. *)
Theorem echo_leading_samples_untouched audio m d0 d1 alpha :
  wf_wav audio -> 0 <= d0 -> 0 <= d1 ->
  len (message_bits m) * chunk_size + Z.max d0 d1 <= len (wav_frames audio) ->
  exists stego,
    encode_echo_simple audio m d0 d1 alpha = Ret (Some stego)
    /\ forall j, 0 <= j < Z.min d0 d1 ->
         nth (Z.to_nat j) (wav_frames stego) 0
         = nth (Z.to_nat j) (wav_frames audio) 0.
Proof.
  intros Hwf H0 H1 Hcap.
  destruct (encode_echo_keeps audio m d0 d1 alpha Hwf H0 H1 Hcap)
    as (stego & Henc & _ & _ & Hnth).
  exists stego. split; [exact Henc|]. intros j Hj.
  apply Hnth.
  - pose proof (len_nonneg (message_bits m)). unfold chunk_size in *. lia.
  - intros z _. apply echo_spec_before; [|lia].
    eapply Forall_impl; [|apply enumerate_bounds].
    intros [i b]. cbn [fst]. lia.
Qed.

Lemma echo_leading_samples_untouched_witness :
  exists stego,
    encode_echo_simple pulse_train (lit "p") 200 400 alpha_half
    = Ret (Some stego)
    /\ forall j, 0 <= j < Z.min 200 400 ->
         nth (Z.to_nat j) (wav_frames stego) 0
         = nth (Z.to_nat j) (wav_frames pulse_train) 0.
Proof.
  apply (echo_leading_samples_untouched pulse_train (lit "p") 200 400
           alpha_half).
  - unfold wf_wav, pulse_train. cbn [wav_frames].
    apply Forall_concat, Forall_repeat. constructor; [unfold is_int16; lia|].
    apply Forall_repeat. unfold is_int16. lia.
  - lia.
  - lia.
  - vm_compute. discriminate.
Defined.

(* ===================================================================== *)
(** * Echo hiding: negative delays *)
(* ===================================================================== *)

Lemma format_08b_ascii_head c :
  (c < 128)%N -> exists t, format_08b c = false :: t.
Proof.
  intros H. destruct c as [|p]; [eexists; reflexivity|].
  do 7 (destruct p as [p|p|]; try (eexists; reflexivity)); lia.
Qed.

Lemma message_bits_head m :
  is_ascii_str m -> exists rest, message_bits m = false :: rest.
Proof.
  intros Hm. destruct Hm as [|c m Hc _].
  - eexists. reflexivity.
  - destruct (format_08b_ascii_head c Hc) as [t Ht].
    unfold message_bits. cbn [app flat_map]. rewrite Ht.
    eexists. reflexivity.
Qed.

Lemma enumerate_cons {A : Type} (x : A) l :
  exists tl, enumerate (x :: l) = (0, x) :: tl.
Proof.
  unfold enumerate. rewrite range_eq.
  replace (Z.to_nat (len (x :: l))) with (S (length l))
    by (unfold len; simpl length; lia).
  eexists. reflexivity.
Qed.

(** [out[a:b] += v] on an empty destination with a longer [v]. *)
Lemma slice_iadd_empty {A : Type} (f : A -> A -> A) out a b v :
  slice out a b = [] -> (2 <= length v)%nat ->
  slice_iadd f out a b v = Raise ValueError.
Proof.
  intros Hs Hv. unfold slice_iadd. rewrite Hs. cbn [length].
  destruct v as [|x [|y v]]; simpl in Hv; try lia. reflexivity.
Qed.

Lemma slice_wrapped_empty {A : Type} (l : list A) a b :
  a < 0 -> 0 <= b -> b - a <= len l -> slice l a b = [].
Proof.
  intros Ha Hb Hl. unfold slice, clamp.
  destruct (Z.ltb_spec a 0); [|lia]. destruct (Z.ltb_spec b 0); [lia|].
  replace (Z.to_nat (Z.min b (len l) - Z.max (a + len l) 0)) with 0%nat by lia.
  reflexivity.
Qed.

(** X15. A negative [d0] above [-8192] makes [encode_echo_simple] raise
    [ValueError] on the first chunk of any ASCII message that passes the
    capacity test: the destination slice wraps around and is empty. *)
Theorem echo_encode_negative_delay audio m d0 d1 alpha :
  is_ascii_str m ->
  - chunk_size < d0 < 0 ->
  len (message_bits m) * chunk_size + Z.max d0 d1 <= len (wav_frames audio) ->
  encode_echo_simple audio m d0 d1 alpha = Raise ValueError.
Proof.
  intros Hm Hd Hcap. unfold encode_echo_simple, read_wav_bytes.
  set (samples := map f32_of_Z (wav_frames audio)).
  assert (Hlen : len samples = len (wav_frames audio))
    by (unfold samples, len; now rewrite length_map).
  rewrite Hlen.
  destruct (Z.gtb_spec (len (message_bits m) * chunk_size + Z.max d0 d1)
                       (len (wav_frames audio))); [lia|].
  pose proof (len_message_bits_ge m) as Hge. pose proof (len_nonneg m) as Hm0.
  destruct (message_bits_head m Hm) as [rest Hb]. rewrite Hb in *.
  destruct (enumerate_cons false rest) as [tl ->].
  rewrite len_cons in Hcap, Hge.
  cbn [for_eachM]. rewrite Hlen. unfold chunk_size in *.
  change (0 * 8192) with 0. cbn [Z.add].
  replace (Z.min 8192 (len (wav_frames audio) - Z.max d0 d1)) with 8192 by lia.
  change (8192 <=? 0) with false. cbv iota.
  assert (Hc : len (slice samples 0 8192) = 8192)
    by (rewrite len_slice; lia).
  rewrite Hc.
  destruct (Z.leb_spec (d0 + 8192) (len (wav_frames audio))); [|lia].
  rewrite slice_iadd_empty; [reflexivity | |].
  - apply slice_wrapped_empty; lia.
  - rewrite length_map. unfold len in Hc. lia.
Qed.

Lemma echo_encode_negative_delay_witness :
  encode_echo_simple (silence 200000) (lit "") (-1) 400 alpha_half
  = Raise ValueError.
Proof.
  apply (echo_encode_negative_delay (silence 200000) (lit "") (-1) 400
           alpha_half).
  - constructor.
  - unfold chunk_size. lia.
  - vm_compute. discriminate.
Defined.

Lemma binop_empty_r {A : Type} (f : A -> A -> A) x :
  (2 <= length x)%nat -> binop f x [] = Raise ValueError.
Proof.
  intros Hx. unfold binop.
  destruct x as [|a [|b x]]; simpl in Hx; try lia. reflexivity.
Qed.

(** X20. One negative delay above [-8192], the other not negative, and at
    least one chunk to read: [decode_echo_simple] raises [ValueError]. *)
Theorem echo_decode_negative_delay original stego d0 d1 :
  (- chunk_size < d0 < 0 /\ 0 <= d1) \/ (0 <= d0 /\ - chunk_size < d1 < 0) ->
  chunk_size + Z.max d0 d1
  <= Z.min (len (wav_frames original)) (len (wav_frames stego)) ->
  decode_echo_simple original stego d0 d1 = Raise ValueError.
Proof.
  intros Hd Hfit. unfold decode_echo_simple, read_wav_bytes, correlate_chunks.
  set (o := map f32_of_Z (wav_frames original)).
  set (s := map f32_of_Z (wav_frames stego)).
  replace (len o) with (len (wav_frames original))
    by (unfold o, len; now rewrite length_map).
  replace (len s) with (len (wav_frames stego))
    by (unfold s, len; now rewrite length_map).
  assert (Ho : len o = len (wav_frames original))
    by (unfold o, len; now rewrite length_map).
  assert (Hs : len s = len (wav_frames stego))
    by (unfold s, len; now rewrite length_map).
  set (shortest := Z.min (len (wav_frames original)) (len (wav_frames stego)))
    in *.
  set (md := Z.max d0 d1) in *.
  assert (Hmd : 0 <= md) by (unfold md; lia).
  unfold chunk_size in *.
  assert (Hn : 1 <= (shortest - md) / 8192)
    by (apply Z.div_le_lower_bound; lia).
  rewrite range_eq.
  destruct (Z.to_nat ((shortest - md) / 8192)) as [|k] eqn:Hk; [lia|].
  cbn [range_from for_eachM]. change (0 * 8192) with 0.
  change (0 + 8192) with 8192.
  destruct (Z.gtb_spec (8192 + md) shortest); [lia|].
  assert (Hle : length (slice s 0 (8192 + md)) = length (slice o 0 (8192 + md)))
    by (rewrite !length_slice by (unfold shortest in *; lia); reflexivity).
  rewrite (binop_same_length _ _ _ Hle). cbn [bind].
  set (echo := map2 f32_sub _ _).
  assert (Hecho : len echo = 8192 + md).
  { unfold echo, len. rewrite length_map2, <- Hle, Nat.min_id, length_slice
      by (unfold shortest in *; lia). lia. }
  assert (Hoc : len (slice o 0 8192) = 8192)
    by (rewrite len_slice by (unfold shortest in *; lia); lia).
  rewrite Hoc.
  assert (Hoc' : (2 <= length (slice o 0 8192))%nat)
    by (unfold len in Hoc; lia).
  destruct Hd as [[Hd0 Hd1] | [Hd0 Hd1]].
  - rewrite (slice_wrapped_empty echo d0 (d0 + 8192)) by lia.
    rewrite binop_empty_r by exact Hoc'. reflexivity.
  - rewrite (binop_same_length f32_mul)
      by (rewrite !length_slice by (unfold md in *; lia); lia).
    cbn [bind].
    rewrite (slice_wrapped_empty echo d1 (d1 + 8192)) by lia.
    rewrite binop_empty_r by exact Hoc'. reflexivity.
Qed.

Lemma echo_decode_negative_delay_witness :
  decode_echo_simple (silence 9000) (silence 9000) (-1) 400 = Raise ValueError
  /\ decode_echo_simple (silence 9000) (silence 9000) 200 (-1)
     = Raise ValueError.
Proof.
  split.
  - apply (echo_decode_negative_delay (silence 9000) (silence 9000) (-1) 400).
    + left. unfold chunk_size. lia.
    + vm_compute. discriminate.
  - apply (echo_decode_negative_delay (silence 9000) (silence 9000) 200 (-1)).
    + right. unfold chunk_size. lia.
    + vm_compute. discriminate.
Defined.

(* ===================================================================== *)
(** * Echo hiding: a round trip that succeeds *)
(* ===================================================================== *)

(** On a click train the echo of every chunk is a single sample, so the
    stego stream and the decoder's correlations can be written down
    exactly. *)

Lemma chunk_div_mod i r :
  0 <= r < chunk_size ->
  (i * chunk_size + r) / chunk_size = i /\ (i * chunk_size + r) mod chunk_size = r.
Proof.
  intros Hr. unfold chunk_size in *. split.
  - rewrite Z.add_comm, Z.div_add by lia. rewrite Z.div_small by lia. lia.
  - rewrite Z.add_comm, Z.mod_add by lia. apply Z.mod_small. lia.
Qed.

Lemma sample_at_map frames j :
  0 <= j < len frames ->
  sample_at (map f32_of_Z frames) j = f32_of_Z (nth (Z.to_nat j) frames 0).
Proof.
  intros Hj. unfold sample_at.
  rewrite (nth_indep _ fzero (f32_of_Z 0))
    by (rewrite length_map; unfold len in Hj; lia).
  apply map_nth.
Qed.

Lemma firstn_range_from k : forall n s st,
  (k <= n)%nat -> firstn k (range_from n s st) = range_from k s st.
Proof.
  induction k as [|k IH]; intros n s st Hk; [reflexivity|].
  destruct n as [|n]; [lia|]. cbn [range_from firstn]. f_equal.
  apply IH. lia.
Qed.

Lemma firstn_map_range {B : Type} (f : Z -> B) k n :
  0 <= k <= n -> firstn (Z.to_nat k) (map f (range n)) = map f (range k).
Proof.
  intros Hk. rewrite firstn_map, !range_eq, firstn_range_from by lia.
  reflexivity.
Qed.

Lemma map_range_nth {B : Type} (f : Z -> B) (l : list B) d :
  (forall i, 0 <= i < len l -> f i = nth (Z.to_nat i) l d) ->
  map f (range (len l)) = l.
Proof.
  intros Hf. apply (nth_ext _ _ d d).
  - rewrite length_map, length_range. unfold len. lia.
  - intros k Hk. rewrite length_map, length_range in Hk.
    rewrite <- (Nat2Z.id k) at 1.
    rewrite nth_map_range by (unfold len in *; lia).
    rewrite Hf by (unfold len in *; lia). now rewrite Nat2Z.id.
Qed.

Lemma range_cons stop :
  0 < stop -> range stop = 0 :: range_from (Z.to_nat (stop - 1)) 1 1.
Proof.
  intros H. rewrite range_eq.
  replace (Z.to_nat stop) with (S (Z.to_nat (stop - 1))) by lia.
  reflexivity.
Qed.

(** The pairs of [enumerate], from any start. *)
Lemma enumerate_from_In (bs : list bool) : forall s i b,
  In (i, b) (combine (range_from (length bs) s 1) bs) ->
  s <= i < s + len bs /\ b = nth (Z.to_nat (i - s)) bs false.
Proof.
  induction bs as [|b0 bs IH]; intros s i b Hin; [destruct Hin|].
  cbn [length range_from combine] in Hin. rewrite len_cons.
  pose proof (len_nonneg bs). destruct Hin as [Heq | Hin].
  - injection Heq as <- <-. rewrite Z.sub_diag. split; [lia | reflexivity].
  - apply IH in Hin. destruct Hin as [Hi ->]. split; [lia|].
    replace (Z.to_nat (i - s)) with (S (Z.to_nat (i - (s + 1)))) by lia.
    reflexivity.
Qed.

Lemma enumerate_from_split (bs : list bool) : forall s i0,
  s <= i0 < s + len bs ->
  exists pre post,
    combine (range_from (length bs) s 1) bs
    = pre ++ (i0, nth (Z.to_nat (i0 - s)) bs false) :: post
    /\ Forall (fun ib : Z * bool => s <= fst ib < s + len bs /\ fst ib <> i0) pre
    /\ Forall (fun ib : Z * bool => s <= fst ib < s + len bs /\ fst ib <> i0) post.
Proof.
  induction bs as [|b0 bs IH]; intros s i0 Hi.
  - unfold len in Hi. simpl in Hi. lia.
  - rewrite len_cons in *. pose proof (len_nonneg bs).
    cbn [length range_from combine].
    destruct (Z.eq_dec s i0) as [->|Hne].
    + exists [], (combine (range_from (length bs) (i0 + 1) 1) bs).
      rewrite Z.sub_diag. split; [reflexivity|]. split; [constructor|].
      apply Forall_forall. intros [i b] Hin. cbn [fst].
      apply enumerate_from_In in Hin. lia.
    + destruct (IH (s + 1) i0 ltac:(lia)) as (pre & post & Heq & Hpre & Hpost).
      exists ((s, b0) :: pre), post. rewrite Heq.
      replace (Z.to_nat (i0 - s)) with (S (Z.to_nat (i0 - (s + 1)))) by lia.
      split; [reflexivity|]. split.
      * constructor; [cbn [fst]; lia|].
        eapply Forall_impl; [|exact Hpre]. cbv beta. lia.
      * eapply Forall_impl; [|exact Hpost]. cbv beta. lia.
Qed.

Lemma f32_mul_nonzero x y :
  f32_is_nonzero (f32_mul x y) = true ->
  f32_is_nonzero x = true /\ f32_is_nonzero y = true.
Proof. destruct x, y; simpl; try discriminate; auto. Qed.

Lemma f32_nonzero_finite x : f32_is_nonzero x = true -> f32_is_finite x = true.
Proof. destruct x; simpl; try discriminate; auto. Qed.

Lemma quantize_is_int16 x : is_int16 (quantize x).
Proof. unfold quantize, f32_to_int16. apply view_int16_range. Qed.

Section ClickTrain.
Variables (A n d0 d1 : Z) (alpha : spec_float) (m : str).

Let bits : list bool := message_bits m.

Hypothesis A_int16 : is_int16 A.
Hypothesis d0_range : 0 < d0 < chunk_size.
Hypothesis d1_range : 0 < d1 < chunk_size.
Hypothesis delays_differ : d0 <> d1.
Hypothesis heard : click_heard alpha A = true.
Hypothesis fits : len bits * chunk_size + Z.max d0 d1 <= n.

Let o : list f32 := map f32_of_Z (wav_frames (click_train A n)).
Let e : f32 := click_echo alpha A.
Let q : Z := quantize e.

Lemma click_train_len : len (wav_frames (click_train A n)) = n.
Proof.
  pose proof (len_nonneg bits). unfold click_train, len, chunk_size in *.
  cbn [wav_frames]. rewrite length_map, length_range. lia.
Qed.

Lemma click_train_frame j :
  0 <= j < n ->
  nth (Z.to_nat j) (wav_frames (click_train A n)) 0
  = if j mod chunk_size =? 0 then A else 0.
Proof.
  intros Hj. unfold click_train. cbn [wav_frames].
  apply (nth_map_range (fun j => if j mod chunk_size =? 0 then A else 0)).
  exact Hj.
Qed.

Lemma click_train_wf : wf_wav (click_train A n).
Proof.
  unfold wf_wav, click_train. cbn [wav_frames].
  apply Forall_map, Forall_forall. intros j _.
  destruct (_ =? 0); [exact A_int16 | unfold is_int16; lia].
Qed.

Lemma click_train_sample j :
  0 <= j < n ->
  sample_at o j = if j mod chunk_size =? 0 then f32_of_Z A else fzero.
Proof.
  intros Hj. unfold o. rewrite sample_at_map by (rewrite click_train_len; lia).
  rewrite click_train_frame by exact Hj.
  destruct (_ =? 0); reflexivity.
Qed.

Lemma click_echo_finite :
  f32_is_nonzero e = true
  /\ f32_is_nonzero (f32_of_f64 alpha) = true
  /\ f32_is_nonzero (f32_of_Z A) = true
  /\ f32_is_nonzero (click_response alpha A) = true.
Proof.
  unfold click_heard in heard. apply andb_true_iff in heard.
  destruct heard as [He Hr]. split; [exact He|].
  destruct (f32_mul_nonzero _ _ He) as [Ha HA]. auto.
Qed.

(** Values that adding a zero leaves as they are. *)
Let stable (acc : f32) : Prop :=
  forall z, f32_is_zero z = true -> f32_add acc z = acc.

Lemma stable_fzero : stable fzero.
Proof. intros [[|]| | |]; try discriminate; reflexivity. Qed.

Lemma stable_nonzero x : f32_is_nonzero x = true -> stable x.
Proof.
  intros Hx z Hz. destruct x; try discriminate.
  destruct z; try discriminate. reflexivity.
Qed.

Lemma stable_int16 z : is_int16 z -> stable (f32_of_Z z).
Proof. intros Hz y Hy. apply f32_add_zero_int16; assumption. Qed.

(** A bit index whose echo does not put a click on sample [j]. *)
Let misses (j : Z) (ib : Z * bool) : Prop :=
  0 <= fst ib /\ (fst ib + 1) * chunk_size <= n
  /\ j <> fst ib * chunk_size + (if snd ib then d1 else d0).

Lemma echo_spec_miss j ibits : forall acc,
  stable acc -> Forall (misses j) ibits ->
  echo_spec (f32_of_f64 alpha) o d0 d1 ibits j acc = acc.
Proof.
  induction ibits as [|[i b] ibits IH]; intros acc Hst Hall; [reflexivity|].
  apply Forall_cons_iff in Hall. destruct Hall as [(Hi & Hn & Hj) Hall].
  cbn [fst snd] in Hi, Hn, Hj. cbn [echo_spec fold_left].
  fold (echo_spec (f32_of_f64 alpha) o d0 d1 ibits j).
  set (delay := if b then d1 else d0) in *.
  assert (Hd : 0 < delay < chunk_size) by (unfold delay; destruct b; assumption).
  destruct (Z.leb_spec (i * chunk_size + delay) j) as [Hlo|Hlo];
    [|cbn [andb]; apply IH; assumption].
  destruct (Z.ltb_spec j (i * chunk_size + delay + chunk_size)) as [Hhi|Hhi];
    [|cbn [andb]; apply IH; assumption].
  cbn [andb].
  rewrite Hst; [apply IH; assumption|].
  rewrite click_train_sample by (unfold chunk_size in *; lia).
  replace (j - delay) with (i * chunk_size + (j - delay - i * chunk_size)) by lia.
  destruct (chunk_div_mod i (j - delay - i * chunk_size)) as [_ ->];
    [unfold chunk_size in *; lia|].
  destruct (Z.eqb_spec (j - delay - i * chunk_size) 0); [lia|].
  destruct click_echo_finite as (_ & Ha & _).
  apply f32_mul_zero_r; [apply f32_nonzero_finite, Ha | reflexivity].
Qed.

Lemma echo_spec_hit pre post i0 (b0 : bool) :
  0 <= i0 -> (i0 + 1) * chunk_size <= n ->
  let j := i0 * chunk_size + (if b0 then d1 else d0) in
  Forall (misses j) pre -> Forall (misses j) post ->
  echo_spec (f32_of_f64 alpha) o d0 d1 (pre ++ (i0, b0) :: post) j fzero = e.
Proof.
  intros Hi Hn j Hpre Hpost. unfold echo_spec. rewrite fold_left_app.
  fold (echo_spec (f32_of_f64 alpha) o d0 d1 pre j fzero).
  rewrite echo_spec_miss by (exact stable_fzero || exact Hpre).
  cbn [fold_left].
  fold (echo_spec (f32_of_f64 alpha) o d0 d1 post j).
  set (delay := if b0 then d1 else d0) in *.
  assert (Hd : 0 < delay < chunk_size) by (unfold delay; destruct b0; assumption).
  replace (i0 * chunk_size + delay <=? j) with true
    by (symmetry; apply Z.leb_le; unfold j; lia).
  replace (j <? i0 * chunk_size + delay + chunk_size) with true
    by (symmetry; apply Z.ltb_lt; unfold j, chunk_size; lia).
  cbn [andb].
  replace (j - delay) with (i0 * chunk_size + 0) by (unfold j; lia).
  rewrite click_train_sample by (unfold chunk_size in *; lia).
  destruct (chunk_div_mod i0 0) as [_ ->]; [unfold chunk_size; lia|].
  cbn [Z.eqb].
  fold (click_echo alpha A). fold e.
  destruct click_echo_finite as (He & _).
  replace (f32_add fzero e) with e
    by (destruct e; try discriminate; reflexivity).
  apply echo_spec_miss; [apply stable_nonzero, He | exact Hpost].
Qed.

Let delay (i : Z) : Z := if nth (Z.to_nat i) bits false then d1 else d0.

Lemma delay_range i : 0 < delay i < chunk_size.
Proof. unfold delay. destruct (nth _ bits false); assumption. Qed.

Lemma echo_position_spec j :
  0 <= j ->
  echo_position bits d0 d1 j = true
  <-> exists i, 0 <= i < len bits /\ j = i * chunk_size + delay i.
Proof.
  intros Hj. unfold echo_position. fold (delay (j / chunk_size)).
  rewrite andb_true_iff, Z.ltb_lt, Z.eqb_eq. split.
  - intros [Hi Hm]. exists (j / chunk_size).
    pose proof (Z.div_mod j chunk_size ltac:(unfold chunk_size; lia)) as Hdm.
    split.
    + split; [apply Z.div_pos; unfold chunk_size; lia | exact Hi].
    + rewrite <- Hm. lia.
  - intros [i [Hi ->]].
    destruct (chunk_div_mod i (delay i)) as [-> ->];
      [pose proof (delay_range i); lia|].
    split; [lia | reflexivity].
Qed.

(** The frames of the stego stream: the quantized echo at the echo
    positions, the original sample everywhere else. *)
Lemma click_train_stego :
  exists stego,
    encode_echo_simple (click_train A n) m d0 d1 alpha = Ret (Some stego)
    /\ len (wav_frames stego) = n
    /\ forall j, 0 <= j < n ->
         nth (Z.to_nat j) (wav_frames stego) 0
         = if echo_position bits d0 d1 j then q
           else nth (Z.to_nat j) (wav_frames (click_train A n)) 0.
Proof.
  assert (H0 : 0 <= d0) by lia. assert (H1 : 0 <= d1) by lia.
  assert (Hcap : len (message_bits m) * chunk_size + Z.max d0 d1
                 <= len (wav_frames (click_train A n)))
    by (rewrite click_train_len; exact fits).
  destruct (encode_echo_frames (click_train A n) m d0 d1 alpha H0 H1 Hcap)
    as (stego & Henc & _ & Hnth).
  destruct (encode_echo_stego (click_train A n) m d0 d1 alpha H0 H1 Hcap)
    as [Henc' Hlen].
  exists stego. split; [exact Henc|]. split.
  { rewrite Henc in Henc'. injection Henc' as ->.
    rewrite Hlen. apply click_train_len. }
  intros j Hj. rewrite Hnth by (rewrite click_train_len; exact Hj).
  fold o bits.
  assert (Hbounds : forall i, 0 <= i < len bits -> (i + 1) * chunk_size <= n).
  { intros i Hi. unfold chunk_size in *. nia. }
  destruct (echo_position bits d0 d1 j) eqn:Hpos.
  - apply echo_position_spec in Hpos; [|lia].
    destruct Hpos as [i0 [Hi0 Hj0]].
    pose proof (delay_range i0) as Hd0.
    rewrite click_train_sample by exact Hj. rewrite Hj0.
    destruct (chunk_div_mod i0 (delay i0)) as [_ ->]; [lia|].
    destruct (Z.eqb_spec (delay i0) 0); [lia|].
    destruct (enumerate_from_split bits 0 i0 ltac:(lia))
      as (pre & post & Heq & Hpre & Hpost).
    unfold enumerate. rewrite range_eq.
    replace (Z.to_nat (len bits)) with (length bits) by (unfold len; lia).
    rewrite Heq. rewrite Z.sub_0_r. unfold delay.
    assert (Hmiss : forall l,
               Forall (fun ib : Z * bool =>
                         0 <= fst ib < 0 + len bits /\ fst ib <> i0) l ->
               Forall (fun ib : Z * bool =>
                         0 <= fst ib /\ (fst ib + 1) * chunk_size <= n
                         /\ i0 * chunk_size
                            + (if nth (Z.to_nat i0) bits false then d1 else d0)
                            <> fst ib * chunk_size
                               + (if snd ib then d1 else d0)) l).
    { intros l Hl. eapply Forall_impl; [|exact Hl].
      intros [i b]. cbn [fst snd]. intros [Hi Hne].
      split; [lia|]. split; [apply Hbounds; lia|].
      fold (delay i0).
      assert (0 < (if b then d1 else d0) < chunk_size)
        by (destruct b; assumption).
      unfold chunk_size in *. lia. }
    unfold q, e.
    rewrite (echo_spec_hit pre post i0 (nth (Z.to_nat i0) bits false));
      [reflexivity | lia | apply Hbounds; lia | apply Hmiss, Hpre
      | apply Hmiss, Hpost].
  - destruct (sample_at_int16 _ j click_train_wf
                ltac:(rewrite click_train_len; exact Hj)) as [Hs Hz].
    fold o in Hs. rewrite Hs.
    rewrite echo_spec_miss; [apply quantize_int16, Hz | apply stable_int16, Hz |].
    apply Forall_forall. intros [i b] Hin.
    unfold enumerate in Hin. rewrite range_eq in Hin.
    replace (Z.to_nat (len bits)) with (length bits) in Hin
      by (unfold len; lia).
    apply enumerate_from_In in Hin. destruct Hin as [Hi Hb].
    rewrite Z.sub_0_r in Hb. unfold misses. cbn [fst snd].
    split; [lia|]. split; [apply Hbounds; lia|].
    intros Heq.
    assert (Hex : echo_position bits d0 d1 j = true).
    { apply echo_position_spec; [lia|]. exists i. split; [lia|].
      unfold delay. rewrite <- Hb. exact Heq. }
    congruence.
Qed.

(** The decoder's view of such a stego stream. *)
Variable stego : wav.
Hypothesis stego_len : len (wav_frames stego) = n.
Hypothesis stego_frames :
  forall j, 0 <= j < n ->
    nth (Z.to_nat j) (wav_frames stego) 0
    = if echo_position bits d0 d1 j then q
      else nth (Z.to_nat j) (wav_frames (click_train A n)) 0.

Let s : list f32 := map f32_of_Z (wav_frames stego).
Let dq : f32 := f32_sub (f32_of_Z q) (f32_of_Z 0).

Lemma click_dq_finite : f32_is_finite dq = true.
Proof.
  unfold dq.
  destruct (f32_of_int16_cases q (quantize_is_int16 e))
    as [-> | (s0 & m0 & e0 & ->)]; reflexivity.
Qed.

(** Stego minus original: the quantized echo at the echo positions,
    [+0.0] elsewhere. *)
Lemma click_difference j :
  0 <= j < n ->
  f32_sub (sample_at s j) (sample_at o j)
  = if echo_position bits d0 d1 j then dq else fzero.
Proof.
  intros Hj. unfold s.
  rewrite sample_at_map by (rewrite stego_len; exact Hj).
  rewrite stego_frames by exact Hj.
  destruct (echo_position bits d0 d1 j) eqn:Hpos.
  - apply echo_position_spec in Hpos; [|lia].
    destruct Hpos as [i [Hi Hji]]. pose proof (delay_range i) as Hd.
    rewrite click_train_sample by exact Hj. rewrite Hji.
    destruct (chunk_div_mod i (delay i)) as [_ ->]; [lia|].
    destruct (Z.eqb_spec (delay i) 0); [lia|]. reflexivity.
  - destruct (sample_at_int16 _ j click_train_wf
                ltac:(rewrite click_train_len; exact Hj)) as [Hs Hz].
    fold o in Hs. rewrite Hs.
    apply f32_sub_self, f32_of_int16_finite, Hz.
Qed.

Lemma click_difference_finite j :
  0 <= j < n -> f32_is_finite (f32_sub (sample_at s j) (sample_at o j)) = true.
Proof.
  intros Hj. rewrite click_difference by exact Hj.
  destruct (echo_position bits d0 d1 j); [apply click_dq_finite | reflexivity].
Qed.

(** The products the decoder sums for chunk [i] at offset [d]: the click
    times the difference [d] samples later, then zeros. *)
Lemma click_products i d :
  0 <= i < len bits -> 0 < d < chunk_size -> d <= Z.max d0 d1 ->
  exists zeros,
    Forall (fun v => f32_is_zero v = true) zeros
    /\ corr_spec o s i d
       = f32_abs (np_sum (f32_mul (f32_of_Z A)
                                  (if d =? delay i then dq else fzero)
                          :: zeros)).
Proof.
  intros Hi Hd Hmax.
  assert (Hn : (i + 1) * chunk_size + Z.max d0 d1 <= n)
    by (unfold chunk_size in *; nia).
  unfold corr_spec. cbv zeta.
  rewrite (range_cons chunk_size) by (unfold chunk_size; lia).
  rewrite map_cons. eexists. split; [|f_equal; f_equal; f_equal].
  - apply Forall_map, Forall_forall. intros k Hk.
    apply In_range_from in Hk. destruct Hk as [t [Ht ->]].
    assert (Hk : 0 < 1 + Z.of_nat t * 1 < chunk_size)
      by (unfold chunk_size in *; lia).
    set (k := 1 + Z.of_nat t * 1) in *.
    rewrite click_train_sample by (unfold chunk_size in *; lia).
    destruct (chunk_div_mod i k) as [_ ->]; [lia|].
    destruct (Z.eqb_spec k 0); [lia|].
    apply f32_mul_zero_l; [reflexivity|].
    apply click_difference_finite. unfold chunk_size in *. lia.
  - rewrite !Z.add_0_r.
    rewrite click_train_sample by (unfold chunk_size in *; lia).
    replace (i * chunk_size) with (i * chunk_size + 0) at 1 by lia.
    destruct (chunk_div_mod i 0) as [_ ->]; [unfold chunk_size; lia|].
    cbn [Z.eqb]. f_equal.
    rewrite click_difference by (unfold chunk_size in *; lia).
    unfold echo_position.
    destruct (chunk_div_mod i d) as [-> ->]; [lia|].
    fold (delay i).
    replace (i <? len bits) with true by (symmetry; apply Z.ltb_lt; lia).
    reflexivity.
Qed.

Lemma click_corr_own i :
  0 <= i < len bits ->
  corr_spec o s i (delay i) = f32_abs (click_response alpha A).
Proof.
  intros Hi. pose proof (delay_range i) as Hd.
  destruct (click_products i (delay i) Hi Hd) as (zeros & Hz & ->).
  { unfold delay. destruct (nth _ bits false); lia. }
  rewrite Z.eqb_refl. fold (click_response alpha A).
  destruct click_echo_finite as (_ & _ & _ & Hr).
  change (f32_mul (f32_of_Z A) dq) with (click_response alpha A).
  destruct (click_response alpha A) as [| | |sr mr er]; try discriminate Hr.
  rewrite (np_sum_head_is_sum sr mr er zeros Hz). reflexivity.
Qed.

Lemma click_corr_other i d :
  0 <= i < len bits -> 0 < d < chunk_size -> d <= Z.max d0 d1 ->
  d <> delay i ->
  corr_spec o s i d = fzero.
Proof.
  intros Hi Hd Hmax Hne.
  destruct (click_products i d Hi Hd Hmax) as (zeros & Hz & ->).
  destruct (Z.eqb_spec d (delay i)); [contradiction|].
  apply np_sum_zeros. constructor; [|exact Hz].
  destruct click_echo_finite as (_ & _ & HA & _).
  apply f32_mul_zero_r; [apply f32_nonzero_finite, HA | reflexivity].
Qed.

(** Every chunk of the message votes for its bit. *)
Lemma click_vote i :
  0 <= i < len bits ->
  ci_bit (chunk_vote o s d0 d1 i) = nth (Z.to_nat i) bits false.
Proof.
  intros Hi. cbn [chunk_vote ci_bit].
  assert (Hn : (i + 1) * chunk_size + Z.max d0 d1 <= n)
    by (unfold chunk_size in *; nia).
  assert (Hlo : len o = n)
    by (unfold o, len; rewrite length_map; apply click_train_len).
  assert (Hls : len s = n)
    by (unfold s, len; rewrite length_map; apply stego_len).
  rewrite !chunk_corr_spec by (rewrite ?Hlo, ?Hls; lia).
  destruct click_echo_finite as (_ & _ & _ & Hr).
  pose proof (click_corr_own i Hi) as Hown. unfold delay in Hown.
  destruct (nth (Z.to_nat i) bits false) eqn:Hb.
  - rewrite Hown.
    rewrite (click_corr_other i d0) by (unfold delay; rewrite ?Hb; lia).
    clear Hown. destruct (click_response alpha A); try discriminate Hr.
    reflexivity.
  - rewrite Hown.
    rewrite (click_corr_other i d1) by (unfold delay; rewrite ?Hb; lia).
    clear Hown. destruct (click_response alpha A); try discriminate Hr.
    reflexivity.
Qed.

(** The bits the decoder decides begin with the bits of the message. *)
Lemma click_train_votes :
  exists debug_info decided,
    decode_echo_simple (click_train A n) stego d0 d1
    = Ret (decode_chars reject_echo decided, debug_info, decided)
    /\ firstn (length bits) decided = bits.
Proof.
  rewrite decode_echo_eq by lia. fold o s.
  rewrite click_train_len, stego_len, Z.min_id.
  set (N := (n - Z.max d0 d1) / chunk_size).
  do 2 eexists. split; [reflexivity|].
  assert (HN : len bits <= N).
  { unfold N. apply Z.div_le_lower_bound; unfold chunk_size in *; lia. }
  rewrite map_map.
  replace (length bits) with (Z.to_nat (len bits)) by (unfold len; lia).
  rewrite firstn_map_range by (pose proof (len_nonneg bits); lia).
  apply (map_range_nth _ bits false). intros i Hi. apply click_vote, Hi.
Qed.

End ClickTrain.


